(** * nonlinear: non-linear interpolation curves between 0 and 1

    A shallow embedding of the Go package [nonlinear] (the curve
    implementations, the bisection helper [bsInv] and the entry points
    [NLerp], [InvNLerp], [RemapNL]) and the proofs of its specification.

    The package computes on [float64].  The code is embedded once, over an
    interface [Float64] of the operations it uses, and read at two
    instances:
    - [float], the binary64 numbers of the kernel: executable, and bit-exact
      for the code that needs arithmetic and square roots only, each
      operation being rounded on its own (no fused multiply-add);
    - [ieee], exact real arithmetic extended with the IEEE special values
      (infinities and NaN): no rounding, no overflow, for the statements
      made "over the reals".

    A method that indexes a slice can panic; every method returns in the
    monad [res]. *)

From Stdlib Require Import Floats ZArith QArith List Sorted Bool Reals Lra Lia.
Import ListNotations.

Set Implicit Arguments.

(** ** Run-time panics

    Indexing a slice out of range is the failure the package's own code
    can cause (a nil curve is not modelled). *)

Inductive panic : Type :=
| IndexOutOfRange (i : Z) (len : Z).

Inductive res (A : Type) : Type :=
| Val (a : A)
| Panic (p : panic).

Arguments Val {A} a.
Arguments Panic {A} p.

Definition bind {A B : Type} (m : res A) (k : A -> res B) : res B :=
  match m with
  | Val a => k a
  | Panic p => Panic p
  end.

Notation "x <- m ;; k" := (bind m (fun x => k))
  (at level 61, m at next level, right associativity).

(** [s[i]] on a slice; Go's [int] index is a [Z] here (slices are far
    shorter than 2^63, so no wrap-around is involved). *)
Definition index {A : Type} (s : list A) (i : Z) : res A :=
  if (i <? 0)%Z then Panic (IndexOutOfRange i (Z.of_nat (length s)))
  else match nth_error s (Z.to_nat i) with
       | Some a => Val a
       | None => Panic (IndexOutOfRange i (Z.of_nat (length s)))
       end.

(** [s[i][j]] on a slice of slices. *)
Definition index2 {A : Type} (s : list (list A)) (i j : Z) : res A :=
  row <- index s i ;; index row j.

(** ** The float64 operations the package uses *)

Class Float64 (F : Type) : Type := {
  lit : Q -> F;              (* a numeric constant of the source *)
  neg : F -> F;              (* -x *)
  add : F -> F -> F;
  sub : F -> F -> F;
  mul : F -> F -> F;
  div : F -> F -> F;
  ltb : F -> F -> bool;      (* x < y; false when either is NaN *)
  Sqrt : F -> F              (* math.Sqrt *)
}.

Arguments lit {F _} q%_Q.

(** The functions of Go's [math] package the curves call. *)
Class Math (F : Type) : Type := {
  Exp : F -> F;
  Log : F -> F;
  Log1p : F -> F;
  Sin : F -> F;
  Asin : F -> F;
  Cosh : F -> F;
  Acosh : F -> F;
  Pow : F -> F -> F;
  Pi : F
}.

Declare Scope f64_scope.
Delimit Scope f64_scope with f64.
Notation "x + y" := (add x y) : f64_scope.
Notation "x - y" := (sub x y) : f64_scope.
Notation "x * y" := (mul x y) : f64_scope.
Notation "x / y" := (div x y) : f64_scope.
Notation "- x" := (neg x) : f64_scope.
Notation "x <? y" := (ltb x y) : f64_scope.
Notation "x >? y" := (ltb y x) : f64_scope.

(** ** The NonLinear interface

    [Transform] and [InvTransform] are the two methods; a value of the
    interface is the pair of method values of its receiver. *)

Record NonLinear (F : Type) : Type := {
  Transform : F -> res F;
  InvTransform : F -> res F
}.

Arguments Transform {F} _ _.
Arguments InvTransform {F} _ _.

(** ** Numerical method to find inverse

    [bsInv] calls nothing but [f.Transform], so it takes that method value:
    this is what lets a curve pass itself ([bsInv(v, nl)]). *)

Section Bisection.
Context {F : Type} `{Float64 F}.
Local Open Scope f64_scope.

(** The loop [for ; n > 0; n-- { ... }] from the state [(t, s)]. *)
Fixpoint bsLoop (f : F -> res F) (v : F) (n : nat) (t s : F) : res F :=
  match n with
  | O => Val t
  | S n' =>
      ft <- f t ;;
      let t' := if ft >? v then t - s else t + s in
      bsLoop f v n' t' (s / lit 2)
  end.

Definition bsInv (v : F) (f : F -> res F) : res F :=
  bsLoop f v 16 (lit 0.5) (lit 0.25).

End Bisection.

(** ** The curves that need arithmetic and square roots only *)

Module NLLinear.
Section Def.
Context {F : Type} `{Float64 F}.
Inductive t : Type := mk.
Definition Transform (nl : t) (x : F) : res F := Val x.
Definition InvTransform (nl : t) (v : F) : res F := Val v.
Definition iface (nl : t) : NonLinear F :=
  Build_NonLinear (Transform nl) (InvTransform nl).
End Def.
End NLLinear.

Module NLSquare.
Section Def.
Context {F : Type} `{Float64 F}.
Local Open Scope f64_scope.
Inductive t : Type := mk.
Definition Transform (nl : t) (x : F) : res F := Val (x * x).
Definition InvTransform (nl : t) (v : F) : res F := Val (Sqrt v).
Definition iface (nl : t) : NonLinear F :=
  Build_NonLinear (Transform nl) (InvTransform nl).
End Def.
End NLSquare.

Module NLCircle1.
Section Def.
Context {F : Type} `{Float64 F}.
Local Open Scope f64_scope.
Inductive t : Type := mk.
Definition Transform (nl : t) (x : F) : res F :=
  if x <? lit 1 then Val (lit 1 - Sqrt (lit 1 - x * x)) else Val (lit 1).
Definition InvTransform (nl : t) (v : F) : res F :=
  if v <? lit 1 then Val (Sqrt (lit 1 - (v - lit 1) * (v - lit 1)))
  else Val (lit 1).
Definition iface (nl : t) : NonLinear F :=
  Build_NonLinear (Transform nl) (InvTransform nl).
End Def.
End NLCircle1.

Module NLCircle2.
Section Def.
Context {F : Type} `{Float64 F}.
Local Open Scope f64_scope.
Inductive t : Type := mk.
Definition Transform (nl : t) (x : F) : res F :=
  Val (Sqrt (x * (lit 2 - x))).
Definition InvTransform (nl : t) (v : F) : res F :=
  Val (lit 1 - Sqrt (lit 1 - v * v)).
Definition iface (nl : t) : NonLinear F :=
  Build_NonLinear (Transform nl) (InvTransform nl).
End Def.
End NLCircle2.

Module NLP3.
Section Def.
Context {F : Type} `{Float64 F}.
Local Open Scope f64_scope.
Inductive t : Type := mk.
Definition Transform (nl : t) (x : F) : res F :=
  Val (x * x * (lit 3 - lit 2 * x)).
Definition InvTransform (nl : t) (v : F) : res F :=
  bsInv v (Transform nl).
Definition iface (nl : t) : NonLinear F :=
  Build_NonLinear (Transform nl) (InvTransform nl).
End Def.
End NLP3.

Module NLP5.
Section Def.
Context {F : Type} `{Float64 F}.
Local Open Scope f64_scope.
Inductive t : Type := mk.
Definition Transform (nl : t) (x : F) : res F :=
  Val (x * x * x * (x * (x * lit 6.0 - lit 15.0) + lit 10.0)).
Definition InvTransform (nl : t) (v : F) : res F :=
  bsInv v (Transform nl).
Definition iface (nl : t) : NonLinear F :=
  Build_NonLinear (Transform nl) (InvTransform nl).
End Def.
End NLP5.

(** ** The curves that call the math package *)

Module NLCube.
Section Def.
Context {F : Type} `{Float64 F} `{Math F}.
Local Open Scope f64_scope.
Inductive t : Type := mk.
Definition Transform (nl : t) (x : F) : res F := Val (x * x * x).
Definition InvTransform (nl : t) (v : F) : res F := Val (Pow v (lit (1 # 3))).
Definition iface (nl : t) : NonLinear F :=
  Build_NonLinear (Transform nl) (InvTransform nl).
End Def.
End NLCube.

Module NLExponential.
Section Def.
Context {F : Type} `{Float64 F} `{Math F}.
Local Open Scope f64_scope.
Record t : Type := mk { K : F; Scale : F }.
Definition New (k : F) : t := mk k (lit 1 / (Exp k - lit 1)).
Definition Transform (nl : t) (x : F) : res F :=
  Val ((Exp (x * K nl) - lit 1) * Scale nl).
Definition InvTransform (nl : t) (v : F) : res F :=
  Val (Log1p (v / Scale nl) / K nl).
Definition iface (nl : t) : NonLinear F :=
  Build_NonLinear (Transform nl) (InvTransform nl).
End Def.
End NLExponential.

Module NLLogarithmic.
Section Def.
Context {F : Type} `{Float64 F} `{Math F}.
Local Open Scope f64_scope.
Record t : Type := mk { K : F; Scale : F }.
Definition New (k : F) : t := mk k (lit 1 / Log1p k).
Definition Transform (nl : t) (x : F) : res F :=
  Val (Log1p (x * K nl) * Scale nl).
Definition InvTransform (nl : t) (v : F) : res F :=
  Val ((Exp (v / Scale nl) - lit 1) / K nl).
Definition iface (nl : t) : NonLinear F :=
  Build_NonLinear (Transform nl) (InvTransform nl).
End Def.
End NLLogarithmic.

Module NLSin.
Section Def.
Context {F : Type} `{Float64 F} `{Math F}.
Local Open Scope f64_scope.
Inductive t : Type := mk.
Definition Transform (nl : t) (x : F) : res F :=
  Val ((Sin ((x - lit 0.5) * Pi) + lit 1) / lit 2).
Definition InvTransform (nl : t) (v : F) : res F :=
  Val (Asin (v * lit 2 - lit 1) / Pi + lit 0.5).
Definition iface (nl : t) : NonLinear F :=
  Build_NonLinear (Transform nl) (InvTransform nl).
End Def.
End NLSin.

Module NLSin1.
Section Def.
Context {F : Type} `{Float64 F} `{Math F}.
Local Open Scope f64_scope.
Inductive t : Type := mk.
Definition Transform (nl : t) (x : F) : res F :=
  Val (Sin (x * Pi / lit 2)).
Definition InvTransform (nl : t) (v : F) : res F :=
  Val (Asin v / Pi * lit 2).
Definition iface (nl : t) : NonLinear F :=
  Build_NonLinear (Transform nl) (InvTransform nl).
End Def.
End NLSin1.

Module NLSin2.
Section Def.
Context {F : Type} `{Float64 F} `{Math F}.
Local Open Scope f64_scope.
Inductive t : Type := mk.
Definition Transform (nl : t) (x : F) : res F :=
  Val (Sin ((x - lit 1) * Pi / lit 2) + lit 1).
Definition InvTransform (nl : t) (v : F) : res F :=
  Val (Asin (v - lit 1) * lit 2 / Pi + lit 1).
Definition iface (nl : t) : NonLinear F :=
  Build_NonLinear (Transform nl) (InvTransform nl).
End Def.
End NLSin2.

Module NLLame.
Section Def.
Context {F : Type} `{Float64 F} `{Math F}.
Local Open Scope f64_scope.
Record t : Type := mk { N : F; M : F; Odn : F; Odm : F }.
Definition New (n m : F) : t := mk n m (lit 1 / n) (lit 1 / m).
Definition Transform (nl : t) (x : F) : res F :=
  if x <? lit 1 then
    let vm := lit 1 - Pow x (N nl) in
    Val (lit 1 - Pow vm (Odm nl))
  else Val (lit 1).
Definition InvTransform (nl : t) (v : F) : res F :=
  if v <? lit 1 then
    let v := lit 1 - v in
    let tn := lit 1 - Pow v (M nl) in
    Val (Pow tn (Odn nl))
  else Val (lit 1).
Definition iface (nl : t) : NonLinear F :=
  Build_NonLinear (Transform nl) (InvTransform nl).
End Def.
End NLLame.

Module NLCatenary.
Section Def.
Context {F : Type} `{Float64 F} `{Math F}.
Local Open Scope f64_scope.
Inductive t : Type := mk.
Definition Transform (nl : t) (x : F) : res F :=
  Val ((Cosh x - lit 1) / (Cosh (lit 1) - lit 1)).
Definition InvTransform (nl : t) (v : F) : res F :=
  Val (Acosh (v * (Cosh (lit 1) - lit 1) + lit 1)).
Definition iface (nl : t) : NonLinear F :=
  Build_NonLinear (Transform nl) (InvTransform nl).
End Def.
End NLCatenary.

Module NLGauss.
Section Def.
Context {F : Type} `{Float64 F} `{Math F}.
Local Open Scope f64_scope.
Record t : Type := mk { K : F; Offs : F; Scale : F }.
Definition New (k : F) : t :=
  let offs := Exp (- k * k * lit 0.5) in
  let scale := lit 1 / (lit 1 - offs) in
  mk k offs scale.
Definition Transform (nl : t) (x0 : F) : res F :=
  let x := K nl * (x0 - lit 1) in
  let x := x * (lit (-0.5) * x) in
  Val ((Exp x - Offs nl) * Scale nl).
Definition InvTransform (nl : t) (v : F) : res F :=
  let v := v / Scale nl in
  let v := v + Offs nl in
  let v := Log v in
  let v := v * lit (-2) in
  let v := Sqrt v in
  Val (lit 1 - v / K nl).
Definition iface (nl : t) : NonLinear F :=
  Build_NonLinear (Transform nl) (InvTransform nl).
End Def.
End NLGauss.

Section Logistic.
Context {F : Type} `{Float64 F} `{Math F}.
Local Open Scope f64_scope.

(** L = 1, k = 1, mp = 0 *)
Definition logisticTransform (x : F) : F :=
  lit 1 / (lit 1 + Exp (- x)).

Definition logisticInvTransform (v : F) : F :=
  - Log (lit 1 / v - lit 1).

End Logistic.

Module NLLogistic.
Section Def.
Context {F : Type} `{Float64 F} `{Math F}.
Local Open Scope f64_scope.
Record t : Type := mk { K : F; Mp : F; Offs : F; Scale : F }.
(** k > 0 and mp (0,1) - not checked *)
Definition New (k mp : F) : t :=
  let v0 := - mp * k in
  let v0 := logisticTransform v0 in
  let v1 := (lit 1 - mp) * k in
  let v1 := logisticTransform v1 in
  mk k mp v0 (lit 1 / (v1 - v0)).
Definition Transform (nl : t) (x : F) : res F :=
  let x := (x - Mp nl) * K nl in
  Val ((logisticTransform x - Offs nl) * Scale nl).
Definition InvTransform (nl : t) (v : F) : res F :=
  let v := v / Scale nl in
  let v := v + Offs nl in
  let v := logisticInvTransform v in
  Val (v / K nl + Mp nl).
Definition iface (nl : t) : NonLinear F :=
  Build_NonLinear (Transform nl) (InvTransform nl).
End Def.
End NLLogistic.

(** ** The combinators *)

Module NLCompound.
Section Def.
Context {F : Type}.
Record t : Type := mk { Fs : list (NonLinear F) }.
Definition New (fs : list (NonLinear F)) : t := mk fs.

(** [for _, f := range nl.Fs { t = f.Transform(t) }] *)
Fixpoint range (fs : list (NonLinear F)) (x : F) : res F :=
  match fs with
  | [] => Val x
  | f :: fs' => x' <- Transform f x ;; range fs' x'
  end.

(** [for i := len(nl.Fs) - 1; i > -1; i-- { v = nl.Fs[i].InvTransform(v) }],
    entered with [i = n - 1]. *)
Fixpoint down (fs : list (NonLinear F)) (n : nat) (v : F) : res F :=
  match n with
  | O => Val v
  | S i =>
      f <- index fs (Z.of_nat i) ;;
      v' <- InvTransform f v ;;
      down fs i v'
  end.

Definition Transform (nl : t) (x : F) : res F := range (Fs nl) x.
Definition InvTransform (nl : t) (v : F) : res F :=
  down (Fs nl) (length (Fs nl)) v.
Definition iface (nl : t) : NonLinear F :=
  Build_NonLinear (Transform nl) (InvTransform nl).
End Def.
End NLCompound.

Module NLOmt.
Section Def.
Context {A : Type} `{Float64 A}.
Local Open Scope f64_scope.
Record t : Type := mk { F : NonLinear A }.
Definition New (f : NonLinear A) : t := mk f.
Definition Transform (nl : t) (x : A) : res A :=
  let x := lit 1 - x in
  if x >? lit 0 then
    r <- Transform (F nl) x ;; Val (lit 1 - r)
  else Val (lit 1).
Definition InvTransform (nl : t) (v : A) : res A :=
  let v := lit 1 - v in
  if v >? lit 0 then
    r <- InvTransform (F nl) (lit 1 - v) ;; Val (lit 1 - r)
  else Val (lit 1).
Definition iface (nl : t) : NonLinear A :=
  Build_NonLinear (Transform nl) (InvTransform nl).
End Def.
End NLOmt.

Module NLStopped.
Section Def.
Context {F : Type} `{Float64 F}.
Local Open Scope f64_scope.
(** Pairs of t, v - both strictly ascending in [0,1] *)
Record t : Type := mk { Stops : list (list F) }.
(** Assumes valid stops *)
Definition New (stops : list (list F)) : t := mk stops.

(** The scanning loop [for i = 0; i < ns; i++], entered at index [i] with
    [fuel = ns - i] iterations left; it yields [i], [t0] and [v0] as they
    are when the loop is left, by [break] or by [i == ns]. *)
Fixpoint scan (stops : list (list F)) (x : F) (fuel : nat) (i : Z)
  : res (Z * F * F) :=
  match fuel with
  | O => Val (i, lit 0, lit 0)
  | S fuel' =>
      si <- index2 stops i 0 ;;
      if si >? x then
        if (i >? 1)%Z then
          t0 <- index2 stops (i - 1) 0 ;;
          v0 <- index2 stops (i - 1) 1 ;;
          Val (i, t0, v0)
        else Val (i, lit 0, lit 0)
      else scan stops x fuel' (i + 1)
  end.

Definition Transform (nl : t) (x : F) : res F :=
  let ns := Z.of_nat (length (Stops nl)) in
  r <- scan (Stops nl) x (length (Stops nl)) 0 ;;
  let '(i, t0, v0) := r in
  r0 <- (if (i =? ns)%Z then
           t0 <- index2 (Stops nl) (ns - 1) 0 ;;
           v0 <- index2 (Stops nl) (ns - 1) 1 ;;
           Val (t0, v0)
         else Val (t0, v0)) ;;
  let '(t0, v0) := r0 in
  r1 <- (if (i <? ns)%Z then
           t1 <- index2 (Stops nl) i 0 ;;
           v1 <- index2 (Stops nl) i 1 ;;
           Val (t1, v1)
         else Val (lit 1, lit 1)) ;;
  let '(t1, v1) := r1 in
  let dt := t1 - t0 in
  let x := (x - t0) / dt in
  Val ((lit 1 - x) * v0 + x * v1).

Definition InvTransform (nl : t) (v : F) : res F :=
  bsInv v (Transform nl).
Definition iface (nl : t) : NonLinear F :=
  Build_NonLinear (Transform nl) (InvTransform nl).
End Def.
End NLStopped.

(** ** Non-linear interpolations between 0 and 1 *)

Section Lerp.
Context {F : Type} `{Float64 F}.
Local Open Scope f64_scope.

(** NLerp returns the value of the supplied non-linear function at t. *)
Definition NLerp (t start end_ : F) (f : NonLinear F) : res F :=
  if t <? lit 0 then Val start
  else if t >? lit 1 then Val end_
  else
    t <- Transform f t ;;
    Val ((lit 1 - t) * start + t * end_).

(** InvNLerp performs the inverse of NLerp. *)
Definition InvNLerp (v start end_ : F) (f : NonLinear F) : res F :=
  let t := (v - start) / (end_ - start) in
  if t <? lit 0 then Val (lit 0)
  else if t >? lit 1 then Val (lit 1)
  else InvTransform f t.

Definition RemapNL (v istart iend ostart oend : F) (fi fo : NonLinear F)
  : res F :=
  t <- InvNLerp v istart iend fi ;;
  NLerp t ostart oend fo.

End Lerp.

(** ** Instance 1: binary64

    The kernel's primitive floats are IEEE 754 binary64 with round to
    nearest even, as Go's [float64] is.  A constant [n/d] of the source is
    the quotient of two exactly represented integers, correctly rounded. *)

Module B64.

Definition of_Z (z : Z) : float :=
  match z with
  | Z0 => 0%float
  | Zpos _ => PrimFloat.of_uint63 (Uint63.of_Z z)
  | Zneg p => PrimFloat.opp (PrimFloat.of_uint63 (Uint63.of_Z (Zpos p)))
  end.

Definition of_Q (q : Q) : float :=
  PrimFloat.div (of_Z (Qnum q)) (of_Z (Zpos (Qden q))).

#[global] Instance float64 : Float64 float := {|
  lit := of_Q;
  neg := PrimFloat.opp;
  add := PrimFloat.add;
  sub := PrimFloat.sub;
  mul := PrimFloat.mul;
  div := PrimFloat.div;
  ltb := PrimFloat.ltb;
  Sqrt := PrimFloat.sqrt
|}.

End B64.

(** ** Instance 2: exact reals with the IEEE special values

    [Fin r] is the real number [r]; arithmetic on finite values is exact.
    The special values follow IEEE 754: an invalid operation gives [NaN],
    every comparison with [NaN] is false.  Zero carries no sign here: a
    quotient by zero is signed as the quotient by [+0].  This instance
    serves the statements made over the reals only; what the package does
    with rounding, overflow and signed zeros is stated on binary64. *)

Inductive ieee : Type :=
| Fin (r : R)
| PInf
| NInf
| NaN.

Module Ieee.
Local Open Scope R_scope.

(** The infinity with the sign of [r] ([+] for [r >= 0]). *)
Definition inf_sgn (r : R) : ieee :=
  if Rlt_dec r 0 then NInf else PInf.

Definition flip (x : ieee) : ieee :=
  match x with
  | Fin r => Fin (- r)
  | PInf => NInf
  | NInf => PInf
  | NaN => NaN
  end.

Definition plus (x y : ieee) : ieee :=
  match x, y with
  | NaN, _ | _, NaN => NaN
  | Fin a, Fin b => Fin (a + b)
  | PInf, NInf | NInf, PInf => NaN
  | PInf, _ | _, PInf => PInf
  | NInf, _ | _, NInf => NInf
  end.

Definition minus (x y : ieee) : ieee := plus x (flip y).

Definition times_inf (s : ieee) (r : R) : ieee :=
  if Req_dec_T r 0 then NaN
  else if Rlt_dec r 0 then flip s else s.

Definition times (x y : ieee) : ieee :=
  match x, y with
  | NaN, _ | _, NaN => NaN
  | Fin a, Fin b => Fin (a * b)
  | Fin a, PInf => times_inf PInf a
  | Fin a, NInf => times_inf NInf a
  | PInf, Fin b => times_inf PInf b
  | NInf, Fin b => times_inf NInf b
  | PInf, PInf | NInf, NInf => PInf
  | PInf, NInf | NInf, PInf => NInf
  end.

Definition quot (x y : ieee) : ieee :=
  match x, y with
  | NaN, _ | _, NaN => NaN
  | Fin a, Fin b =>
      if Req_dec_T b 0 then
        if Req_dec_T a 0 then NaN else inf_sgn a
      else Fin (a / b)
  | Fin _, PInf | Fin _, NInf => Fin 0
  | PInf, Fin b => inf_sgn b
  | NInf, Fin b => flip (inf_sgn b)
  | _, _ => NaN
  end.

Definition lt (x y : ieee) : bool :=
  match x, y with
  | NaN, _ | _, NaN => false
  | Fin a, Fin b => if Rlt_dec a b then true else false
  | NInf, NInf | PInf, _ | _, NInf => false
  | _, _ => true
  end.

(** math.Sqrt: Sqrt(+Inf) = +Inf, Sqrt(x < 0) = NaN. *)
Definition sqrt (x : ieee) : ieee :=
  match x with
  | Fin a => if Rlt_dec a 0 then NaN else Fin (R_sqrt.sqrt a)
  | PInf => PInf
  | NInf | NaN => NaN
  end.

(** math.Exp: Exp(+Inf) = +Inf, Exp(-Inf) = 0. *)
Definition exp (x : ieee) : ieee :=
  match x with
  | Fin a => Fin (Rtrigo_def.exp a)
  | PInf => PInf
  | NInf => Fin 0
  | NaN => NaN
  end.

(** math.Log: Log(+Inf) = +Inf, Log(0) = -Inf, Log(x < 0) = NaN. *)
Definition log (x : ieee) : ieee :=
  match x with
  | Fin a =>
      if Rlt_dec a 0 then NaN
      else if Req_dec_T a 0 then NInf
      else Fin (ln a)
  | PInf => PInf
  | NInf | NaN => NaN
  end.

(** math.Log1p: Log1p(+Inf) = +Inf, Log1p(-1) = -Inf, Log1p(x < -1) = NaN. *)
Definition log1p (x : ieee) : ieee :=
  match x with
  | Fin a =>
      if Rlt_dec a (-1) then NaN
      else if Req_dec_T a (-1) then NInf
      else Fin (ln (1 + a))
  | PInf => PInf
  | NInf | NaN => NaN
  end.

(** math.Sin: Sin(+-Inf) = NaN. *)
Definition sin (x : ieee) : ieee :=
  match x with
  | Fin a => Fin (Rtrigo_def.sin a)
  | _ => NaN
  end.

(** math.Asin: Asin(x) = NaN if x < -1 or x > 1. *)
Definition asin (x : ieee) : ieee :=
  match x with
  | Fin a =>
      if Rlt_dec a (-1) then NaN
      else if Rlt_dec 1 a then NaN
      else Fin (Ratan.asin a)
  | _ => NaN
  end.

(** math.Cosh: Cosh(+-Inf) = +Inf. *)
Definition cosh (x : ieee) : ieee :=
  match x with
  | Fin a => Fin (Rtrigo_def.cosh a)
  | PInf | NInf => PInf
  | NaN => NaN
  end.

(** math.Acosh: Acosh(+Inf) = +Inf, Acosh(x) = NaN if x < 1. *)
Definition acosh (x : ieee) : ieee :=
  match x with
  | Fin a =>
      if Rlt_dec a 1 then NaN
      else Fin (ln (a + R_sqrt.sqrt (a * a - 1)))
  | PInf => PInf
  | NInf | NaN => NaN
  end.

(** Whether the real [y] is an integer, an odd integer. *)
Definition is_int (y : R) : bool :=
  if Req_dec_T y (IZR (Int_part y)) then true else false.

Definition is_odd_int (y : R) : bool :=
  is_int y && Z.odd (Int_part y).

(** [x^y] for finite [x <> 0]: NaN for [x < 0] and [y] not an integer. *)
Definition pow_fin (a b : R) : ieee :=
  if Rlt_dec 0 a then Fin (Rpower a b)
  else if is_int b then
    Fin (if Z.odd (Int_part b) then - Rpower (- a) b else Rpower (- a) b)
  else NaN.

(** math.Pow, in the order of its special cases:
    Pow(x, 0) = 1, Pow(1, y) = 1, Pow(x, 1) = x, NaN for a NaN argument,
    then x = 0, then y infinite, then x infinite, then y = 0.5 and
    y = -0.5 (by Sqrt), then the general case. *)
Definition pow (x y : ieee) : ieee :=
  match x, y with
  | NaN, Fin b => if Req_dec_T b 0 then Fin 1 else NaN
  | NaN, _ => NaN
  | Fin a, NaN => if Req_dec_T a 1 then Fin 1 else NaN
  | _, NaN => NaN
  | Fin a, Fin b =>
      if Req_dec_T b 0 then Fin 1
      else if Req_dec_T a 1 then Fin 1
      else if Req_dec_T b 1 then Fin a
      else if Req_dec_T a 0 then (if Rlt_dec b 0 then PInf else Fin 0)
      else if Req_dec_T b (1 / 2) then sqrt (Fin a)
      else if Req_dec_T b (- (1 / 2)) then quot (Fin 1) (sqrt (Fin a))
      else pow_fin a b
  | Fin a, PInf =>
      if Req_dec_T a 1 then Fin 1
      else if Req_dec_T a 0 then Fin 0
      else if Req_dec_T a (-1) then Fin 1
      else if Rlt_dec (Rabs a) 1 then Fin 0 else PInf
  | Fin a, NInf =>
      if Req_dec_T a 1 then Fin 1
      else if Req_dec_T a 0 then PInf
      else if Req_dec_T a (-1) then Fin 1
      else if Rlt_dec (Rabs a) 1 then PInf else Fin 0
  | PInf, Fin b =>
      if Req_dec_T b 0 then Fin 1
      else if Rlt_dec b 0 then Fin 0 else PInf
  | NInf, Fin b =>
      if Req_dec_T b 0 then Fin 1
      else if Rlt_dec b 0 then Fin 0
      else if is_odd_int b then NInf else PInf
  | PInf, PInf | NInf, PInf => PInf
  | PInf, NInf | NInf, NInf => Fin 0
  end.

#[global] Instance float64 : Float64 ieee := {|
  lit := fun q => Fin (Q2R q);
  neg := flip;
  add := plus;
  sub := minus;
  mul := times;
  div := quot;
  ltb := lt;
  Sqrt := sqrt
|}.

#[global] Instance math : Math ieee := {|
  Exp := exp;
  Log := log;
  Log1p := log1p;
  Sin := sin;
  Asin := asin;
  Cosh := cosh;
  Acosh := acosh;
  Pow := pow;
  Pi := Fin PI
|}.

End Ieee.

(** * Definitions for the statements *)

Local Open Scope R_scope.

(** ** Stop lists and the curves of the package *)

(** A stop list as the slice of pairs [[t, v]] the constructor takes. *)
Definition stops_of (l : list (R * R)) : list (list ieee) :=
  map (fun p => [Fin (fst p); Fin (snd p)]) l.

(** Well-formed stops: at least one, strictly inside the unit square,
    strictly ascending in both coordinates. *)
Definition well_formed_stops (l : list (R * R)) : Prop :=
  l <> [] /\
  Forall (fun p => 0 < fst p < 1 /\ 0 < snd p < 1) l /\
  StronglySorted (fun p q => fst p < fst q /\ snd p < snd q) l.

(** Two stops, ascending in both coordinates. *)
Definition two_stops : list (R * R) := [(1 / 4, 1 / 2); (1 / 2, 3 / 4)].

(** The same stops on binary64 (all values are exactly representable). *)
Definition two_stops_b64 : list (list float) :=
  [[lit 0.25; lit 0.5]; [lit 0.5; lit 0.75]].

(** The curves of the package, built with valid parameters; [stops_ok] says
    which stop lists a stopped curve may be built from. *)
Inductive package_curve (stops_ok : list (R * R) -> Prop) : NonLinear ieee -> Prop :=
| pc_Linear : package_curve stops_ok (NLLinear.iface NLLinear.mk)
| pc_Square : package_curve stops_ok (NLSquare.iface NLSquare.mk)
| pc_Cube : package_curve stops_ok (NLCube.iface NLCube.mk)
| pc_Exponential (k : R) :
    k <> 0 ->
    package_curve stops_ok (NLExponential.iface (NLExponential.New (Fin k)))
| pc_Logarithmic (k : R) :
    k <> 0 -> -1 < k ->
    package_curve stops_ok (NLLogarithmic.iface (NLLogarithmic.New (Fin k)))
| pc_Sin : package_curve stops_ok (NLSin.iface NLSin.mk)
| pc_Sin1 : package_curve stops_ok (NLSin1.iface NLSin1.mk)
| pc_Sin2 : package_curve stops_ok (NLSin2.iface NLSin2.mk)
| pc_Circle1 : package_curve stops_ok (NLCircle1.iface NLCircle1.mk)
| pc_Circle2 : package_curve stops_ok (NLCircle2.iface NLCircle2.mk)
| pc_Lame (n m : R) :
    0 < n -> 0 < m ->
    package_curve stops_ok (NLLame.iface (NLLame.New (Fin n) (Fin m)))
| pc_Catenary : package_curve stops_ok (NLCatenary.iface NLCatenary.mk)
| pc_Gauss (k : R) :
    k <> 0 ->
    package_curve stops_ok (NLGauss.iface (NLGauss.New (Fin k)))
| pc_Logistic (k mp : R) :
    0 < k -> 0 < mp < 1 ->
    package_curve stops_ok (NLLogistic.iface (NLLogistic.New (Fin k) (Fin mp)))
| pc_P3 : package_curve stops_ok (NLP3.iface NLP3.mk)
| pc_P5 : package_curve stops_ok (NLP5.iface NLP5.mk)
| pc_Compound_nil :
    package_curve stops_ok (NLCompound.iface (NLCompound.New []))
| pc_Compound_cons (f : NonLinear ieee) (fs : list (NonLinear ieee)) :
    package_curve stops_ok f ->
    package_curve stops_ok (NLCompound.iface (NLCompound.New fs)) ->
    package_curve stops_ok (NLCompound.iface (NLCompound.New (f :: fs)))
| pc_Omt (f : NonLinear ieee) :
    package_curve stops_ok f ->
    package_curve stops_ok (NLOmt.iface (NLOmt.New f))
| pc_Stopped (l : list (R * R)) :
    stops_ok l ->
    package_curve stops_ok (NLStopped.iface (NLStopped.New (stops_of l))).

(** Stops that keep clear of the ends: at least one, every [t] strictly
    between 0 and 1 (whatever the values [v] and the order). *)
Definition inner_stops (l : list (R * R)) : Prop :=
  l <> [] /\ Forall (fun p => 0 < fst p < 1) l.

(** The curves of the package built with valid parameters: the stops of a
    stopped curve keep clear of the ends (well-formed stops do). *)
Definition library_curve : NonLinear ieee -> Prop :=
  package_curve inner_stops.

(** Stop lists on binary64 with a stop on the line t = 1, on the line
    t = 0. *)
Definition stop_at_one_b64 : list (list float) :=
  [[lit 0.5; lit 0.5]; [lit 1; lit 1]].

Definition stop_at_zero_b64 : list (list float) :=
  [[lit 0; lit 0.25]].

(** Circle2 applied twice, on binary64: strictly increasing over the reals,
    flattened by rounding near t = 1. *)
Definition circles_b64 : NonLinear float :=
  NLCompound.iface
    (NLCompound.New [NLCircle2.iface NLCircle2.mk; NLCircle2.iface NLCircle2.mk]).

(** The curves of the package built without any stopped curve. *)
Definition unstopped_curve : NonLinear ieee -> Prop :=
  package_curve (fun _ => False).

(** Transform is, on [0,1], a real function that does not decrease. *)
Definition increasing_unit (c : NonLinear ieee) : Prop :=
  exists g : R -> R,
    (forall t, 0 <= t <= 1 -> Transform c (Fin t) = Val (Fin (g t))) /\
    (forall x y, 0 <= x -> x <= y -> y <= 1 -> g x <= g y).

(** The curves whose inverse is given in closed form, with the parameters
    for which that inverse is meant (for Gauss the rate is positive: the
    inverse takes the positive square root). *)
Inductive closed_form : NonLinear ieee -> Prop :=
| cf_Linear : closed_form (NLLinear.iface NLLinear.mk)
| cf_Square : closed_form (NLSquare.iface NLSquare.mk)
| cf_Cube : closed_form (NLCube.iface NLCube.mk)
| cf_Exponential (k : R) :
    k <> 0 ->
    closed_form (NLExponential.iface (NLExponential.New (Fin k)))
| cf_Logarithmic (k : R) :
    k <> 0 -> -1 < k ->
    closed_form (NLLogarithmic.iface (NLLogarithmic.New (Fin k)))
| cf_Sin : closed_form (NLSin.iface NLSin.mk)
| cf_Sin1 : closed_form (NLSin1.iface NLSin1.mk)
| cf_Sin2 : closed_form (NLSin2.iface NLSin2.mk)
| cf_Circle1 : closed_form (NLCircle1.iface NLCircle1.mk)
| cf_Circle2 : closed_form (NLCircle2.iface NLCircle2.mk)
| cf_Lame (n m : R) :
    0 < n -> 0 < m ->
    closed_form (NLLame.iface (NLLame.New (Fin n) (Fin m)))
| cf_Catenary : closed_form (NLCatenary.iface NLCatenary.mk)
| cf_Gauss (k : R) :
    0 < k ->
    closed_form (NLGauss.iface (NLGauss.New (Fin k)))
| cf_Logistic (k mp : R) :
    0 < k -> 0 < mp < 1 ->
    closed_form (NLLogistic.iface (NLLogistic.New (Fin k) (Fin mp))).

(** ** Properties of a curve *)

(** A curve goes from (0,0) to (1,1). *)
Definition endpoints (c : NonLinear ieee) : Prop :=
  Transform c (Fin 0) = Val (Fin 0) /\ Transform c (Fin 1) = Val (Fin 1).

(** InvTransform undoes Transform at [t], exactly. *)
Definition round_trip (c : NonLinear ieee) (t : R) : Prop :=
  (v <- Transform c (Fin t) ;; InvTransform c v) = Val (Fin t).

(** ** The real functions behind some curves *)

(** The smoothstep polynomial of NLP3, as a real function. *)
Definition p3 (y : R) : R := y * y * (3 - 2 * y).

(** The smootherstep polynomial of NLP5, as a real function. *)
Definition p5 (y : R) : R := y * y * y * (y * (y * 6 - 15) + 10).

(** The standard logistic function. *)
Definition sigma (x : R) : R := 1 / (1 + exp (- x)).

(** [a^b] for [a >= 0] and [b > 0], as a real. *)
Definition rpow (a b : R) : R :=
  if Req_dec_T a 0 then 0 else Rpower a b.

(** ** The bisection, as specified *)

(** The bisection as the specification words it: one step moves [t] down by
    the step when the transform exceeds the target and up otherwise, and
    halves the step; sixteen steps are taken from t = 0.5, step = 0.25. *)
Definition bisect_step {F : Type} `{Float64 F} (f : F -> res F) (v : F)
  (st : res (F * F)) : res (F * F) :=
  ts <- st ;;
  ft <- f (fst ts) ;;
  Val (if ft >? v then fst ts - snd ts else fst ts + snd ts,
       snd ts / lit 2)%f64.

Definition bisect_spec {F : Type} `{Float64 F} (v : F) (f : F -> res F)
  : res F :=
  ts <- Nat.iter 16 (bisect_step f v) (Val (lit 0.5, lit 0.25)) ;;
  Val (fst ts).

(** Every leaf of the 2^n-leaf decision tree of [bsLoop] satisfies [P]. *)
Fixpoint all_leaves (P : float -> bool) (n : nat) (t s : float) : bool :=
  match n with
  | O => P t
  | S n' =>
      all_leaves P n' (t - s)%f64 (s / lit 2)%f64
      && all_leaves P n' (t + s)%f64 (s / lit 2)%f64
  end.

(** 2^-17 <= r <= 1 - 2^-17, on binary64. *)
Definition in_range_b64 (r : float) : bool :=
  PrimFloat.leb (lit (1 # 131072)) r
  && PrimFloat.leb r (lit 1 - lit (1 # 131072))%f64.

(** A continuous, non-decreasing curve from (0,0) to (1,1) that is flat on
    [0,1/2]. *)
Definition ramp (x : R) : R := Rmax 0 (2 * x - 1).

Definition ramp_curve (x : ieee) : res ieee :=
  match x with
  | Fin a => Val (Fin (ramp a))
  | _ => Val NaN
  end.

(** ** The piecewise-linear curve through the stops, as specified *)

(** The piecewise-linear curve through the stops as the specification words
    it: from the last stop at or before [x] (or (0,0)) to the first stop
    after [x] (or (1,1)). *)
Definition last_stop_le (l : list (R * R)) (x : R) : R * R :=
  fold_left (fun acc p => if Rle_dec (fst p) x then p else acc) l (0, 0).

Definition first_stop_gt (l : list (R * R)) (x : R) : R * R :=
  match find (fun p => if Rlt_dec x (fst p) then true else false) l with
  | Some p => p
  | None => (1, 1)
  end.

Definition piecewise_linear (l : list (R * R)) (x : R) : R :=
  let (t0, v0) := last_stop_le l x in
  let (t1, v1) := first_stop_gt l x in
  let u := (x - t0) / (t1 - t0) in
  (1 - u) * v0 + u * v1.

(** ** Observing a NaN result *)

Definition is_nan_res (r : res float) : bool :=
  match r with
  | Val x => PrimFloat.is_nan x
  | Panic _ => false
  end.

(** ** Further notions for the statements *)

(** [t] brought into [0,1]. *)
Definition clamp_unit (t : R) : R :=
  if Rlt_dec t 0 then 0 else if Rlt_dec 1 t then 1 else t.

(** Every stop has its two entries, [t] and [v]. *)
Definition stops_are_pairs {F : Type} (stops : list (list F)) : Prop :=
  Forall (fun s => (2 <= length s)%nat) stops.

(** A curve whose methods always panic. *)
Definition panicking : NonLinear ieee :=
  Build_NonLinear (fun _ => Panic (IndexOutOfRange 0 0))
                  (fun _ => Panic (IndexOutOfRange 0 0)).

(** Transform reaches [v] from some [t] in [0,1]. *)
Definition reaches (c : NonLinear ieee) (v : R) : Prop :=
  exists t, 0 <= t <= 1 /\ Transform c (Fin t) = Val (Fin v).

(** [v] lies between [a] and [b], whichever of them is the larger. *)
Definition between (a b v : R) : Prop :=
  a <= v <= b \/ b <= v <= a.

(** * Proofs *)

(** ** Computing with [ieee] values *)

Lemma lit_fin (q : Q) : lit q = Fin (Q2R q).
Proof. reflexivity. Qed.

Lemma lt_fin_true (a b : R) : a < b -> Ieee.lt (Fin a) (Fin b) = true.
Proof. intros Hab; simpl; destruct (Rlt_dec a b); [reflexivity | lra]. Qed.

Lemma lt_fin_false (a b : R) : b <= a -> Ieee.lt (Fin a) (Fin b) = false.
Proof. intros Hab; simpl; destruct (Rlt_dec a b); [lra | reflexivity]. Qed.

Lemma quot_fin (a b : R) : b <> 0 -> Ieee.quot (Fin a) (Fin b) = Fin (a / b).
Proof. intros Hb; simpl; destruct (Req_dec_T b 0); [contradiction | reflexivity]. Qed.

(** Decide every comparison of reals in the goal, closing the impossible
    branches by linear arithmetic. *)
Ltac split_R :=
  repeat match goal with
  | |- context [Rlt_dec ?a ?b] => destruct (Rlt_dec a b); try lra
  | |- context [Rle_dec ?a ?b] => destruct (Rle_dec a b); try lra
  | |- context [Req_dec_T ?a ?b] => destruct (Req_dec_T a b); try lra
  end.

Ltac ieee_norm := cbn; unfold Q2R; cbn; split_R.

Lemma add_fin (a b : R) : (Fin a + Fin b)%f64 = Fin (a + b).
Proof. reflexivity. Qed.

Lemma sub_fin (a b : R) : (Fin a - Fin b)%f64 = Fin (a - b).
Proof. reflexivity. Qed.

Lemma mul_fin (a b : R) : (Fin a * Fin b)%f64 = Fin (a * b).
Proof. reflexivity. Qed.

Lemma div_fin (a b : R) : b <> 0 -> (Fin a / Fin b)%f64 = Fin (a / b).
Proof. apply quot_fin. Qed.

Lemma neg_fin (a : R) : (- Fin a)%f64 = Fin (- a).
Proof. reflexivity. Qed.

Lemma lit_0 : lit 0 = Fin 0.
Proof. rewrite lit_fin. f_equal. unfold Q2R; simpl; lra. Qed.

Lemma lit_1 : lit 1 = Fin 1.
Proof. rewrite lit_fin. f_equal. unfold Q2R; simpl; lra. Qed.

Lemma half_fin (s : R) : (Fin s / lit 2)%f64 = Fin (s / 2).
Proof.
  rewrite lit_fin, div_fin by (unfold Q2R; simpl; lra).
  f_equal. unfold Q2R; simpl; lra.
Qed.

Lemma mul_nan_r (x : ieee) : (x * NaN)%f64 = NaN.
Proof. destruct x; reflexivity. Qed.

Lemma sqrt_fin (a : R) : 0 <= a -> Sqrt (Fin a) = Fin (sqrt a).
Proof.
  intros Ha. cbn [Sqrt Ieee.float64 Ieee.sqrt].
  destruct (Rlt_dec a 0); [lra | reflexivity].
Qed.

Lemma exp_fin (a : R) : Exp (Fin a) = Fin (exp a).
Proof. reflexivity. Qed.

Lemma sin_fin (a : R) : Sin (Fin a) = Fin (sin a).
Proof. reflexivity. Qed.

Lemma cosh_fin (a : R) : Cosh (Fin a) = Fin (cosh a).
Proof. reflexivity. Qed.

Lemma pi_fin : Pi = Fin PI.
Proof. reflexivity. Qed.

Lemma log_fin (a : R) : 0 < a -> Log (Fin a) = Fin (ln a).
Proof.
  intros Ha. cbn [Log Ieee.math Ieee.log].
  destruct (Rlt_dec a 0); [lra |].
  destruct (Req_dec_T a 0); [lra | reflexivity].
Qed.

Lemma log1p_fin (a : R) : -1 < a -> Log1p (Fin a) = Fin (ln (1 + a)).
Proof.
  intros Ha. cbn [Log1p Ieee.math Ieee.log1p].
  destruct (Rlt_dec a (-1)); [lra |].
  destruct (Req_dec_T a (-1)); [lra | reflexivity].
Qed.

Lemma asin_fin (a : R) : -1 <= a <= 1 -> Asin (Fin a) = Fin (asin a).
Proof.
  intros Ha. cbn [Asin Ieee.math Ieee.asin].
  destruct (Rlt_dec a (-1)); [lra |].
  destruct (Rlt_dec 1 a); [lra | reflexivity].
Qed.

(** Rewrite the arithmetic of finite values into real arithmetic. *)
Ltac fin :=
  repeat rewrite ?lit_fin, ?neg_fin, ?add_fin, ?sub_fin, ?mul_fin, ?exp_fin,
    ?sin_fin, ?cosh_fin, ?pi_fin.

(** The same, with the constants 0 and 1 as plain reals. *)
Ltac fin1 := rewrite ?lit_0, ?lit_1; fin.

(** Close an equation between finite results by real arithmetic. *)
Ltac fin_eq tac := do 2 f_equal; unfold Q2R; simpl; tac.

(** Open the method of a curve behind its interface value. *)
Ltac open_curve :=
  cbn [Transform InvTransform NLLinear.iface NLSquare.iface NLCube.iface
       NLExponential.iface NLLogarithmic.iface NLSin.iface NLSin1.iface
       NLSin2.iface NLCircle1.iface NLCircle2.iface NLLame.iface
       NLCatenary.iface NLGauss.iface NLLogistic.iface NLP3.iface NLP5.iface
       NLCompound.iface NLOmt.iface NLStopped.iface];
  unfold NLLinear.Transform, NLSquare.Transform, NLCube.Transform,
    NLExponential.Transform, NLLogarithmic.Transform, NLSin.Transform,
    NLSin1.Transform, NLSin2.Transform, NLCircle1.Transform,
    NLCircle2.Transform, NLLame.Transform, NLCatenary.Transform,
    NLGauss.Transform, NLLogistic.Transform, NLP3.Transform, NLP5.Transform,
    NLCompound.Transform, NLOmt.Transform, NLStopped.Transform,
    NLLinear.InvTransform, NLSquare.InvTransform, NLCube.InvTransform,
    NLExponential.InvTransform, NLLogarithmic.InvTransform,
    NLSin.InvTransform, NLSin1.InvTransform, NLSin2.InvTransform,
    NLCircle1.InvTransform, NLCircle2.InvTransform, NLLame.InvTransform,
    NLCatenary.InvTransform, NLGauss.InvTransform, NLLogistic.InvTransform,
    NLP3.InvTransform, NLP5.InvTransform, NLCompound.InvTransform,
    NLOmt.InvTransform, NLStopped.InvTransform.

(** ** The loops, one iteration at a time *)

Lemma bsLoop_S (F : Type) (FO : Float64 F) (f : F -> res F) (v : F) (n : nat)
  (t s : F) :
  bsLoop f v (S n) t s
  = (ft <- f t ;;
     bsLoop f v n (if ft >? v then t - s else t + s)%f64 (s / lit 2)%f64).
Proof. reflexivity. Qed.

Lemma scan_S (F : Type) (FO : Float64 F) (stops : list (list F)) (x : F)
  (fuel : nat) (i : Z) :
  NLStopped.scan stops x (S fuel) i
  = (si <- index2 stops i 0 ;;
     if (si >? x)%f64 then
       if (i >? 1)%Z then
         t0 <- index2 stops (i - 1) 0 ;;
         v0 <- index2 stops (i - 1) 1 ;;
         Val (i, t0, v0)
       else Val (i, lit 0, lit 0)
     else NLStopped.scan stops x fuel (i + 1)).
Proof. reflexivity. Qed.

(** ** The stopped curve on an empty stop list *)

(** C10: a stopped curve built from the empty stop list is accepted by the
    constructor as it is, and its Transform indexes the stops at -1 (in a
    slice of length 0) and panics, whatever the argument. *)
Theorem stopped_empty_panics (F : Type) (FO : Float64 F) (x : F) :
  NLStopped.Stops (NLStopped.New (@nil (list F))) = [] /\
  Transform (NLStopped.iface (NLStopped.New [])) x
  = Panic (IndexOutOfRange (-1) 0).
Proof. split; reflexivity. Qed.

(** ** NLerp *)

(** C6: NLerp returns start for t < 0 and end for t > 1 whatever the curve
    is (also one whose Transform panics: it is not called), and for t in
    [0,1] blends start and end with the weight w = Transform(t). *)
Theorem NLerp_clamps (c : NonLinear ieee) (a b t : ieee) :
  ((t <? lit 0)%f64 = true -> NLerp t a b c = Val a) /\
  ((t >? lit 1)%f64 = true -> NLerp t a b c = Val b) /\
  (forall x : R, t = Fin x -> 0 <= x <= 1 ->
     NLerp t a b c
     = (w <- Transform c t ;; Val ((lit 1 - w) * a + w * b)%f64)).
Proof.
  unfold NLerp. repeat split.
  - intros ->. reflexivity.
  - intros H1.
    assert (H0 : (t <? lit 0)%f64 = false).
    { destruct t; try reflexivity; try discriminate.
      revert H1. ieee_norm; intros; try discriminate; reflexivity. }
    rewrite H0, H1. reflexivity.
  - intros x -> Hx.
    rewrite lit_fin, lit_fin.
    cbn [ltb Ieee.float64].
    rewrite lt_fin_false by (unfold Q2R; simpl; lra).
    rewrite lt_fin_false by (unfold Q2R; simpl; lra).
    reflexivity.
Qed.

Lemma NLerp_clamps_witness :
  NLerp (Fin (-1)) (Fin 2) (Fin 4) (NLStopped.iface (NLStopped.New [])) = Val (Fin 2) /\
  NLerp (Fin 5) (Fin 2) (Fin 4) (NLStopped.iface (NLStopped.New [])) = Val (Fin 4) /\
  NLerp (Fin (1 / 2)) (Fin 2) (Fin 4) (NLSquare.iface NLSquare.mk)
  = Val (Fin (5 / 2)).
Proof.
  repeat split.
  - apply (NLerp_clamps (NLStopped.iface (NLStopped.New [])) (Fin 2) (Fin 4) (Fin (-1))).
    apply lt_fin_true. unfold Q2R; simpl; lra.
  - apply (NLerp_clamps (NLStopped.iface (NLStopped.New [])) (Fin 2) (Fin 4) (Fin 5)).
    apply lt_fin_true. unfold Q2R; simpl; lra.
  - destruct (NLerp_clamps (NLSquare.iface NLSquare.mk) (Fin 2) (Fin 4) (Fin (1 / 2)))
      as (_ & _ & H).
    rewrite (H (1 / 2) eq_refl) by lra.
    cbn. f_equal. f_equal. unfold Q2R; simpl; lra.
Defined.

(** The clamps on binary64, with a curve that panics when called. *)
Lemma NLerp_clamps_b64 :
  NLerp (lit (-1)) (lit 2) (lit 4) (NLStopped.iface (NLStopped.New []))
  = Val (lit 2 : float) /\
  NLerp (lit 5) (lit 2) (lit 4) (NLStopped.iface (NLStopped.New []))
  = Val (lit 4 : float) /\
  NLerp (lit 0.5 : float) (lit 2) (lit 4) (NLStopped.iface (NLStopped.New []))
  = Panic (IndexOutOfRange (-1) 0) /\
  NLerp (lit 0.5) (lit 2) (lit 4) (NLSquare.iface NLSquare.mk)
  = Val (lit 2.5 : float).
Proof. repeat split; vm_compute; reflexivity. Qed.

(** ** InvNLerp with end == start *)

(** Two floats that compare equal differ by a zero or, when they are the
    same infinity, by a NaN. *)
Lemma SFeqb_sub (a b : SpecFloat.spec_float) :
  SpecFloat.SFeqb b a = true ->
  (exists sg, SF64sub b a = SpecFloat.S754_zero sg) \/
  SF64sub b a = SpecFloat.S754_nan.
Proof.
  unfold SpecFloat.SFeqb, SF64sub.
  destruct a as [sa | sa | | sa ma ea], b as [sb | sb | | sb mb eb];
    cbn [SpecFloat.SFcompare SpecFloat.SFsub]; try discriminate.
  all: try (destruct sb, sa; try discriminate).
  all: try (intros _; (left; eexists; reflexivity) || (right; reflexivity)).
  all: destruct (Z.compare_spec eb ea) as [-> | |]; try discriminate.
  all: destruct (Pos.compare_cont Eq mb ma) eqn:Ec; try discriminate.
  all: intros _; apply Pos.compare_eq in Ec; subst mb.
  all: left; exists false; rewrite Z.min_id, Z.sub_diag; reflexivity.
Qed.

(** A quotient by a zero or by a NaN is an infinity or a NaN. *)
Lemma SFdiv_degenerate (n d : SpecFloat.spec_float) :
  (exists sg, d = SpecFloat.S754_zero sg) \/ d = SpecFloat.S754_nan ->
  (exists sg, SF64div n d = SpecFloat.S754_infinity sg) \/
  SF64div n d = SpecFloat.S754_nan.
Proof.
  unfold SF64div. intros [[sg ->] | ->].
  - destruct n; cbn [SpecFloat.SFdiv]; eauto.
  - right. destruct n; reflexivity.
Qed.

Lemma Prim2SF_lit_0 : Prim2SF (lit 0) = SpecFloat.S754_zero false.
Proof. reflexivity. Qed.

Lemma Prim2SF_lit_1 :
  Prim2SF (lit 1) = SpecFloat.S754_finite false 4503599627370496 (-52).
Proof. reflexivity. Qed.

Lemma Prim2SF_inj_val (x : float) (s : SpecFloat.spec_float) :
  Prim2SF x = s -> x = SF2Prim s.
Proof. intros <-. symmetry. apply SF2Prim_Prim2SF. Qed.

(** C7 (amended): on binary64, for every curve and all v, start and end
    with end == start (as float64 compares them: +0 and -0 are equal, a NaN
    is equal to nothing), the quotient (v - start) / (end - start) is +Inf,
    -Inf or NaN; InvNLerp returns 1 for +Inf and 0 for -Inf without calling
    the curve, and for a NaN quotient, which no clamp catches, it returns
    the curve's InvTransform of NaN. *)
Theorem InvNLerp_degenerate (c : NonLinear float) (v s e : float) :
  PrimFloat.eqb e s = true ->
  (((v - s) / (e - s))%float = infinity /\
   InvNLerp v s e c = Val (lit 1)) \/
  (((v - s) / (e - s))%float = neg_infinity /\
   InvNLerp v s e c = Val (lit 0)) \/
  (((v - s) / (e - s))%float = nan /\
   InvNLerp v s e c = InvTransform c nan).
Proof.
  intros He. rewrite FloatAxioms.eqb_spec in He.
  pose proof (SFeqb_sub _ _ He) as Hd. rewrite <- sub_spec in Hd.
  pose proof (@SFdiv_degenerate (Prim2SF (v - s)) _ Hd) as Hq.
  rewrite <- div_spec in Hq.
  unfold InvNLerp. cbn [sub div ltb B64.float64]. cbv zeta.
  set (q := ((v - s) / (e - s))%float) in *.
  rewrite !ltb_spec, Prim2SF_lit_0, Prim2SF_lit_1.
  destruct Hq as [[[|] Hq] | Hq]; rewrite Hq;
    apply Prim2SF_inj_val in Hq; cbn [SpecFloat.SFltb SpecFloat.SFcompare].
  - right; left. split; [exact Hq | reflexivity].
  - left. split; [exact Hq | reflexivity].
  - right; right. split; [exact Hq |]. rewrite Hq. reflexivity.
Qed.

Lemma InvNLerp_degenerate_witness :
  (((1 - 0) / (neg_zero - 0))%float = infinity /\
   InvNLerp 1%float 0%float neg_zero (NLLinear.iface NLLinear.mk)
   = Val (lit 1)) \/
  (((1 - 0) / (neg_zero - 0))%float = neg_infinity /\
   InvNLerp 1%float 0%float neg_zero (NLLinear.iface NLLinear.mk)
   = Val (lit 0)) \/
  (((1 - 0) / (neg_zero - 0))%float = nan /\
   InvNLerp 1%float 0%float neg_zero (NLLinear.iface NLLinear.mk)
   = InvTransform (NLLinear.iface NLLinear.mk) nan).
Proof.
  apply (@InvNLerp_degenerate (NLLinear.iface NLLinear.mk) 1%float 0%float
           neg_zero).
  vm_compute. reflexivity.
Defined.

(** The cases at work, with a curve that panics when called: equal finite
    ends; start = +0 and end = -0, where the zero divisor is negative and
    the clamps come out the other way round; v = start, where the quotient
    is 0/0 and the curve is called. *)
Lemma InvNLerp_degenerate_b64 :
  InvNLerp (lit 2) (lit 1) (lit 1) (NLStopped.iface (NLStopped.New []))
  = Val (lit 1 : float) /\
  InvNLerp (lit 0) (lit 1) (lit 1) (NLStopped.iface (NLStopped.New []))
  = Val (lit 0 : float) /\
  InvNLerp 1%float 0%float neg_zero (NLStopped.iface (NLStopped.New []))
  = Val (lit 0 : float) /\
  InvNLerp (-1)%float 0%float neg_zero (NLStopped.iface (NLStopped.New []))
  = Val (lit 1 : float) /\
  InvNLerp (lit 1 : float) (lit 1) (lit 1) (NLStopped.iface (NLStopped.New []))
  = Panic (IndexOutOfRange (-1) 0).
Proof. repeat split; vm_compute; reflexivity. Qed.

(** C7 (as stated, refuted): with v = start = end = 1 the quotient is 0/0,
    a NaN; it passes both clamps and the curve's InvTransform is applied to
    it, so the result (NaN for the linear curve) is neither 0 nor 1. *)
Lemma InvNLerp_degenerate_counterexample :
  ~ (forall (c : NonLinear float) (v s : float),
       InvNLerp v s s c = Val (lit 0) \/ InvNLerp v s s c = Val (lit 1)).
Proof.
  intros H.
  destruct (H (NLLinear.iface NLLinear.mk) 1%float 1%float) as [E | E];
    apply (f_equal is_nan_res) in E; vm_compute in E; discriminate E.
Qed.

(** ** The range of bsInv *)

Lemma all_leaves_sound (P : float -> bool) (f : float -> res float) (v : float)
  (n : nat) :
  forall t s r, all_leaves P n t s = true ->
    bsLoop f v n t s = Val r -> P r = true.
Proof.
  induction n as [| n IH]; intros t s r HP Hr; simpl in *.
  - injection Hr as <-. exact HP.
  - apply andb_prop in HP. destruct HP as [Hl Hu].
    destruct (f t) as [ft |]; simpl in Hr; [| discriminate].
    destruct (PrimFloat.ltb v ft); [exact (IH _ _ _ Hl Hr) | exact (IH _ _ _ Hu Hr)].
Qed.

Lemma bsLoop_total (F : Type) (FO : Float64 F) (f : F -> res F) (v : F) (n : nat) :
  (forall x, exists y, f x = Val y) ->
  forall t s, exists r, bsLoop f v n t s = Val r.
Proof.
  intros Hf. induction n as [| n IH]; intros t s; simpl.
  - eauto.
  - destruct (Hf t) as [y ->]. simpl. apply IH.
Qed.

Lemma leaves_16 : all_leaves in_range_b64 16 (lit 0.5) (lit 0.25) = true.
Proof. vm_compute. reflexivity. Qed.

Lemma bsLoop_range_ieee (f : ieee -> res ieee) (v : ieee) (n : nat) :
  forall t s r, 0 < s ->
    bsLoop f v n (Fin t) (Fin s) = Val r ->
    exists x, r = Fin x /\ Rabs (x - t) <= 2 * s - 2 * s / 2 ^ n.
Proof.
  induction n as [| n IH]; intros t s r Hs Hr.
  - injection Hr as <-. exists t. split; [reflexivity |].
    simpl. replace (t - t) with 0 by lra. rewrite Rabs_R0. lra.
  - rewrite bsLoop_S in Hr.
    destruct (f (Fin t)) as [ft |]; cbn [bind] in Hr; [| discriminate].
    rewrite half_fin, sub_fin, add_fin in Hr.
    assert (Hp : 0 < / 2 ^ n) by (apply Rinv_0_lt_compat, pow_lt; lra).
    assert (Hs2 : 0 < s / 2) by lra.
    assert (E : 2 * s / 2 ^ S n = s / 2 ^ n)
      by (simpl; field; apply pow_nonzero; lra).
    rewrite E.
    destruct (ft >? v)%f64; apply IH in Hr; try assumption;
      destruct Hr as (x & -> & Hx); exists x; (split; [reflexivity |]);
      replace (2 * (s / 2) / 2 ^ n) with (s / 2 ^ n) in Hx
        by (field; apply pow_nonzero; lra);
      unfold Rabs in *;
      repeat match goal with
      | H : context [Rcase_abs ?e] |- _ => destruct (Rcase_abs e)
      | |- context [Rcase_abs ?e] => destruct (Rcase_abs e)
      end; unfold Rdiv in *; lra.
Qed.

Lemma pow2_17 : / 2 ^ 17 = 1 / 131072.
Proof. simpl. lra. Qed.

(** The three inverses that are computed by bisection. *)
Lemma NLP3_InvTransform_bsInv (F : Type) (FO : Float64 F) (v : F) :
  InvTransform (NLP3.iface NLP3.mk) v = bsInv v (NLP3.Transform NLP3.mk).
Proof. exact (eq_refl (bsInv v (NLP3.Transform NLP3.mk))). Qed.

Lemma NLP5_InvTransform_bsInv (F : Type) (FO : Float64 F) (v : F) :
  InvTransform (NLP5.iface NLP5.mk) v = bsInv v (NLP5.Transform NLP5.mk).
Proof. exact (eq_refl (bsInv v (NLP5.Transform NLP5.mk))). Qed.

Lemma NLStopped_InvTransform_bsInv (F : Type) (FO : Float64 F)
  (stops : list (list F)) (v : F) :
  InvTransform (NLStopped.iface (NLStopped.New stops)) v
  = bsInv v (NLStopped.Transform (NLStopped.New stops)).
Proof.
  exact (eq_refl (bsInv v (NLStopped.Transform (NLStopped.New stops)))).
Qed.

(** C9: whatever the curve and the target are, a value bsInv returns lies
    between 2^-17 and 1 - 2^-17, on binary64 as over the reals, so it is
    never 0 and never 1; bsInv returns whenever the curve's Transform does;
    in particular the inverses of P3, P5 and of a stopped curve return
    values in that range only. *)
Theorem bsInv_range :
  (forall (f : float -> res float) (v r : float),
     bsInv v f = Val r -> in_range_b64 r = true) /\
  (forall (f : ieee -> res ieee) (v r : ieee),
     bsInv v f = Val r ->
     exists x, r = Fin x /\ / 2 ^ 17 <= x <= 1 - / 2 ^ 17) /\
  (forall (F : Type) (FO : Float64 F) (f : F -> res F) (v : F),
     (forall x, exists y, f x = Val y) -> exists r, bsInv v f = Val r) /\
  (forall (stops : list (list float)) (v r : float),
     InvTransform (NLP3.iface NLP3.mk) v = Val r \/
     InvTransform (NLP5.iface NLP5.mk) v = Val r \/
     InvTransform (NLStopped.iface (NLStopped.New stops)) v = Val r ->
     in_range_b64 r = true).
Proof.
  assert (Hb : forall (f : float -> res float) (v r : float),
             bsInv v f = Val r -> in_range_b64 r = true).
  { intros f v r Hr. exact (all_leaves_sound _ f v 16 _ _ leaves_16 Hr). }
  split; [exact Hb |]. split; [| split].
  - intros f v r Hr. unfold bsInv in Hr. rewrite !lit_fin in Hr.
    apply bsLoop_range_ieee in Hr; [| unfold Q2R; simpl; lra].
    destruct Hr as (x & -> & Hx). exists x. split; [reflexivity |].
    rewrite pow2_17.
    replace (2 * Q2R 0.25 - 2 * Q2R 0.25 / 2 ^ 16) with (1 / 2 - 1 / 131072)
      in Hx by (unfold Q2R; simpl; lra).
    replace (Q2R 0.5) with (1 / 2) in Hx by (unfold Q2R; simpl; lra).
    unfold Rabs in Hx. destruct (Rcase_abs (x - 1 / 2)); lra.
  - intros F FO f v Hf. apply bsLoop_total, Hf.
  - intros stops v r [Hr | [Hr | Hr]].
    + rewrite NLP3_InvTransform_bsInv in Hr. revert Hr. apply Hb.
    + rewrite NLP5_InvTransform_bsInv in Hr. revert Hr. apply Hb.
    + rewrite NLStopped_InvTransform_bsInv in Hr. revert Hr. apply Hb.
Qed.

(** Below every value of the curve, bsInv steps down sixteen times. *)
Lemma bsInv_ieee_low :
  bsInv NInf (fun x : ieee => Val x) = Val (Fin (/ 2 ^ 17)).
Proof.
  unfold bsInv. rewrite !lit_fin.
  do 16 (rewrite bsLoop_S; cbn [bind]; rewrite half_fin;
         cbn [ltb Ieee.float64 Ieee.lt]; rewrite sub_fin).
  cbn [bsLoop]. f_equal. f_equal. unfold Q2R; simpl; lra.
Qed.

Lemma bsInv_range_witness :
  in_range_b64 (lit (1 # 131072)) = true /\
  (exists x, Fin (/ 2 ^ 17) = Fin x /\ / 2 ^ 17 <= x <= 1 - / 2 ^ 17) /\
  (exists r : float, bsInv (lit 0) (NLP3.Transform NLP3.mk) = Val r) /\
  in_range_b64 (lit (131071 # 131072)) = true.
Proof.
  destruct bsInv_range as (Hb & Hi & Ht & Hp).
  split; [| split; [| split]].
  - apply (Hb (NLP3.Transform NLP3.mk) (lit 0) (lit (1 # 131072))).
    vm_compute. reflexivity.
  - apply (Hi (fun x : ieee => Val x) NInf (Fin (/ 2 ^ 17))).
    apply bsInv_ieee_low.
  - apply (Ht float _ (NLP3.Transform NLP3.mk) (lit 0)).
    intros x. eexists. reflexivity.
  - apply (Hp [] (lit 1) (lit (131071 # 131072))).
    right. left. vm_compute. reflexivity.
Defined.

(** ** The precision of bsInv *)

Lemma bisect_step_panic (F : Type) (FO : Float64 F) (f : F -> res F) (v : F)
  (n : nat) (p : panic) :
  Nat.iter n (bisect_step f v) (Panic p) = Panic p.
Proof. induction n as [| n IH]; simpl; [| rewrite IH]; reflexivity. Qed.

Lemma bsLoop_iter (F : Type) (FO : Float64 F) (f : F -> res F) (v : F)
  (n : nat) :
  forall t s,
    bsLoop f v n t s
    = (ts <- Nat.iter n (bisect_step f v) (Val (t, s)) ;; Val (fst ts)).
Proof.
  induction n as [| n IH]; intros t s.
  - reflexivity.
  - rewrite bsLoop_S, Nat.iter_succ_r.
    unfold bisect_step at 2. cbn [bind fst snd].
    destruct (f t) as [ft | p]; cbn [bind].
    + apply IH.
    + rewrite bisect_step_panic. reflexivity.
Qed.

Lemma bsLoop_converges (g : R -> R) (f : ieee -> res ieee) (x : R) :
  (forall y, 0 <= y <= 1 -> f (Fin y) = Val (Fin (g y))) ->
  (forall y z, 0 <= y <= 1 -> 0 <= z <= 1 -> y < z -> g y < g z) ->
  forall (n : nat) (t s : R),
    0 < s -> 0 <= t - 2 * s -> t + 2 * s <= 1 ->
    t - 2 * s <= x <= t + 2 * s ->
    exists r, bsLoop f (Fin (g x)) n (Fin t) (Fin s) = Val (Fin r)
              /\ Rabs (r - x) <= 2 * s / 2 ^ n.
Proof.
  intros Hf Hg. induction n as [| n IH]; intros t s Hs Hlo Hhi Hx.
  - exists t. split; [reflexivity |].
    simpl. unfold Rabs. destruct (Rcase_abs (t - x)); lra.
  - rewrite bsLoop_S, Hf by lra. cbn [bind].
    rewrite half_fin, sub_fin, add_fin.
    assert (E : 2 * s / 2 ^ S n = 2 * (s / 2) / 2 ^ n)
      by (simpl; field; apply pow_nonzero; lra).
    rewrite E.
    cbn [ltb Ieee.float64 Ieee.lt].
    destruct (Rlt_dec (g x) (g t)) as [Hlt | Hge].
    + assert (Hxt : x <= t).
      { destruct (Rle_dec x t) as [| Hn]; [assumption |].
        assert (g t < g x) by (apply Hg; lra). lra. }
      apply IH; lra.
    + assert (Hxt : t <= x).
      { destruct (Rle_dec t x) as [| Hn]; [assumption |].
        assert (g x < g t) by (apply Hg; lra). lra. }
      apply IH; lra.
Qed.

(** On a strictly increasing curve bsInv is precise to 2^-17. *)
Lemma bsInv_within (g : R -> R) (f : ieee -> res ieee) (t : R) :
  (forall y, 0 <= y <= 1 -> f (Fin y) = Val (Fin (g y))) ->
  (forall y z, 0 <= y <= 1 -> 0 <= z <= 1 -> y < z -> g y < g z) ->
  0 <= t <= 1 ->
  exists r, bsInv (Fin (g t)) f = Val (Fin r) /\ Rabs (r - t) <= / 2 ^ 17.
Proof.
  intros Hf Hg Ht.
  destruct (@bsLoop_converges g f t Hf Hg 16 (1 / 2) (1 / 4)) as (r & Hr & Hb);
    try lra.
  exists r. split.
  - unfold bsInv. rewrite !lit_fin.
    replace (Q2R 0.5) with (1 / 2) by (unfold Q2R; simpl; lra).
    replace (Q2R 0.25) with (1 / 4) by (unfold Q2R; simpl; lra).
    exact Hr.
  - eapply Rle_trans; [exact Hb |]. simpl. lra.
Qed.

(** C5 (amended): bsInv is sixteen bisection steps from t = 0.5 with step
    0.25 (down by the step when Transform(t) > target, up otherwise, the
    step halved each time, no test for convergence), on every model of
    float64; hence, in exact real arithmetic, for a curve that is strictly
    increasing on [0,1] (continuity and the end values are not needed) and
    t in [0,1], bsInv applied to the curve's value at t returns a value
    within 2^-16 of t. *)
Theorem bsInv_precision :
  (forall (F : Type) (FO : Float64 F) (v : F) (f : F -> res F),
     bsInv v f = bisect_spec v f) /\
  (forall (g : R -> R) (f : ieee -> res ieee) (t : R),
     (forall y, 0 <= y <= 1 -> f (Fin y) = Val (Fin (g y))) ->
     (forall y z, 0 <= y <= 1 -> 0 <= z <= 1 -> y < z -> g y < g z) ->
     0 <= t <= 1 ->
     exists r, bsInv (Fin (g t)) f = Val (Fin r) /\ Rabs (r - t) < / 2 ^ 16).
Proof.
  split.
  - intros F FO v f. unfold bsInv, bisect_spec. apply bsLoop_iter.
  - intros g f t Hf Hg Ht.
    destruct (bsInv_within g f Hf Hg Ht) as (r & Hr & Hb).
    exists r. split; [exact Hr |].
    eapply Rle_lt_trans; [exact Hb |].
    apply Rinv_lt_contravar.
    + apply Rmult_lt_0_compat; apply pow_lt; lra.
    + apply Rlt_pow; [lra | lia].
Qed.

Lemma NLP3_Transform_fin (y : R) :
  NLP3.Transform NLP3.mk (Fin y) = Val (Fin (p3 y)).
Proof. unfold NLP3.Transform, p3. fin. fin_eq lra. Qed.

Lemma p3_increasing (y z : R) :
  0 <= y <= 1 -> 0 <= z <= 1 -> y < z -> p3 y < p3 z.
Proof.
  intros Hy Hz Hyz. unfold p3.
  assert (H1 : 0 < z * (3 - 2 * z - y)) by (apply Rmult_lt_0_compat; lra).
  assert (H2 : 0 <= y * (3 - 2 * y - z)) by (apply Rmult_le_pos; lra).
  assert (H3 : 0 < (z - y) * (z * (3 - 2 * z - y) + y * (3 - 2 * y - z)))
    by (apply Rmult_lt_0_compat; lra).
  lra.
Qed.

Lemma bsInv_precision_witness :
  exists r, InvTransform (NLP3.iface NLP3.mk) (Fin (p3 (1 / 3))) = Val (Fin r)
            /\ Rabs (r - 1 / 3) < / 2 ^ 16.
Proof.
  destruct bsInv_precision as [_ H].
  apply (H p3 (NLP3.Transform NLP3.mk) (1 / 3)).
  - intros y _. apply NLP3_Transform_fin.
  - apply p3_increasing.
  - lra.
Defined.

(** ** Lame(2,2) and Circle1 *)

Lemma Rpower_2 (a : R) : 0 < a -> Rpower a 2 = a * a.
Proof.
  intros Ha. replace 2 with (1 + 1) by lra.
  rewrite Rpower_plus, Rpower_1 by assumption. reflexivity.
Qed.

Lemma pow_two (a : R) : 0 <= a -> Pow (Fin a) (lit 2) = Fin (a * a).
Proof.
  intros Ha. rewrite lit_fin.
  replace (Q2R 2) with 2 by (unfold Q2R; simpl; lra).
  cbn [Pow Ieee.math Ieee.pow]. unfold Ieee.pow_fin.
  destruct (Req_dec_T 2 0); [lra |].
  destruct (Req_dec_T a 1) as [-> |]; [f_equal; lra |].
  destruct (Req_dec_T 2 1); [lra |].
  destruct (Req_dec_T a 0) as [-> |].
  - destruct (Rlt_dec 2 0); [lra |]. f_equal; lra.
  - destruct (Req_dec_T 2 (1 / 2)); [lra |].
    destruct (Req_dec_T 2 (- (1 / 2))); [lra |].
    destruct (Rlt_dec 0 a); [| lra].
    rewrite Rpower_2 by assumption. reflexivity.
Qed.

Lemma pow_half (a : R) :
  0 <= a -> Pow (Fin a) (Fin 1 / lit 2)%f64 = Fin (sqrt a).
Proof.
  intros Ha. rewrite !lit_fin, div_fin by (unfold Q2R; simpl; lra).
  replace (1 / Q2R 2) with (1 / 2) by (unfold Q2R; simpl; lra).
  cbn [Pow Ieee.math Ieee.pow].
  destruct (Req_dec_T (1 / 2) 0); [lra |].
  destruct (Req_dec_T a 1) as [-> |]; [rewrite sqrt_1; reflexivity |].
  destruct (Req_dec_T (1 / 2) 1); [lra |].
  destruct (Req_dec_T a 0) as [-> |].
  - destruct (Rlt_dec (1 / 2) 0); [lra |]. rewrite sqrt_0. reflexivity.
  - destruct (Req_dec_T (1 / 2) (1 / 2)); [| lra].
    cbn [Ieee.sqrt]. destruct (Rlt_dec a 0); [lra | reflexivity].
Qed.

(** C8: on [0,1] the Lame curve with exponents 2 and 2 and the curve
    Circle1 have the same Transform, 1 - sqrt(1 - t^2), and the same
    InvTransform, sqrt(1 - (1 - v)^2), exactly over the reals. *)
Theorem Lame22_is_Circle1 (x : R) :
  0 <= x <= 1 ->
  Transform (NLLame.iface (NLLame.New (lit 2) (lit 2))) (Fin x)
  = Transform (NLCircle1.iface NLCircle1.mk) (Fin x) /\
  Transform (NLCircle1.iface NLCircle1.mk) (Fin x)
  = Val (Fin (1 - sqrt (1 - x * x))) /\
  InvTransform (NLLame.iface (NLLame.New (lit 2) (lit 2))) (Fin x)
  = InvTransform (NLCircle1.iface NLCircle1.mk) (Fin x) /\
  InvTransform (NLCircle1.iface NLCircle1.mk) (Fin x)
  = Val (Fin (sqrt (1 - (1 - x) * (1 - x)))).
Proof.
  intros Hx.
  cbn [Transform InvTransform NLLame.iface NLCircle1.iface].
  unfold NLLame.Transform, NLLame.InvTransform, NLCircle1.Transform,
    NLCircle1.InvTransform.
  cbn [NLLame.New NLLame.N NLLame.M NLLame.Odn NLLame.Odm].
  rewrite lit_1. cbn [ltb Ieee.float64 Ieee.lt].
  destruct (Rlt_dec x 1) as [Hlt | Hge].
  - assert (H1 : 0 <= 1 - x * x) by nra.
    assert (H2 : 0 <= 1 - (1 - x) * (1 - x)) by nra.
    rewrite !sub_fin.
    rewrite (@pow_two x), (@pow_two (1 - x)) by lra.
    rewrite !sub_fin.
    rewrite !pow_half by assumption.
    rewrite !mul_fin, !sub_fin.
    replace (1 - (x - 1) * (x - 1)) with (1 - (1 - x) * (1 - x)) by lra.
    rewrite !sqrt_fin by assumption. rewrite !sub_fin.
    repeat split; reflexivity.
  - assert (x = 1) by lra. subst x.
    replace (1 - 1 * 1) with 0 by lra.
    replace (1 - (1 - 1) * (1 - 1)) with 1 by lra.
    rewrite sqrt_0, sqrt_1.
    repeat split; reflexivity || (do 2 f_equal; lra).
Qed.

Lemma Lame22_is_Circle1_witness :
  Transform (NLLame.iface (NLLame.New (lit 2) (lit 2))) (Fin (1 / 2))
  = Transform (NLCircle1.iface NLCircle1.mk) (Fin (1 / 2)) /\
  Transform (NLCircle1.iface NLCircle1.mk) (Fin (1 / 2))
  = Val (Fin (1 - sqrt (1 - 1 / 2 * (1 / 2)))) /\
  InvTransform (NLLame.iface (NLLame.New (lit 2) (lit 2))) (Fin (1 / 2))
  = InvTransform (NLCircle1.iface NLCircle1.mk) (Fin (1 / 2)) /\
  InvTransform (NLCircle1.iface NLCircle1.mk) (Fin (1 / 2))
  = Val (Fin (sqrt (1 - (1 - 1 / 2) * (1 - 1 / 2)))).
Proof. apply (@Lame22_is_Circle1 (1 / 2)). lra. Defined.

(** ** The curves of the package, built with valid parameters *)

Lemma exp_neq_1 (k : R) : k <> 0 -> exp k <> 1.
Proof. intros Hk E. rewrite <- exp_0 in E. apply exp_inv in E. contradiction. Qed.

Lemma ln_neq_0 (x : R) : 0 < x -> x <> 1 -> ln x <> 0.
Proof.
  intros Hx Hn E. rewrite <- ln_1 in E. apply ln_inv in E; [contradiction | lra | lra].
Qed.

Lemma endpoints_Linear : endpoints (NLLinear.iface NLLinear.mk).
Proof. split; reflexivity. Qed.

Lemma endpoints_Square : endpoints (NLSquare.iface NLSquare.mk).
Proof. split; open_curve; fin; fin_eq lra. Qed.

Lemma endpoints_Cube : endpoints (NLCube.iface NLCube.mk).
Proof. split; open_curve; fin; fin_eq lra. Qed.

Lemma endpoints_P3 : endpoints (NLP3.iface NLP3.mk).
Proof. split; open_curve; fin; fin_eq lra. Qed.

Lemma endpoints_P5 : endpoints (NLP5.iface NLP5.mk).
Proof. split; open_curve; fin; fin_eq lra. Qed.

Lemma endpoints_Exponential (k : R) :
  k <> 0 -> endpoints (NLExponential.iface (NLExponential.New (Fin k))).
Proof.
  intros Hk. pose proof (exp_neq_1 Hk) as He.
  split; open_curve;
    cbn [NLExponential.New NLExponential.K NLExponential.Scale]; fin;
    rewrite div_fin by (unfold Q2R; simpl; lra); fin.
  - replace (0 * k) with 0 by lra. rewrite exp_0. fin_eq lra.
  - replace (1 * k) with k by lra. fin_eq ltac:(field; lra).
Qed.

Lemma endpoints_Logarithmic (k : R) :
  k <> 0 -> -1 < k ->
  endpoints (NLLogarithmic.iface (NLLogarithmic.New (Fin k))).
Proof.
  intros Hk Hk1.
  assert (Hl : ln (1 + k) <> 0) by (apply ln_neq_0; lra).
  split; open_curve;
    cbn [NLLogarithmic.New NLLogarithmic.K NLLogarithmic.Scale]; fin;
    rewrite !log1p_fin by lra; rewrite div_fin by assumption; fin.
  - replace (1 + 0 * k) with 1 by lra. rewrite ln_1. fin_eq lra.
  - replace (1 + 1 * k) with (1 + k) by lra. fin_eq ltac:(field; lra).
Qed.

Lemma endpoints_Sin : endpoints (NLSin.iface NLSin.mk).
Proof.
  split; open_curve; fin; rewrite div_fin by (unfold Q2R; simpl; lra).
  - replace ((0 - Q2R 0.5) * PI) with (- (PI / 2)) by (unfold Q2R; simpl; lra).
    rewrite sin_neg, sin_PI2. fin_eq lra.
  - replace ((1 - Q2R 0.5) * PI) with (PI / 2) by (unfold Q2R; simpl; lra).
    rewrite sin_PI2. fin_eq lra.
Qed.

Lemma endpoints_Sin1 : endpoints (NLSin1.iface NLSin1.mk).
Proof.
  split; open_curve; fin; rewrite div_fin by (unfold Q2R; simpl; lra); fin.
  - replace (0 * PI / Q2R 2) with 0 by (unfold Q2R; simpl; lra).
    rewrite sin_0. reflexivity.
  - replace (1 * PI / Q2R 2) with (PI / 2) by (unfold Q2R; simpl; lra).
    rewrite sin_PI2. reflexivity.
Qed.

Lemma endpoints_Sin2 : endpoints (NLSin2.iface NLSin2.mk).
Proof.
  split; open_curve; fin; rewrite div_fin by (unfold Q2R; simpl; lra); fin.
  - replace ((0 - Q2R 1) * PI / Q2R 2) with (- (PI / 2))
      by (unfold Q2R; simpl; lra).
    rewrite sin_neg, sin_PI2. fin_eq lra.
  - replace ((1 - Q2R 1) * PI / Q2R 2) with 0 by (unfold Q2R; simpl; lra).
    rewrite sin_0. fin_eq lra.
Qed.

Lemma endpoints_Circle1 : endpoints (NLCircle1.iface NLCircle1.mk).
Proof.
  split; open_curve; rewrite lit_1.
  - cbn [ltb Ieee.float64]. rewrite lt_fin_true by lra. fin.
    replace (1 - 0 * 0) with 1 by lra.
    rewrite sqrt_fin by lra. rewrite sqrt_1. fin. fin_eq lra.
  - cbn [ltb Ieee.float64]. rewrite lt_fin_false by lra. reflexivity.
Qed.

Lemma endpoints_Circle2 : endpoints (NLCircle2.iface NLCircle2.mk).
Proof.
  split; open_curve; fin.
  - replace (0 * (Q2R 2 - 0)) with 0 by lra.
    rewrite sqrt_fin by lra. rewrite sqrt_0. reflexivity.
  - replace (1 * (Q2R 2 - 1)) with 1 by (unfold Q2R; simpl; lra).
    rewrite sqrt_fin by lra. rewrite sqrt_1. reflexivity.
Qed.

Lemma pow_zero_pos (n : R) : 0 < n -> Pow (Fin 0) (Fin n) = Fin 0.
Proof.
  intros Hn. cbn [Pow Ieee.math Ieee.pow].
  destruct (Req_dec_T n 0); [lra |].
  destruct (Req_dec_T 0 1); [lra |].
  destruct (Req_dec_T n 1); [reflexivity |].
  destruct (Req_dec_T 0 0); [| lra].
  destruct (Rlt_dec n 0); [lra | reflexivity].
Qed.

Lemma pow_one_l (b : R) : Pow (Fin 1) (Fin b) = Fin 1.
Proof.
  cbn [Pow Ieee.math Ieee.pow].
  destruct (Req_dec_T b 0); [reflexivity |].
  destruct (Req_dec_T 1 1); [reflexivity | lra].
Qed.

Lemma endpoints_Lame (n m : R) :
  0 < n -> 0 < m -> endpoints (NLLame.iface (NLLame.New (Fin n) (Fin m))).
Proof.
  intros Hn Hm.
  split; open_curve; cbn [NLLame.New NLLame.N NLLame.Odm]; rewrite lit_1.
  - cbn [ltb Ieee.float64]. rewrite lt_fin_true by lra.
    rewrite pow_zero_pos by assumption. fin.
    replace (1 - 0) with 1 by lra.
    rewrite div_fin by lra. rewrite pow_one_l. fin. fin_eq lra.
  - cbn [ltb Ieee.float64]. rewrite lt_fin_false by lra. reflexivity.
Qed.

Lemma cosh_1_gt_1 : 1 < cosh 1.
Proof.
  unfold cosh. rewrite exp_Ropp.
  assert (He : 1 < exp 1) by (rewrite <- exp_0 at 1; apply exp_increasing; lra).
  assert (Hi : 0 < / exp 1) by (apply Rinv_0_lt_compat; lra).
  assert (Hm : exp 1 * / exp 1 = 1) by (apply Rinv_r; lra).
  nra.
Qed.

Lemma endpoints_Catenary : endpoints (NLCatenary.iface NLCatenary.mk).
Proof.
  pose proof cosh_1_gt_1 as Hc.
  split; open_curve; rewrite lit_1; fin; rewrite div_fin by lra.
  - rewrite cosh_0. fin_eq lra.
  - fin_eq ltac:(field; lra).
Qed.

Lemma endpoints_Gauss (k : R) :
  k <> 0 -> endpoints (NLGauss.iface (NLGauss.New (Fin k))).
Proof.
  intros Hk.
  assert (Hkk : 0 < k * k) by nra.
  assert (Ho : exp (- k * k * Q2R 0.5) <> 1).
  { apply exp_neq_1. unfold Q2R; simpl. lra. }
  split; open_curve;
    cbn [NLGauss.New NLGauss.K NLGauss.Offs NLGauss.Scale]; cbv zeta; fin;
    rewrite div_fin by lra; fin.
  - replace (k * (0 - Q2R 1) * (Q2R (-0.5) * (k * (0 - Q2R 1))))
      with (- k * k * Q2R 0.5) by (unfold Q2R; simpl; lra).
    fin_eq lra.
  - replace (k * (1 - Q2R 1) * (Q2R (-0.5) * (k * (1 - Q2R 1))))
      with 0 by (unfold Q2R; simpl; lra).
    rewrite exp_0. do 2 f_equal.
    replace (Q2R 1) with 1 by (unfold Q2R; simpl; lra).
    field. lra.
Qed.

Lemma logisticTransform_fin (x : R) : logisticTransform (Fin x) = Fin (sigma x).
Proof.
  unfold logisticTransform, sigma. fin.
  pose proof (exp_pos (- x)).
  rewrite div_fin by (unfold Q2R; simpl; lra).
  fin_eq lra.
Qed.

Lemma sigma_inj (a b : R) : sigma a = sigma b -> a = b.
Proof.
  unfold sigma. intros E.
  pose proof (exp_pos (- a)). pose proof (exp_pos (- b)).
  assert (E' : exp (- a) = exp (- b)).
  { apply (f_equal (fun y => 1 / y - 1)) in E.
    replace (1 / (1 / (1 + exp (- a))) - 1) with (exp (- a)) in E by (field; lra).
    replace (1 / (1 / (1 + exp (- b))) - 1) with (exp (- b)) in E by (field; lra).
    exact E. }
  apply exp_inv in E'. lra.
Qed.

Lemma endpoints_Logistic (k mp : R) :
  0 < k -> 0 < mp < 1 ->
  endpoints (NLLogistic.iface (NLLogistic.New (Fin k) (Fin mp))).
Proof.
  intros Hk Hmp.
  assert (Hs : sigma ((Q2R 1 - mp) * k) - sigma (- mp * k) <> 0).
  { intros E. apply Rminus_diag_uniq, sigma_inj in E.
    unfold Q2R in E; simpl in E. nra. }
  split; open_curve;
    cbn [NLLogistic.New NLLogistic.K NLLogistic.Mp NLLogistic.Offs
         NLLogistic.Scale]; cbv zeta; fin;
    rewrite !logisticTransform_fin; fin; rewrite div_fin by assumption; fin.
  - replace ((0 - mp) * k) with (- mp * k) by lra. fin_eq lra.
  - replace (1 - mp) with (Q2R 1 - mp) by (unfold Q2R; simpl; lra).
    set (d := sigma ((Q2R 1 - mp) * k) - sigma (- mp * k)) in *.
    do 2 f_equal. unfold Q2R; simpl. field. assumption.
Qed.

Lemma endpoints_Compound_cons (f : NonLinear ieee) (fs : list (NonLinear ieee)) :
  endpoints f ->
  endpoints (NLCompound.iface (NLCompound.New fs)) ->
  endpoints (NLCompound.iface (NLCompound.New (f :: fs))).
Proof.
  intros [Hf0 Hf1] [Hs0 Hs1].
  split; open_curve; cbn [NLCompound.New NLCompound.Fs NLCompound.range].
  - rewrite Hf0. exact Hs0.
  - rewrite Hf1. exact Hs1.
Qed.

Lemma endpoints_Omt (f : NonLinear ieee) :
  endpoints f -> endpoints (NLOmt.iface (NLOmt.New f)).
Proof.
  intros [Hf0 Hf1].
  split; open_curve; cbn [NLOmt.New NLOmt.F]; cbv zeta;
    rewrite lit_1, lit_0, sub_fin; cbn [ltb Ieee.float64].
  - rewrite lt_fin_true by lra.
    replace (1 - 0) with 1 by lra. rewrite Hf1. cbn [bind]. fin. fin_eq lra.
  - rewrite lt_fin_false by lra. reflexivity.
Qed.

(** *** The stopped curve at its ends *)

Lemma index_nth (A : Type) (s : list A) (i : nat) (a : A) :
  nth_error s i = Some a -> index s (Z.of_nat i) = Val a.
Proof.
  intros E. unfold index.
  destruct (Z.ltb_spec (Z.of_nat i) 0) as [Hneg |]; [lia |].
  rewrite Nat2Z.id, E. reflexivity.
Qed.

Lemma stops_of_nth (l : list (R * R)) (i : nat) (p : R * R) :
  nth_error l i = Some p ->
  index2 (stops_of l) (Z.of_nat i) 0 = Val (Fin (fst p)) /\
  index2 (stops_of l) (Z.of_nat i) 1 = Val (Fin (snd p)).
Proof.
  intros E. unfold index2, stops_of.
  rewrite (@index_nth _ _ i [Fin (fst p); Fin (snd p)]).
  - split; reflexivity.
  - rewrite nth_error_map, E. reflexivity.
Qed.

Lemma stops_of_length (l : list (R * R)) : length (stops_of l) = length l.
Proof. apply length_map. Qed.

(** No stop lies beyond [x]: the scan runs to the end of the list. *)
Lemma scan_to_end (l : list (R * R)) (x : R) :
  Forall (fun p => fst p <= x) l ->
  forall (fuel i : nat), (i + fuel = length l)%nat ->
    NLStopped.scan (stops_of l) (Fin x) fuel (Z.of_nat i)
    = Val (Z.of_nat (length l), lit 0, lit 0).
Proof.
  intros Hall. induction fuel as [| fuel IH]; intros i Hi.
  - simpl. rewrite Nat.add_0_r in Hi. subst i. reflexivity.
  - destruct (nth_error l i) as [p |] eqn:E.
    + rewrite scan_S. destruct (stops_of_nth l i E) as [-> _]. cbn [bind].
      assert (Hp : fst p <= x).
      { rewrite Forall_forall in Hall. apply Hall.
        eapply nth_error_In; eassumption. }
      cbn [ltb Ieee.float64]. rewrite lt_fin_false by assumption.
      replace (Z.of_nat i + 1)%Z with (Z.of_nat (S i)) by lia.
      apply IH. lia.
    + apply nth_error_None in E. lia.
Qed.

Lemma well_formed_inner (l : list (R * R)) :
  well_formed_stops l -> inner_stops l.
Proof.
  intros (Hne & Hin & _). split; [assumption |].
  eapply Forall_impl; [| exact Hin]. simpl. tauto.
Qed.

Lemma endpoints_Stopped (l : list (R * R)) :
  inner_stops l ->
  endpoints (NLStopped.iface (NLStopped.New (stops_of l))).
Proof.
  intros (Hne & Hin).
  split; open_curve; cbn [NLStopped.New NLStopped.Stops];
    rewrite stops_of_length.
  - destruct l as [| p l']; [contradiction |].
    assert (Hp : 0 < fst p < 1) by (inversion Hin; assumption).
    destruct (@stops_of_nth (p :: l') 0 p eq_refl) as [E0 E1].
    change (Z.of_nat 0) with 0%Z in E0, E1.
    cbn [length]. rewrite scan_S, E0. cbn [bind ltb Ieee.float64].
    rewrite lt_fin_true by lra.
    change (0 >? 1)%Z with false. cbv iota. cbn [bind].
    replace (0 =? Z.of_nat (S (length l')))%Z with false
      by (symmetry; apply Z.eqb_neq; lia).
    replace (0 <? Z.of_nat (S (length l')))%Z with true
      by (symmetry; apply Z.ltb_lt; lia).
    cbn [bind]. rewrite E0, E1. cbn [bind]. fin.
    rewrite div_fin by (unfold Q2R; simpl; lra). fin.
    do 2 f_equal. unfold Q2R; simpl. field. lra.
  - rewrite (@scan_to_end l 1) with (i := 0%nat).
    + cbn [bind]. rewrite Z.eqb_refl, Z.ltb_irrefl.
      destruct (nth_error l (length l - 1)) as [p |] eqn:E.
      * assert (Hp : 0 < fst p < 1).
        { rewrite Forall_forall in Hin. apply Hin.
          eapply nth_error_In; eassumption. }
        replace (Z.of_nat (length l) - 1)%Z with (Z.of_nat (length l - 1)).
        -- destruct (stops_of_nth l _ E) as [-> ->]. cbn [bind]. fin.
           rewrite div_fin by (unfold Q2R; simpl; lra). fin.
           do 2 f_equal. unfold Q2R; simpl. field. lra.
        -- destruct l; [contradiction | cbn [length]; lia].
      * apply nth_error_None in E.
        destruct l; [contradiction | cbn [length] in E; lia].
    + eapply Forall_impl; [| exact Hin]. simpl. intros; lra.
    + reflexivity.
Qed.

Lemma endpoints_Compound_nil :
  endpoints (NLCompound.iface (NLCompound.New (@nil (NonLinear ieee)))).
Proof. split; reflexivity. Qed.

(** C3 (as stated, refuted), at five inputs.
    - Over the reals, k <> 0 is not enough for the logarithmic curve: with
      k = -2 the constructor takes Log1p(-2), a NaN, so the scale is NaN and
      Transform is NaN at 0 and at 1.
    - A stop on the line t = 1 (stops (0.5, 0.5), (1, 1), ascending in
      [0,1]): at t = 1 the last segment has length 0 and Transform(1) is
      0/0, a NaN.
    - A stop on the line t = 0 (the one stop (0, 0.25)): Transform(0) is
      0.25.
    - No stop at all: Transform panics.
    - On binary64 no tolerance holds for all valid parameters: math.Exp
      overflows to +Inf at 710, so the exponential curve with k = 710 has
      the scale 1/Inf = 0 and Transform(1) = Inf * 0, a NaN. *)
Lemma endpoints_counterexample :
  (-2 <> 0 /\
   Transform (NLLogarithmic.iface (NLLogarithmic.New (Fin (-2)))) (Fin 0)
   = Val NaN /\
   Transform (NLLogarithmic.iface (NLLogarithmic.New (Fin (-2)))) (Fin 1)
   = Val NaN) /\
  Transform (NLStopped.iface (NLStopped.New stop_at_one_b64)) (lit 1)
  = Val nan /\
  Transform (NLStopped.iface (NLStopped.New stop_at_zero_b64)) (lit 0)
  = Val (lit 0.25) /\
  Transform (NLStopped.iface (NLStopped.New [])) (lit 0 : float)
  = Panic (IndexOutOfRange (-1) 0) /\
  (forall M : Math float,
     Exp (lit 710) = infinity ->
     Transform (NLExponential.iface (NLExponential.New (lit 710))) (lit 1)
     = Val nan).
Proof.
  split; [| split; [| split; [| split]]].
  - assert (E : NLLogarithmic.Scale (NLLogarithmic.New (Fin (-2))) = NaN).
    { cbn [NLLogarithmic.New NLLogarithmic.Scale Log1p Ieee.math Ieee.log1p].
      destruct (Rlt_dec (-2) (-1)); [reflexivity | lra]. }
    split; [lra |].
    split; open_curve; rewrite E, mul_nan_r; reflexivity.
  - vm_compute. reflexivity.
  - vm_compute. reflexivity.
  - vm_compute. reflexivity.
  - intros M HM. open_curve.
    cbn [NLExponential.New NLExponential.K NLExponential.Scale].
    assert (E1 : (lit 1 * lit 710)%f64 = (lit 710 : float))
      by (vm_compute; reflexivity).
    rewrite E1, HM. vm_compute. reflexivity.
Qed.

(** C3 (amended): every curve of the package built with valid parameters
    (k <> 0 for Exponential and Gauss, k <> 0 and k > -1 for Logarithmic,
    k > 0 and 0 < mp < 1 for Logistic, positive exponents for Lame, for
    Stopped a non-empty stop list with every t strictly between 0 and 1,
    valid children for Compound and the reflection) has Transform(0) = 0
    and Transform(1) = 1, exactly over the reals (in exact arithmetic;
    nothing is stated for binary64). *)
Theorem library_curve_endpoints (c : NonLinear ieee) :
  library_curve c ->
  Transform c (Fin 0) = Val (Fin 0) /\ Transform c (Fin 1) = Val (Fin 1).
Proof.
  intros H. change (endpoints c).
  induction H.
  - apply endpoints_Linear.
  - apply endpoints_Square.
  - apply endpoints_Cube.
  - apply endpoints_Exponential; assumption.
  - apply endpoints_Logarithmic; assumption.
  - apply endpoints_Sin.
  - apply endpoints_Sin1.
  - apply endpoints_Sin2.
  - apply endpoints_Circle1.
  - apply endpoints_Circle2.
  - apply endpoints_Lame; assumption.
  - apply endpoints_Catenary.
  - apply endpoints_Gauss; assumption.
  - apply endpoints_Logistic; assumption.
  - apply endpoints_P3.
  - apply endpoints_P5.
  - apply endpoints_Compound_nil.
  - apply endpoints_Compound_cons; assumption.
  - apply endpoints_Omt; assumption.
  - apply endpoints_Stopped; assumption.
Qed.

Lemma library_curve_endpoints_witness :
  Transform (NLOmt.iface (NLOmt.New (NLGauss.iface (NLGauss.New (Fin 3)))))
    (Fin 0) = Val (Fin 0) /\
  Transform (NLOmt.iface (NLOmt.New (NLGauss.iface (NLGauss.New (Fin 3)))))
    (Fin 1) = Val (Fin 1).
Proof.
  apply library_curve_endpoints.
  apply pc_Omt, pc_Gauss. lra.
Defined.

(** ** The stopped curve between its first two stops *)

Lemma two_stops_well_formed : well_formed_stops two_stops.
Proof.
  unfold well_formed_stops, two_stops. split; [discriminate |]. split.
  - repeat constructor; simpl; lra.
  - repeat constructor; simpl; lra.
Qed.

(** Evaluate Transform of a stopped curve on explicit stops. *)
Arguments index2 : simpl never.

Ltac eval_index :=
  repeat match goal with
  | |- context [index2 ?s ?i ?j] =>
      let r := eval cbv - [Rdiv Rmult Rinv Rplus Rminus Ropp IZR] in (index2 s i j) in
      change (index2 s i j) with r
  end.

Ltac eval_stopped :=
  open_curve;
  repeat (progress (eval_index; cbn; unfold Q2R; cbn; split_R));
  do 2 f_equal; field.

(** C2: between the first and the second stop the code does not take the
    first stop as the lower end of the segment: it keeps (0,0), because the
    lower end is only read when the index of the upper stop exceeds 1.  On
    the stops (1/4,1/2), (1/2,3/4) at t = 3/8 Transform gives 9/16, the
    piecewise-linear curve through the stops 5/8. *)
Theorem stopped_transform_first_segment :
  well_formed_stops two_stops /\
  Transform (NLStopped.iface (NLStopped.New (stops_of two_stops))) (Fin (3 / 8))
  = Val (Fin (9 / 16)) /\
  piecewise_linear two_stops (3 / 8) = 5 / 8.
Proof.
  split; [apply two_stops_well_formed |]. split.
  - eval_stopped.
  - unfold piecewise_linear, last_stop_le, first_stop_gt, two_stops.
    repeat (progress (cbn; split_R)).
Qed.

Lemma stopped_transform_first_segment_b64 :
  Transform (NLStopped.iface (NLStopped.New two_stops_b64)) (lit 0.375)
  = Val (lit 0.5625).
Proof. vm_compute. reflexivity. Qed.

(** C4: the stopped curve is not monotonic across its first stop.  Before
    the stop (1/4,1/2) it climbs towards 1/2 (15/32 at t = 15/64); from the
    stop on it restarts on the line from (0,0) to the second stop (3/8 at
    t = 1/4), the lower end of the segment not being read for the upper
    index 1. *)
Theorem stopped_transform_not_monotone :
  well_formed_stops two_stops /\
  15 / 64 < 1 / 4 /\
  Transform (NLStopped.iface (NLStopped.New (stops_of two_stops))) (Fin (15 / 64))
  = Val (Fin (15 / 32)) /\
  Transform (NLStopped.iface (NLStopped.New (stops_of two_stops))) (Fin (1 / 4))
  = Val (Fin (3 / 8)) /\
  3 / 8 < 15 / 32.
Proof.
  split; [apply two_stops_well_formed |]. split; [lra |].
  split; [eval_stopped |]. split; [eval_stopped | lra].
Qed.

Lemma stopped_transform_not_monotone_b64 :
  Transform (NLStopped.iface (NLStopped.New two_stops_b64)) (lit 0.234375)
  = Val (lit 0.46875) /\
  Transform (NLStopped.iface (NLStopped.New two_stops_b64)) (lit 0.25)
  = Val (lit 0.375).
Proof. split; vm_compute; reflexivity. Qed.

(** ** The reflection of a curve *)

(** C1: the reflection of Square is not inverted by its InvTransform.  At
    t = 1/2 Transform gives 3/4, and InvTransform at 3/4 gives
    1 - sqrt(3/4), below 1/4: the receiver's InvTransform is applied to v
    itself (1 - (1 - v)) where the inverse of 1 - f(1 - t) needs 1 - v. *)
Theorem reflected_square_not_inverted :
  Transform (NLOmt.iface (NLOmt.New (NLSquare.iface NLSquare.mk))) (Fin (1 / 2))
  = Val (Fin (3 / 4)) /\
  InvTransform (NLOmt.iface (NLOmt.New (NLSquare.iface NLSquare.mk))) (Fin (3 / 4))
  = Val (Fin (1 - sqrt (3 / 4))) /\
  1 - sqrt (3 / 4) < 1 / 4.
Proof.
  split; [| split].
  - open_curve. cbn [NLOmt.New NLOmt.F]. cbv zeta.
    rewrite lit_1, lit_0, sub_fin. cbn [ltb Ieee.float64].
    rewrite lt_fin_true by lra. open_curve. cbn [bind]. fin. fin_eq lra.
  - open_curve. cbn [NLOmt.New NLOmt.F]. cbv zeta.
    rewrite lit_1, lit_0, !sub_fin. cbn [ltb Ieee.float64].
    rewrite lt_fin_true by lra. open_curve. cbn [bind].
    replace (1 - (1 - 3 / 4)) with (3 / 4) by lra.
    rewrite sqrt_fin by lra. fin. reflexivity.
  - assert (H : sqrt (9 / 16) < sqrt (3 / 4)) by (apply sqrt_lt_1_alt; lra).
    replace (9 / 16) with (3 / 4 * (3 / 4)) in H by lra.
    rewrite sqrt_square in H by lra. lra.
Qed.

(** On binary64, at the t = 0.3 of the package's documentation: the round
    trip ends more than 1e-9 (more than 0.01, even) away from t. *)
Lemma reflected_square_not_inverted_b64 :
  (v <- Transform (NLOmt.iface (NLOmt.New (NLSquare.iface NLSquare.mk)))
         (lit 0.3) ;;
   r <- InvTransform (NLOmt.iface (NLOmt.New (NLSquare.iface NLSquare.mk))) v ;;
   Val (PrimFloat.ltb (lit 0.01) (PrimFloat.abs (r - lit 0.3)%f64)))
  = Val true.
Proof. vm_compute. reflexivity. Qed.

(** For every child curve, the reflection's InvTransform below 1 is one
    minus the child's inverse at v itself. *)
Lemma reflected_inverse_at_v (f : NonLinear ieee) (v : R) :
  v < 1 ->
  InvTransform (NLOmt.iface (NLOmt.New f)) (Fin v)
  = (r <- InvTransform f (Fin v) ;; Val (lit 1 - r)%f64).
Proof.
  intros Hv. open_curve. cbn [NLOmt.New NLOmt.F]. cbv zeta.
  rewrite lit_1, lit_0, !sub_fin. cbn [ltb Ieee.float64].
  rewrite lt_fin_true by lra.
  replace (1 - (1 - v)) with v by lra. reflexivity.
Qed.

(** ** Remarks on the hypotheses *)

(** Strict monotonicity cannot be dropped from the precision of bsInv: on
    the flat stretch the value does not determine the argument, and bsInv
    answers from the end of the stretch (here at least 1/2 for t = 0). *)
Lemma bsInv_flat_curve :
  ramp 0 = 0 /\ ramp 1 = 1 /\
  (forall x y, x <= y -> ramp x <= ramp y) /\
  exists r, bsInv (Fin (ramp 0)) ramp_curve = Val (Fin r) /\ 1 / 2 <= r.
Proof.
  assert (H0 : ramp 0 = 0) by (unfold ramp; rewrite Rmax_left; lra).
  assert (Hh : ramp (1 / 2) = 0) by (unfold ramp; rewrite Rmax_left; lra).
  split; [exact H0 |]. split; [unfold ramp; rewrite Rmax_right; lra |]. split.
  - intros x y Hxy. unfold ramp. apply Rle_max_compat_l. lra.
  - destruct (@bsLoop_total ieee _ ramp_curve (Fin (ramp 0)) 15
                (fun x => match x with
                          | Fin a => ex_intro _ (Fin (ramp a)) eq_refl
                          | _ => ex_intro _ NaN eq_refl
                          end)
                (Fin (3 / 4)) (Fin (1 / 8))) as [r Hr].
    assert (Hpos : 0 < 1 / 8) by lra.
    destruct (bsLoop_range_ieee _ _ _ _ Hpos Hr) as (x & -> & Hx).
    exists x. split.
    + unfold bsInv. rewrite bsLoop_S. rewrite !lit_fin.
      replace (Q2R 0.5) with (1 / 2) by (unfold Q2R; simpl; lra).
      replace (Q2R 0.25) with (1 / 4) by (unfold Q2R; simpl; lra).
      cbn [ramp_curve bind]. rewrite Hh, H0.
      cbn [ltb Ieee.float64]. rewrite lt_fin_false by lra.
      rewrite add_fin, <- lit_fin, half_fin.
      replace (1 / 2 + 1 / 4) with (3 / 4) by lra.
      replace (1 / 4 / 2) with (1 / 8) by lra.
      rewrite H0 in Hr. exact Hr.
    + assert (Hp : 0 < 2 * (1 / 8) / 2 ^ 15).
      { apply Rdiv_lt_0_compat; [lra | apply pow_lt; lra]. }
      unfold Rabs in Hx. destruct (Rcase_abs (x - 3 / 4)); lra.
Qed.

Lemma ramp_continuous : continuity ramp.
Proof.
  assert (Hg : continuity (fun x => (2 * x - 1 + Rabs (2 * x - 1)) / 2)).
  { assert (Hl : continuity (fun x => 2 * x - 1)) by reg.
    pose proof (continuity_comp _ _ Hl Rcontinuity_abs) as Ha.
    pose proof (continuity_plus _ _ Hl Ha) as Hs.
    pose proof (continuity_scal _ (/ 2) Hs) as Hm.
    intros x. apply (continuity_pt_locally_ext _ _ 1 x Rlt_0_1) with (2 := Hm x).
    intros y _. unfold mult_real_fct, plus_fct, comp. lra. }
  intros x. apply (continuity_pt_locally_ext _ _ 1 x Rlt_0_1) with (2 := Hg x).
  intros y _. unfold ramp, Rmax, Rabs.
  destruct (Rle_dec 0 (2 * y - 1)), (Rcase_abs (2 * y - 1)); lra.
Qed.

(** C5 (as stated, refuted), at two inputs.
    - Over the reals, the curve [ramp] is continuous, does not decrease and
      goes from (0,0) to (1,1), and bsInv applied to its value at t = 0
      returns at least 1/2: the curve is flat on [0,1/2].
    - On binary64, for Circle2 applied twice (strictly increasing over the
      reals) and t = 1 - 2^-13, bsInv applied to the curve's value at t
      returns a value more than 2^-16 away from t: rounding flattens the
      curve near 1. *)
Lemma bsInv_precision_counterexample :
  (continuity ramp /\
   (forall x, ramp_curve (Fin x) = Val (Fin (ramp x))) /\
   ramp 0 = 0 /\ ramp 1 = 1 /\
   (forall x y, x <= y -> ramp x <= ramp y) /\
   exists r, bsInv (Fin (ramp 0)) ramp_curve = Val (Fin r) /\
             / 2 ^ 16 < Rabs (r - 0)) /\
  (exists v r : float,
     Transform circles_b64 (lit (8191 # 8192)) = Val v /\
     bsInv v (Transform circles_b64) = Val r /\
     PrimFloat.ltb (lit (1 # 65536)) (PrimFloat.abs (r - lit (8191 # 8192)))
     = true).
Proof.
  split.
  - destruct bsInv_flat_curve as (H0 & H1 & Hm & r & Hr & Hh).
    split; [exact ramp_continuous |]. split; [reflexivity |].
    split; [exact H0 |]. split; [exact H1 |]. split; [exact Hm |].
    exists r. split; [exact Hr |].
    assert (Hp : / 2 ^ 16 < 1 / 2).
    { replace (1 / 2) with (/ 2 ^ 1) by (simpl; lra).
      apply Rinv_lt_contravar; [apply Rmult_lt_0_compat; apply pow_lt; lra |].
      apply Rlt_pow; [lra | lia]. }
    rewrite Rminus_0_r, Rabs_right by lra. lra.
  - eexists. eexists. split; [vm_compute; reflexivity |].
    split; vm_compute; reflexivity.
Qed.

(** The inverse of the Gauss curve takes the positive square root, so it
    inverts Transform for k > 0 only: with k = -1 the round trip from
    t = 1/2 ends at 3/2. *)
Lemma Gauss_negative_k_not_inverted :
  exists v, Transform (NLGauss.iface (NLGauss.New (Fin (-1)))) (Fin (1 / 2))
            = Val (Fin v)
            /\ InvTransform (NLGauss.iface (NLGauss.New (Fin (-1)))) (Fin v)
               = Val (Fin (3 / 2)).
Proof.
  assert (Ho : exp (- -1 * -1 * Q2R 0.5) <> 1).
  { apply exp_neq_1. unfold Q2R; simpl. lra. }
  set (o := exp (- -1 * -1 * Q2R 0.5)) in *.
  exists ((exp (- (1 / 8)) - o) * (Q2R 1 / (Q2R 1 - o))).
  assert (Hq : Q2R 1 - o <> 0) by (unfold Q2R; simpl; lra).
  split; open_curve;
    cbn [NLGauss.New NLGauss.K NLGauss.Offs NLGauss.Scale]; cbv zeta; fin;
    fold o; rewrite div_fin by assumption; fin.
  - match goal with
    | |- context [exp ?a - o] =>
        replace a with (- (1 / 8)) by (unfold Q2R; simpl; lra)
    end.
    reflexivity.
  - assert (Hs : Q2R 1 / (Q2R 1 - o) <> 0).
    { unfold Rdiv. apply Rmult_integral_contrapositive_currified.
      - unfold Q2R; simpl; lra.
      - apply Rinv_neq_0_compat. assumption. }
    rewrite div_fin by assumption. fin.
    replace ((exp (- (1 / 8)) - o) * (Q2R 1 / (Q2R 1 - o))
             / (Q2R 1 / (Q2R 1 - o)) + o)
      with (exp (- (1 / 8))) by (field; split; [| unfold Q2R; simpl]; lra).
    pose proof (exp_pos (- (1 / 8))) as Hp.
    cbn [Log Ieee.math Ieee.log].
    destruct (Rlt_dec (exp (- (1 / 8))) 0); [lra |].
    destruct (Req_dec_T (exp (- (1 / 8))) 0); [lra |].
    rewrite ln_exp. fin.
    replace (- (1 / 8) * Q2R (-2)) with (1 / 2 * (1 / 2))
      by (unfold Q2R; simpl; lra).
    rewrite sqrt_fin by lra. rewrite sqrt_square by lra.
    rewrite div_fin by lra. fin. fin_eq lra.
Qed.

(** ** The stopped curve away from its first segment *)

(** The stops up to [x] and the stops from the first one beyond [x]. *)
Lemma stops_split (l : list (R * R)) (x : R) :
  exists pre post,
    l = pre ++ post /\
    Forall (fun q => fst q <= x) pre /\
    match post with
    | [] => True
    | p :: _ => x < fst p
    end.
Proof.
  induction l as [| q l IH].
  - exists [], []. repeat split. constructor.
  - destruct (Rlt_dec x (fst q)) as [Hlt | Hge].
    + exists [], (q :: l). repeat split; [constructor | assumption].
    + destruct IH as (pre & post & -> & Hpre & Hpost).
      exists (q :: pre), post. repeat split.
      * constructor; [lra | assumption].
      * assumption.
Qed.

(** The scan stops at the first stop beyond [x]; it reads the stop before
    it only when that one has an index above 0. *)
Lemma scan_stops_at (pre post : list (R * R)) (p : R * R) (x : R) :
  Forall (fun q => fst q <= x) pre ->
  x < fst p ->
  forall (fuel i : nat),
    (i + fuel = length (pre ++ p :: post))%nat -> (i <= length pre)%nat ->
    NLStopped.scan (stops_of (pre ++ p :: post)) (Fin x) fuel (Z.of_nat i)
    = if (Z.of_nat (length pre) >? 1)%Z then
        t0 <- index2 (stops_of (pre ++ p :: post))
                (Z.of_nat (length pre) - 1) 0 ;;
        v0 <- index2 (stops_of (pre ++ p :: post))
                (Z.of_nat (length pre) - 1) 1 ;;
        Val (Z.of_nat (length pre), t0, v0)
      else Val (Z.of_nat (length pre), lit 0, lit 0).
Proof.
  intros Hpre Hp. induction fuel as [| fuel IH]; intros i Hi Hle.
  - rewrite length_app in Hi. cbn [length] in Hi. lia.
  - rewrite scan_S.
    destruct (Nat.eq_dec i (length pre)) as [-> | Hne].
    + assert (E : nth_error (pre ++ p :: post) (length pre) = Some p).
      { rewrite nth_error_app2, Nat.sub_diag by lia. reflexivity. }
      destruct (stops_of_nth _ _ E) as [-> _]. cbn [bind ltb Ieee.float64].
      rewrite lt_fin_true by assumption. reflexivity.
    + assert (Hlt : (i < length pre)%nat) by lia.
      destruct (nth_error pre i) as [q |] eqn:Eq;
        [| apply nth_error_None in Eq; lia].
      assert (E : nth_error (pre ++ p :: post) i = Some q).
      { rewrite nth_error_app1 by assumption. assumption. }
      destruct (stops_of_nth _ _ E) as [-> _]. cbn [bind ltb Ieee.float64].
      assert (Hq : fst q <= x).
      { rewrite Forall_forall in Hpre. apply Hpre.
        eapply nth_error_In; eassumption. }
      rewrite lt_fin_false by assumption.
      replace (Z.of_nat i + 1)%Z with (Z.of_nat (S i)) by lia.
      apply IH; lia.
Qed.

Lemma last_stop_le_app (pre post : list (R * R)) (x : R) (d : R * R) :
  Forall (fun q => x < fst q) post ->
  fold_left (fun acc p => if Rle_dec (fst p) x then p else acc) (pre ++ post) d
  = fold_left (fun acc p => if Rle_dec (fst p) x then p else acc) pre d.
Proof.
  intros Hpost. rewrite fold_left_app.
  generalize (fold_left (fun acc p => if Rle_dec (fst p) x then p else acc) pre d).
  induction Hpost as [| q post Hq _ IH]; intros a; cbn [fold_left].
  - reflexivity.
  - destruct (Rle_dec (fst q) x); [lra | apply IH].
Qed.

Lemma last_cons_default (A : Type) (l : list A) (a d d' : A) :
  last (a :: l) d = last (a :: l) d'.
Proof.
  revert a. induction l as [| b l IH]; intros a; [reflexivity |].
  change (last (b :: l) d = last (b :: l) d'). apply IH.
Qed.

Lemma last_stop_le_all (pre : list (R * R)) (x : R) (d : R * R) :
  Forall (fun q => fst q <= x) pre ->
  fold_left (fun acc p => if Rle_dec (fst p) x then p else acc) pre d
  = last pre d.
Proof.
  intros Hpre. revert d.
  induction Hpre as [| q pre Hq _ IH]; intros d; cbn [fold_left].
  - reflexivity.
  - destruct (Rle_dec (fst q) x); [| lra].
    rewrite IH. destruct pre as [| p pre]; [reflexivity |].
    change (last (p :: pre) q = last (p :: pre) d). apply last_cons_default.
Qed.

Lemma first_stop_gt_app (pre post : list (R * R)) (x : R) :
  Forall (fun q => fst q <= x) pre ->
  first_stop_gt (pre ++ post) x = first_stop_gt post x.
Proof.
  intros Hpre. unfold first_stop_gt.
  induction Hpre as [| q pre Hq _ IH]; cbn [app find].
  - reflexivity.
  - destruct (Rlt_dec x (fst q)); [lra | exact IH].
Qed.

Lemma sorted_suffix (R0 : R * R -> R * R -> Prop) (pre post : list (R * R)) :
  StronglySorted R0 (pre ++ post) -> StronglySorted R0 post.
Proof.
  induction pre as [| q pre IH]; intros H; [exact H |].
  apply IH. apply StronglySorted_inv in H. tauto.
Qed.

Lemma nth_error_last (A : Type) (pre post : list A) (d : A) :
  pre <> [] ->
  nth_error (pre ++ post) (length pre - 1) = Some (last pre d).
Proof.
  intros Hne.
  destruct (exists_last Hne) as (pre' & a & ->).
  rewrite last_last, length_app. cbn [length].
  replace (length pre' + 1 - 1)%nat with (length pre') by lia.
  rewrite <- app_assoc. rewrite nth_error_app2, Nat.sub_diag by lia.
  reflexivity.
Qed.

(** What Transform computes from the segment it has found. *)
Lemma blend_fin (x t0 v0 t1 v1 : R) :
  t1 - t0 <> 0 ->
  ((lit 1 - (Fin x - Fin t0) / (Fin t1 - Fin t0)) * Fin v0
   + (Fin x - Fin t0) / (Fin t1 - Fin t0) * Fin v1)%f64
  = Fin ((1 - (x - t0) / (t1 - t0)) * v0 + (x - t0) / (t1 - t0) * v1).
Proof.
  intros Hd. fin. rewrite div_fin by assumption. fin.
  f_equal. unfold Q2R; simpl. lra.
Qed.

(** X4: on well-formed stops and for t in [0,1] that is not between the
    first and the second stop, Transform of the stopped curve is the
    piecewise-linear curve through (0,0), the stops and (1,1). *)
Lemma stopped_transform_elsewhere (l : list (R * R)) (x : R) :
  well_formed_stops l ->
  0 <= x <= 1 ->
  (forall p q rest, l = p :: q :: rest -> x < fst p \/ fst q <= x) ->
  Transform (NLStopped.iface (NLStopped.New (stops_of l))) (Fin x)
  = Val (Fin (piecewise_linear l x)).
Proof.
  intros (Hne & Hin & Hsort) Hx Hseg.
  destruct (stops_split l x) as (pre & post & -> & Hpre & Hpost).
  open_curve. cbn [NLStopped.New NLStopped.Stops].
  rewrite stops_of_length.
  unfold piecewise_linear, last_stop_le.
  destruct post as [| p post].
  - (* every stop is at or before x *)
    rewrite app_nil_r in *.
    pose proof (@scan_to_end pre x Hpre (length pre) 0%nat eq_refl) as Hs.
    change (Z.of_nat 0) with 0%Z in Hs. rewrite Hs. clear Hs.
    cbn [bind]. rewrite Z.eqb_refl, Z.ltb_irrefl.
    rewrite (last_stop_le_all (0, 0) Hpre).
    pose proof (first_stop_gt_app [] Hpre) as Hf. rewrite app_nil_r in Hf.
    rewrite Hf. clear Hf. unfold first_stop_gt. cbn [find].
    pose proof (nth_error_last [] (0, 0) Hne) as E. rewrite app_nil_r in E.
    assert (Hl : 0 < fst (last pre (0, 0)) < 1).
    { rewrite Forall_forall in Hin. apply Hin.
      eapply nth_error_In; eassumption. }
    replace (Z.of_nat (length pre) - 1)%Z with (Z.of_nat (length pre - 1))
      by (destruct pre; [contradiction | cbn [length]; lia]).
    destruct (stops_of_nth _ _ E) as [-> ->]. cbn [bind].
    destruct (last pre (0, 0)) as [t0 v0]. cbn [fst snd] in *.
    rewrite !lit_1. rewrite <- lit_1 at 1.
    rewrite blend_fin by lra. reflexivity.
  - (* p is the first stop beyond x *)
    pose proof (@scan_stops_at pre post p x Hpre Hpost
                  (length (pre ++ p :: post)) 0%nat eq_refl (Nat.le_0_l _)) as Hs.
    change (Z.of_nat 0) with 0%Z in Hs. rewrite Hs. clear Hs.
    assert (Hpost' : Forall (fun q => x < fst q) (p :: post)).
    { apply sorted_suffix in Hsort. apply StronglySorted_inv in Hsort.
      destruct Hsort as [_ Hall]. constructor; [assumption |].
      eapply Forall_impl; [| exact Hall]. cbn. intros q [Hq _]. lra. }
    rewrite (last_stop_le_app pre (0, 0) Hpost').
    rewrite (last_stop_le_all (0, 0) Hpre).
    rewrite (first_stop_gt_app (p :: post) Hpre).
    unfold first_stop_gt. cbn [find].
    destruct (Rlt_dec x (fst p)) as [_ | Hn]; [| contradiction].
    assert (Ep : nth_error (pre ++ p :: post) (length pre) = Some p).
    { rewrite nth_error_app2, Nat.sub_diag by lia. reflexivity. }
    assert (Hlen : (Z.of_nat (length pre)
                    <? Z.of_nat (length (pre ++ p :: post)))%Z = true).
    { apply Z.ltb_lt. rewrite length_app. cbn [length]. lia. }
    assert (Hneq : (Z.of_nat (length pre)
                    =? Z.of_nat (length (pre ++ p :: post)))%Z = false).
    { apply Z.eqb_neq. rewrite length_app. cbn [length]. lia. }
    destruct pre as [| q0 pre].
    + (* below the first stop *)
      cbn [length app last]. change (Z.of_nat 0 >? 1)%Z with false. cbv iota.
      cbn [bind]. cbn [length app] in Hneq, Hlen, Ep.
      rewrite Hneq, Hlen. cbn [bind].
      destruct (stops_of_nth _ _ Ep) as [-> ->]. cbn [bind].
      destruct p as [t1 v1]. cbn [fst snd] in *.
      rewrite lit_0. rewrite blend_fin by lra. reflexivity.
    + destruct pre as [| q1 pre].
      * (* between the first and the second stop: excluded *)
        exfalso. destruct (Hseg q0 p post eq_refl) as [H | H].
        -- inversion Hpre; subst. lra.
        -- lra.
      * (* beyond the second stop *)
        set (pre' := q0 :: q1 :: pre) in *.
        assert (Hk : (Z.of_nat (length pre') >? 1)%Z = true).
        { apply Z.gtb_lt. unfold pre'. cbn [length]. lia. }
        rewrite Hk.
        assert (Hne' : pre' <> []) by discriminate.
        pose proof (nth_error_last (p :: post) (0, 0) Hne') as E.
        assert (Hl : fst (last pre' (0, 0)) <= x).
        { rewrite Forall_forall in Hpre. apply Hpre.
          destruct (exists_last Hne') as (pp & a & Ea). rewrite Ea.
          rewrite last_last. apply in_or_app. right. left. reflexivity. }
        replace (Z.of_nat (length pre') - 1)%Z with (Z.of_nat (length pre' - 1))
          by (unfold pre'; cbn [length]; lia).
        destruct (stops_of_nth _ _ E) as [-> ->]. cbn [bind].
        rewrite Hneq, Hlen. cbn [bind].
        destruct (stops_of_nth _ _ Ep) as [-> ->]. cbn [bind].
        destruct (last pre' (0, 0)) as [t0 v0].
        destruct p as [t1 v1]. cbn [fst snd] in *.
        rewrite blend_fin by lra. reflexivity.
Qed.

(** ** The round trip through the closed-form curves *)

Lemma round_trip_Linear (t : R) : round_trip (NLLinear.iface NLLinear.mk) t.
Proof. reflexivity. Qed.

Lemma round_trip_Square (t : R) :
  0 <= t <= 1 -> round_trip (NLSquare.iface NLSquare.mk) t.
Proof.
  intros Ht. unfold round_trip. open_curve. cbn [bind]. fin.
  rewrite sqrt_fin by nra. rewrite sqrt_square by lra. reflexivity.
Qed.

Lemma Rpower_3 (a : R) : 0 < a -> Rpower a 3 = a * a * a.
Proof.
  intros Ha. replace 3 with (1 + 1 + 1) by lra.
  rewrite !Rpower_plus, Rpower_1 by assumption. reflexivity.
Qed.

Lemma pow_third (t : R) :
  0 <= t <= 1 -> Pow (Fin (t * t * t)) (lit (1 # 3)) = Fin t.
Proof.
  intros Ht. rewrite lit_fin.
  replace (Q2R (1 # 3)) with (/ 3) by (unfold Q2R; simpl; lra).
  cbn [Pow Ieee.math Ieee.pow]. unfold Ieee.pow_fin.
  destruct (Req_dec_T (/ 3) 0); [lra |].
  destruct (Req_dec_T (t * t * t) 1) as [E1 |].
  { f_equal. nra. }
  destruct (Req_dec_T (/ 3) 1); [lra |].
  destruct (Req_dec_T (t * t * t) 0) as [E0 |].
  { destruct (Rlt_dec (/ 3) 0); [lra |]. f_equal.
    destruct (Rmult_integral _ _ E0) as [H | H];
      [destruct (Rmult_integral _ _ H) |]; lra. }
  destruct (Req_dec_T (/ 3) (1 / 2)); [lra |].
  destruct (Req_dec_T (/ 3) (- (1 / 2))); [lra |].
  assert (H0 : 0 < t).
  { destruct (Req_dec_T t 0) as [-> |]; [| lra]. exfalso. lra. }
  destruct (Rlt_dec 0 (t * t * t)); [| nra].
  rewrite <- Rpower_3, Rpower_mult by assumption.
  replace (3 * / 3) with 1 by lra. rewrite Rpower_1 by assumption.
  reflexivity.
Qed.

Lemma round_trip_Cube (t : R) :
  0 <= t <= 1 -> round_trip (NLCube.iface NLCube.mk) t.
Proof.
  intros Ht. unfold round_trip. open_curve. cbn [bind]. fin.
  rewrite <- lit_fin, pow_third by assumption. reflexivity.
Qed.

Lemma round_trip_Exponential (k t : R) :
  k <> 0 ->
  round_trip (NLExponential.iface (NLExponential.New (Fin k))) t.
Proof.
  intros Hk. pose proof (exp_neq_1 Hk) as He.
  assert (Hd : exp k - Q2R 1 <> 0) by (unfold Q2R; simpl; lra).
  assert (Hs : Q2R 1 / (exp k - Q2R 1) <> 0).
  { unfold Rdiv. apply Rmult_integral_contrapositive_currified.
    - unfold Q2R; simpl; lra.
    - apply Rinv_neq_0_compat. assumption. }
  unfold round_trip. open_curve.
  cbn [NLExponential.New NLExponential.K NLExponential.Scale bind]. fin.
  rewrite div_fin by assumption. fin. rewrite div_fin by assumption.
  replace ((exp (t * k) - Q2R 1) * (Q2R 1 / (exp k - Q2R 1))
           / (Q2R 1 / (exp k - Q2R 1)))
    with (exp (t * k) - 1)
    by (unfold Q2R in *; simpl in *; field; repeat split; lra).
  pose proof (exp_pos (t * k)).
  rewrite log1p_fin by lra.
  replace (1 + (exp (t * k) - 1)) with (exp (t * k)) by lra.
  rewrite ln_exp, div_fin by assumption. fin_eq ltac:(field; assumption).
Qed.

Lemma round_trip_Logarithmic (k t : R) :
  k <> 0 -> -1 < k -> 0 <= t <= 1 ->
  round_trip (NLLogarithmic.iface (NLLogarithmic.New (Fin k))) t.
Proof.
  intros Hk Hk1 Ht.
  assert (Hl : ln (1 + k) <> 0) by (apply ln_neq_0; lra).
  assert (Hs : Q2R 1 / ln (1 + k) <> 0).
  { unfold Rdiv. apply Rmult_integral_contrapositive_currified.
    - unfold Q2R; simpl; lra.
    - apply Rinv_neq_0_compat. assumption. }
  assert (Htk : -1 < t * k) by nra.
  unfold round_trip. open_curve.
  cbn [NLLogarithmic.New NLLogarithmic.K NLLogarithmic.Scale bind]. fin.
  rewrite !log1p_fin by lra. rewrite div_fin by assumption. fin.
  rewrite div_fin by assumption.
  replace (ln (1 + t * k) * (Q2R 1 / ln (1 + k)) / (Q2R 1 / ln (1 + k)))
    with (ln (1 + t * k))
    by (unfold Q2R in *; simpl in *; field; repeat split; lra).
  fin. rewrite exp_ln by lra. rewrite div_fin by assumption.
  fin_eq ltac:(field; assumption).
Qed.

Lemma round_trip_Sin (t : R) :
  0 <= t <= 1 -> round_trip (NLSin.iface NLSin.mk) t.
Proof.
  intros Ht. pose proof PI_RGT_0 as Hpi.
  unfold round_trip. open_curve. cbn [bind]. fin.
  rewrite div_fin by (unfold Q2R; simpl; lra). fin.
  replace ((sin ((t - Q2R 0.5) * PI) + Q2R 1) / Q2R 2 * Q2R 2 - Q2R 1)
    with (sin ((t - 1 / 2) * PI)).
  2: { replace (Q2R 0.5) with (1 / 2) by (unfold Q2R; simpl; lra).
       unfold Q2R; simpl. field. }
  rewrite asin_fin by apply SIN_bound.
  rewrite asin_sin by (split; nra).
  rewrite div_fin by lra. fin. fin_eq ltac:(field; lra).
Qed.

Lemma round_trip_Sin1 (t : R) :
  0 <= t <= 1 -> round_trip (NLSin1.iface NLSin1.mk) t.
Proof.
  intros Ht. pose proof PI_RGT_0 as Hpi.
  unfold round_trip. open_curve. cbn [bind]. fin.
  rewrite div_fin by (unfold Q2R; simpl; lra). fin.
  rewrite asin_fin by apply SIN_bound.
  replace (t * PI / Q2R 2) with (t * (PI / 2)) by (unfold Q2R; simpl; lra).
  rewrite asin_sin by (split; nra).
  rewrite div_fin by lra. fin. fin_eq ltac:(field; lra).
Qed.

Lemma round_trip_Sin2 (t : R) :
  0 <= t <= 1 -> round_trip (NLSin2.iface NLSin2.mk) t.
Proof.
  intros Ht. pose proof PI_RGT_0 as Hpi.
  unfold round_trip. open_curve. cbn [bind]. fin.
  rewrite div_fin by (unfold Q2R; simpl; lra). fin.
  replace (sin ((t - Q2R 1) * PI / Q2R 2) + Q2R 1 - Q2R 1)
    with (sin ((t - 1) * (PI / 2))).
  2: { replace ((t - Q2R 1) * PI / Q2R 2) with ((t - 1) * (PI / 2))
         by (unfold Q2R; simpl; lra). lra. }
  rewrite asin_fin by apply SIN_bound.
  rewrite asin_sin by (split; nra).
  fin. rewrite div_fin by lra. fin. fin_eq ltac:(field; lra).
Qed.

Lemma round_trip_Circle1 (t : R) :
  0 <= t <= 1 -> round_trip (NLCircle1.iface NLCircle1.mk) t.
Proof.
  intros Ht. unfold round_trip. open_curve. rewrite lit_1.
  cbn [ltb Ieee.float64].
  destruct (Rlt_dec t 1) as [Hlt | Hge].
  - rewrite lt_fin_true by assumption. cbn [bind]. fin.
    assert (Hp : 0 < 1 - t * t) by nra.
    rewrite sqrt_fin by lra. fin.
    pose proof (sqrt_lt_R0 _ Hp) as Hs.
    cbn [ltb Ieee.float64]. rewrite lt_fin_true by lra. fin.
    replace (1 - (1 - sqrt (1 - t * t) - 1) * (1 - sqrt (1 - t * t) - 1))
      with (1 - sqrt (1 - t * t) * sqrt (1 - t * t)) by lra.
    rewrite sqrt_sqrt by lra.
    replace (1 - (1 - t * t)) with (t * t) by lra.
    rewrite sqrt_fin by nra. rewrite sqrt_square by lra. reflexivity.
  - rewrite lt_fin_false by lra. cbn [bind ltb Ieee.float64].
    rewrite lt_fin_false by lra. f_equal. f_equal. lra.
Qed.

Lemma round_trip_Circle2 (t : R) :
  0 <= t <= 1 -> round_trip (NLCircle2.iface NLCircle2.mk) t.
Proof.
  intros Ht. unfold round_trip. open_curve. cbn [bind]. fin.
  replace (Q2R 2) with 2 by (unfold Q2R; simpl; lra).
  replace (Q2R 1) with 1 by (unfold Q2R; simpl; lra).
  assert (Hp : 0 <= t * (2 - t)) by nra.
  rewrite sqrt_fin by assumption. fin. rewrite sqrt_sqrt by assumption.
  replace (1 - t * (2 - t)) with ((1 - t) * (1 - t)) by lra.
  rewrite sqrt_fin by nra. rewrite sqrt_square by lra. fin. fin_eq lra.
Qed.

Lemma Rpower_1_l (b : R) : Rpower 1 b = 1.
Proof. unfold Rpower. rewrite ln_1, Rmult_0_r. apply exp_0. Qed.

Lemma Rpower_pos (a b : R) : 0 < Rpower a b.
Proof. unfold Rpower. apply exp_pos. Qed.

Lemma Rpower_lt_1 (a b : R) : 0 < a < 1 -> 0 < b -> Rpower a b < 1.
Proof.
  intros Ha Hb. unfold Rpower. rewrite <- exp_0. apply exp_increasing.
  assert (Hl : ln a < 0) by (rewrite <- ln_1; apply ln_increasing; lra).
  nra.
Qed.

Lemma Rpower_inv_exp (a b : R) : 0 < a -> b <> 0 -> Rpower (Rpower a b) (1 / b) = a.
Proof.
  intros Ha Hb. rewrite Rpower_mult.
  replace (b * (1 / b)) with 1 by (field; assumption).
  apply Rpower_1. assumption.
Qed.

Lemma Rpower_exp_inv (a b : R) : 0 < a -> b <> 0 -> Rpower (Rpower a (1 / b)) b = a.
Proof.
  intros Ha Hb. rewrite Rpower_mult.
  replace (1 / b * b) with 1 by (field; assumption).
  apply Rpower_1. assumption.
Qed.

(** math.Pow on a non-negative base and a positive exponent. *)
Lemma pow_rpow (a b : R) : 0 <= a -> 0 < b -> Pow (Fin a) (Fin b) = Fin (rpow a b).
Proof.
  intros Ha Hb. unfold rpow. cbn [Pow Ieee.math Ieee.pow]. unfold Ieee.pow_fin.
  destruct (Req_dec_T b 0); [lra |].
  destruct (Req_dec_T a 1) as [-> |].
  { destruct (Req_dec_T 1 0); [lra |]. rewrite Rpower_1_l. reflexivity. }
  destruct (Req_dec_T b 1) as [-> |].
  { destruct (Req_dec_T a 0) as [-> |]; [reflexivity |].
    rewrite Rpower_1 by lra. reflexivity. }
  destruct (Req_dec_T a 0) as [-> |].
  { destruct (Rlt_dec b 0); [lra | reflexivity]. }
  destruct (Req_dec_T b (1 / 2)) as [-> |].
  { cbn [Ieee.sqrt]. destruct (Rlt_dec a 0); [lra |].
    replace (1 / 2) with (/ 2) by lra. rewrite Rpower_sqrt by lra.
    reflexivity. }
  destruct (Req_dec_T b (- (1 / 2))); [lra |].
  destruct (Rlt_dec 0 a); [reflexivity | lra].
Qed.

Lemma round_trip_Lame (n m t : R) :
  0 < n -> 0 < m -> 0 <= t <= 1 ->
  round_trip (NLLame.iface (NLLame.New (Fin n) (Fin m))) t.
Proof.
  intros Hn Hm Ht.
  assert (Hin : 0 < 1 / n) by (apply Rdiv_lt_0_compat; lra).
  assert (Him : 0 < 1 / m) by (apply Rdiv_lt_0_compat; lra).
  unfold round_trip. open_curve.
  cbn [NLLame.New NLLame.N NLLame.M NLLame.Odn NLLame.Odm]. rewrite lit_1.
  rewrite !div_fin by lra.
  cbn [ltb Ieee.float64].
  destruct (Rlt_dec t 1) as [Hlt | Hge].
  - rewrite lt_fin_true by assumption. cbv zeta.
    rewrite pow_rpow by lra. rewrite sub_fin.
    (* x = t^n lies in [0,1) *)
    assert (Hx : 0 <= rpow t n < 1
                 /\ rpow (rpow t n) (1 / n) = t).
    { unfold rpow. destruct (Req_dec_T t 0) as [-> | Hne].
      - destruct (Req_dec_T 0 0); [| lra]. split; [lra | reflexivity].
      - pose proof (Rpower_pos t n). pose proof (@Rpower_lt_1 t n).
        destruct (Req_dec_T (Rpower t n) 0); [lra |].
        split; [lra | apply Rpower_inv_exp; lra]. }
    destruct Hx as [Hx Hxinv]. set (x := rpow t n) in *.
    rewrite pow_rpow by lra. rewrite sub_fin. cbn [bind].
    (* y = (1 - x)^(1/m) lies in (0,1] *)
    assert (Hy : 0 < rpow (1 - x) (1 / m) /\ rpow (rpow (1 - x) (1 / m)) m = 1 - x).
    { unfold rpow. destruct (Req_dec_T (1 - x) 0); [lra |].
      pose proof (Rpower_pos (1 - x) (1 / m)).
      destruct (Req_dec_T (Rpower (1 - x) (1 / m)) 0); [lra |].
      split; [assumption | apply Rpower_exp_inv; lra]. }
    destruct Hy as [Hy Hyinv]. set (y := rpow (1 - x) (1 / m)) in *.
    cbn [ltb Ieee.float64]. rewrite lt_fin_true by lra. rewrite !sub_fin.
    replace (1 - (1 - y)) with y by lra.
    rewrite pow_rpow by lra. rewrite Hyinv, sub_fin.
    replace (1 - (1 - x)) with x by lra.
    rewrite pow_rpow by lra. rewrite Hxinv. reflexivity.
  - rewrite lt_fin_false by lra. cbn [bind ltb Ieee.float64].
    rewrite lt_fin_false by lra. do 2 f_equal. lra.
Qed.

Lemma cosh_sinh_exp (t : R) : cosh t + sinh t = exp t.
Proof. unfold cosh, sinh. lra. Qed.

Lemma cosh2_sinh2 (t : R) : cosh t * cosh t - 1 = sinh t * sinh t.
Proof.
  unfold cosh, sinh.
  assert (E : exp t * exp (- t) = 1) by (rewrite <- exp_plus, Rplus_opp_r; apply exp_0).
  nra.
Qed.

Lemma sinh_nonneg (t : R) : 0 <= t -> 0 <= sinh t.
Proof.
  intros Ht. destruct (Req_dec_T t 0) as [-> |].
  - rewrite sinh_0. lra.
  - rewrite <- sinh_0. left. apply sinh_lt. lra.
Qed.

Lemma cosh_ge_1 (t : R) : 1 <= cosh t.
Proof.
  unfold cosh. pose proof (exp_pos t) as Hp. pose proof (exp_pos (- t)) as Hn.
  assert (E : exp t * exp (- t) = 1) by (rewrite <- exp_plus, Rplus_opp_r; apply exp_0).
  assert (E2 : exp t * exp t * exp (- t) = exp t) by (rewrite Rmult_assoc, E; lra).
  assert (Hsq : 0 <= (exp t - 1) * (exp t - 1) * exp (- t)).
  { apply Rmult_le_pos; [apply Rle_0_sqr | lra]. }
  lra.
Qed.

Lemma acosh_cosh (t : R) : 0 <= t -> Acosh (Fin (cosh t)) = Fin t.
Proof.
  intros Ht. cbn [Acosh Ieee.math Ieee.acosh].
  pose proof (cosh_ge_1 t). destruct (Rlt_dec (cosh t) 1); [lra |].
  rewrite cosh2_sinh2, sqrt_square by (apply sinh_nonneg; assumption).
  rewrite cosh_sinh_exp, ln_exp. reflexivity.
Qed.

Lemma round_trip_Catenary (t : R) :
  0 <= t <= 1 -> round_trip (NLCatenary.iface NLCatenary.mk) t.
Proof.
  intros Ht. pose proof cosh_1_gt_1 as Hc.
  unfold round_trip. open_curve. rewrite lit_1. cbn [bind]. fin.
  rewrite div_fin by lra. fin.
  replace ((cosh t - 1) / (cosh 1 - 1) * (cosh 1 - 1) + 1) with (cosh t)
    by (field; lra).
  apply f_equal, acosh_cosh. lra.
Qed.

Lemma Rinv_scale_neq_0 (d : R) : d <> 0 -> Q2R 1 / d <> 0.
Proof.
  intros Hd. unfold Rdiv. apply Rmult_integral_contrapositive_currified.
  - unfold Q2R; simpl; lra.
  - apply Rinv_neq_0_compat. assumption.
Qed.

Lemma round_trip_Gauss (k t : R) :
  0 < k -> 0 <= t <= 1 ->
  round_trip (NLGauss.iface (NLGauss.New (Fin k))) t.
Proof.
  intros Hk Ht.
  assert (Hkk : 0 < k * k) by nra.
  assert (Ho : exp (- k * k * Q2R 0.5) <> 1).
  { apply exp_neq_1. unfold Q2R; simpl. lra. }
  set (o := exp (- k * k * Q2R 0.5)) in *.
  assert (Hq : Q2R 1 - o <> 0) by (unfold Q2R; simpl; lra).
  pose proof (Rinv_scale_neq_0 Hq) as Hs.
  unfold round_trip. open_curve.
  cbn [NLGauss.New NLGauss.K NLGauss.Offs NLGauss.Scale]; cbv zeta; fin.
  fold o. rewrite div_fin by assumption. fin. cbn [bind]. cbv zeta.
  rewrite div_fin by assumption. fin.
  set (E := k * (t - Q2R 1) * (Q2R (-0.5) * (k * (t - Q2R 1)))).
  replace ((exp E - o) * (Q2R 1 / (Q2R 1 - o)) / (Q2R 1 / (Q2R 1 - o)) + o)
    with (exp E) by (field; split; [| unfold Q2R; simpl]; lra).
  rewrite log_fin by apply exp_pos. rewrite ln_exp. fin.
  replace (E * Q2R (-2)) with (k * (1 - t) * (k * (1 - t)))
    by (unfold E, Q2R; simpl; lra).
  assert (Hn : 0 <= k * (1 - t)) by nra.
  rewrite sqrt_fin by nra. rewrite sqrt_square by assumption.
  rewrite div_fin by lra. fin. fin_eq ltac:(field; lra).
Qed.

Lemma sigma_pos (x : R) : 0 < sigma x < 1.
Proof.
  unfold sigma. pose proof (exp_pos (- x)) as Hp.
  assert (H1 : 0 < / (1 + exp (- x))) by (apply Rinv_0_lt_compat; lra).
  assert (H2 : (1 + exp (- x)) * / (1 + exp (- x)) = 1) by (apply Rinv_r; lra).
  split; nra.
Qed.

Lemma logisticInvTransform_sigma (x : R) :
  logisticInvTransform (Fin (sigma x)) = Fin x.
Proof.
  pose proof (sigma_pos x) as Hs. pose proof (exp_pos (- x)) as Hp.
  unfold logisticInvTransform. fin. rewrite div_fin by lra. fin.
  replace (Q2R 1 / sigma x - Q2R 1) with (exp (- x)).
  - rewrite log_fin by assumption. rewrite ln_exp. fin. f_equal. lra.
  - unfold sigma, Q2R; simpl. field. lra.
Qed.

Lemma round_trip_Logistic (k mp t : R) :
  0 < k -> 0 < mp < 1 ->
  round_trip (NLLogistic.iface (NLLogistic.New (Fin k) (Fin mp))) t.
Proof.
  intros Hk Hmp.
  assert (Hd : sigma ((Q2R 1 - mp) * k) - sigma (- mp * k) <> 0).
  { intros E. apply Rminus_diag_uniq, sigma_inj in E.
    unfold Q2R in E; simpl in E. nra. }
  pose proof (Rinv_scale_neq_0 Hd) as Hs.
  unfold round_trip. open_curve.
  cbn [NLLogistic.New NLLogistic.K NLLogistic.Mp NLLogistic.Offs
       NLLogistic.Scale]; cbv zeta; fin.
  rewrite !logisticTransform_fin. fin. rewrite div_fin by assumption. fin.
  cbn [bind]. cbv zeta. rewrite div_fin by assumption. fin.
  set (d := sigma ((Q2R 1 - mp) * k) - sigma (- mp * k)) in *.
  replace ((sigma ((t - mp) * k) - sigma (- mp * k)) * (Q2R 1 / d)
           / (Q2R 1 / d) + sigma (- mp * k))
    with (sigma ((t - mp) * k))
    by (field; split; [| unfold Q2R; simpl]; lra).
  rewrite logisticInvTransform_sigma. rewrite div_fin by lra. fin.
  fin_eq ltac:(field; lra).
Qed.

(** Every closed-form curve is inverted exactly, over the reals, by its
    InvTransform on [0,1]. *)
Lemma closed_form_round_trip (c : NonLinear ieee) (t : R) :
  closed_form c -> 0 <= t <= 1 -> round_trip c t.
Proof.
  intros Hc Ht. destruct Hc.
  - apply round_trip_Linear.
  - apply round_trip_Square; assumption.
  - apply round_trip_Cube; assumption.
  - apply round_trip_Exponential; assumption.
  - apply round_trip_Logarithmic; assumption.
  - apply round_trip_Sin; assumption.
  - apply round_trip_Sin1; assumption.
  - apply round_trip_Sin2; assumption.
  - apply round_trip_Circle1; assumption.
  - apply round_trip_Circle2; assumption.
  - apply round_trip_Lame; assumption.
  - apply round_trip_Catenary; assumption.
  - apply round_trip_Gauss; assumption.
  - apply round_trip_Logistic; assumption.
Qed.

(** ** The round trip through the bisection-based curves *)

Lemma p5_derivable : derivable p5.
Proof. unfold p5. reg. Qed.

Lemma p5_derive (t : R) :
  derive_pt p5 t (p5_derivable t) = 30 * (t * t) * ((1 - t) * (1 - t)).
Proof. unfold p5. reg. Qed.

Lemma p5_increasing (y z : R) :
  0 <= y <= 1 -> 0 <= z <= 1 -> y < z -> p5 y < p5 z.
Proof.
  apply (derive_increasing_interv 0 1 p5 p5_derivable); [lra |].
  intros t Ht. rewrite p5_derive.
  apply Rmult_lt_0_compat; [apply Rmult_lt_0_compat |]; nra.
Qed.

Lemma NLP5_Transform_fin (y : R) :
  NLP5.Transform NLP5.mk (Fin y) = Val (Fin (p5 y)).
Proof.
  unfold NLP5.Transform, p5. fin. fin_eq lra.
Qed.

(** X2: the inverses of P3 and P5, found by bisection, recover every t in
    [0,1] from Transform(t) within 2^-16. *)
Lemma bisection_round_trip (t : R) :
  0 <= t <= 1 ->
  (exists r, (v <- Transform (NLP3.iface NLP3.mk) (Fin t) ;;
              InvTransform (NLP3.iface NLP3.mk) v) = Val (Fin r)
             /\ Rabs (r - t) < / 2 ^ 16) /\
  (exists r, (v <- Transform (NLP5.iface NLP5.mk) (Fin t) ;;
              InvTransform (NLP5.iface NLP5.mk) v) = Val (Fin r)
             /\ Rabs (r - t) < / 2 ^ 16).
Proof.
  intros Ht.
  assert (Hlt : / 2 ^ 17 < / 2 ^ 16).
  { apply Rinv_lt_contravar.
    - apply Rmult_lt_0_compat; apply pow_lt; lra.
    - apply Rlt_pow; [lra | lia]. }
  split.
  - cbn [Transform NLP3.iface]. rewrite NLP3_Transform_fin. cbn [bind].
    rewrite NLP3_InvTransform_bsInv.
    destruct (@bsInv_within p3 (NLP3.Transform NLP3.mk) t) as (r & Hr & Hb);
      [intros y _; apply NLP3_Transform_fin | apply p3_increasing | assumption |].
    exists r. split; [exact Hr | lra].
  - cbn [Transform NLP5.iface]. rewrite NLP5_Transform_fin. cbn [bind].
    rewrite NLP5_InvTransform_bsInv.
    destruct (@bsInv_within p5 (NLP5.Transform NLP5.mk) t) as (r & Hr & Hb);
      [intros y _; apply NLP5_Transform_fin | apply p5_increasing | assumption |].
    exists r. split; [exact Hr | lra].
Qed.

(** ** The Gauss curve is monotonic *)

Lemma exp_le (a b : R) : a <= b -> exp a <= exp b.
Proof.
  intros [Hlt | ->]; [left; apply exp_increasing; assumption | right; reflexivity].
Qed.

Lemma Gauss_monotone (k x y : R) :
  k <> 0 -> 0 <= x <= 1 -> 0 <= y <= 1 -> x <= y ->
  exists a b,
    Transform (NLGauss.iface (NLGauss.New (Fin k))) (Fin x) = Val (Fin a) /\
    Transform (NLGauss.iface (NLGauss.New (Fin k))) (Fin y) = Val (Fin b) /\
    a <= b.
Proof.
  intros Hk Hx Hy Hxy.
  assert (Hkk : 0 < k * k) by nra.
  assert (Ho : exp (- k * k * Q2R 0.5) < 1).
  { rewrite <- exp_0. apply exp_increasing. unfold Q2R; simpl. lra. }
  set (o := exp (- k * k * Q2R 0.5)) in *.
  assert (Hq : Q2R 1 - o <> 0) by (unfold Q2R; simpl; lra).
  assert (Hs : 0 < Q2R 1 / (Q2R 1 - o)).
  { apply Rdiv_lt_0_compat; unfold Q2R; simpl; lra. }
  open_curve.
  cbn [NLGauss.New NLGauss.K NLGauss.Offs NLGauss.Scale]; cbv zeta; fin.
  fold o. rewrite div_fin by assumption. fin.
  eexists. eexists. split; [reflexivity |]. split; [reflexivity |].
  apply Rmult_le_compat_r; [lra |].
  apply Rplus_le_compat_r. apply exp_le.
  assert (H1 : 0 <= (y - x) * (2 - x - y)) by (apply Rmult_le_pos; lra).
  assert (H2 : 0 <= k * k * ((y - x) * (2 - x - y)))
    by (apply Rmult_le_pos; lra).
  unfold Q2R; simpl. lra.
Qed.

(** ** Monotonicity of the curves without stops *)

Lemma increasing_Linear : increasing_unit (NLLinear.iface NLLinear.mk).
Proof. exists (fun t => t). split; [reflexivity | intros; lra]. Qed.

Lemma increasing_Square : increasing_unit (NLSquare.iface NLSquare.mk).
Proof.
  exists (fun t => t * t). split; [reflexivity | intros; nra].
Qed.

Lemma increasing_Cube : increasing_unit (NLCube.iface NLCube.mk).
Proof.
  exists (fun t => t * t * t). split; [reflexivity |].
  intros x y Hx Hxy Hy.
  assert (H1 : x * x <= y * y) by nra.
  assert (H2 : 0 <= x * x) by nra.
  nra.
Qed.

Lemma increasing_P3 : increasing_unit (NLP3.iface NLP3.mk).
Proof.
  exists p3. split; [intros; apply NLP3_Transform_fin |].
  intros x y Hx [Hlt | ->] Hy; [| lra].
  left. apply p3_increasing; lra.
Qed.

Lemma increasing_P5 : increasing_unit (NLP5.iface NLP5.mk).
Proof.
  exists p5. split; [intros; apply NLP5_Transform_fin |].
  intros x y Hx [Hlt | ->] Hy; [| lra].
  left. apply p5_increasing; lra.
Qed.

Lemma increasing_Exponential (k : R) :
  k <> 0 -> increasing_unit (NLExponential.iface (NLExponential.New (Fin k))).
Proof.
  intros Hk. pose proof (exp_neq_1 Hk) as He.
  exists (fun t => (exp (t * k) - 1) * (1 / (exp k - 1))). split.
  - intros t _. open_curve.
    cbn [NLExponential.New NLExponential.K NLExponential.Scale]. fin1.
    rewrite div_fin by lra. fin. reflexivity.
  - intros x y Hx Hxy Hy. cbv beta.
    destruct (Rlt_dec 0 k) as [Hpos | Hneg].
    + assert (H1 : exp (x * k) <= exp (y * k)) by (apply exp_le; nra).
      assert (H2 : 1 < exp k) by (rewrite <- exp_0; apply exp_increasing; lra).
      assert (H3 : 0 < 1 / (exp k - 1)) by (apply Rdiv_lt_0_compat; lra).
      apply Rmult_le_compat_r; lra.
    + assert (H1 : exp (y * k) <= exp (x * k)) by (apply exp_le; nra).
      assert (H2 : exp k < 1) by (rewrite <- exp_0; apply exp_increasing; lra).
      assert (H3 : 0 < 1 / (1 - exp k)) by (apply Rdiv_lt_0_compat; lra).
      replace (1 / (exp k - 1)) with (- (1 / (1 - exp k))) by (field; lra).
      nra.
Qed.

Lemma ln_le (a b : R) : 0 < a -> a <= b -> ln a <= ln b.
Proof.
  intros Ha [Hlt | ->]; [left; apply ln_increasing; assumption | right; reflexivity].
Qed.

Lemma increasing_Logarithmic (k : R) :
  k <> 0 -> -1 < k ->
  increasing_unit (NLLogarithmic.iface (NLLogarithmic.New (Fin k))).
Proof.
  intros Hk Hk1.
  assert (Hl : ln (1 + k) <> 0) by (apply ln_neq_0; lra).
  exists (fun t => ln (1 + t * k) * (1 / ln (1 + k))). split.
  - intros t Ht. open_curve.
    cbn [NLLogarithmic.New NLLogarithmic.K NLLogarithmic.Scale]. fin1.
    assert (Htk : -1 < t * k) by nra.
    rewrite !log1p_fin by lra. rewrite div_fin by assumption. fin.
    reflexivity.
  - intros x y Hx Hxy Hy. cbv beta.
    destruct (Rlt_dec 0 k) as [Hpos | Hneg].
    + assert (H1 : ln (1 + x * k) <= ln (1 + y * k)) by (apply ln_le; nra).
      assert (H2 : 0 < ln (1 + k)) by (rewrite <- ln_1; apply ln_increasing; lra).
      assert (H3 : 0 < 1 / ln (1 + k)) by (apply Rdiv_lt_0_compat; lra).
      apply Rmult_le_compat_r; lra.
    + assert (H1 : ln (1 + y * k) <= ln (1 + x * k)) by (apply ln_le; nra).
      assert (H2 : ln (1 + k) < 0) by (rewrite <- ln_1; apply ln_increasing; lra).
      assert (H3 : 0 < 1 / (- ln (1 + k))) by (apply Rdiv_lt_0_compat; lra).
      replace (1 / ln (1 + k)) with (- (1 / (- ln (1 + k)))) by (field; lra).
      nra.
Qed.

Lemma increasing_Sin : increasing_unit (NLSin.iface NLSin.mk).
Proof.
  pose proof PI_RGT_0 as Hpi.
  exists (fun t => (sin ((t - 1 / 2) * PI) + 1) / 2). split.
  - intros t _. open_curve. fin.
    rewrite div_fin by (unfold Q2R; simpl; lra).
    replace (Q2R 0.5) with (1 / 2) by (unfold Q2R; simpl; lra).
    fin_eq lra.
  - intros x y Hx Hxy Hy. cbv beta.
    assert (H : sin ((x - 1 / 2) * PI) <= sin ((y - 1 / 2) * PI))
      by (apply sin_incr_1; nra).
    lra.
Qed.

Lemma increasing_Sin1 : increasing_unit (NLSin1.iface NLSin1.mk).
Proof.
  pose proof PI_RGT_0 as Hpi.
  exists (fun t => sin (t * (PI / 2))). split.
  - intros t _. open_curve. fin.
    rewrite div_fin by (unfold Q2R; simpl; lra). fin.
    do 3 f_equal. unfold Q2R; simpl; lra.
  - intros x y Hx Hxy Hy. cbv beta. apply sin_incr_1; nra.
Qed.

Lemma increasing_Sin2 : increasing_unit (NLSin2.iface NLSin2.mk).
Proof.
  pose proof PI_RGT_0 as Hpi.
  exists (fun t => sin ((t - 1) * (PI / 2)) + 1). split.
  - intros t _. open_curve. fin.
    rewrite div_fin by (unfold Q2R; simpl; lra). fin.
    replace ((t - Q2R 1) * PI / Q2R 2) with ((t - 1) * (PI / 2))
      by (unfold Q2R; simpl; lra).
    fin_eq lra.
  - intros x y Hx Hxy Hy. cbv beta.
    assert (H : sin ((x - 1) * (PI / 2)) <= sin ((y - 1) * (PI / 2)))
      by (apply sin_incr_1; nra).
    lra.
Qed.

Lemma increasing_Circle1 : increasing_unit (NLCircle1.iface NLCircle1.mk).
Proof.
  exists (fun t => if Rlt_dec t 1 then 1 - sqrt (1 - t * t) else 1). split.
  - intros t Ht. open_curve. rewrite lit_1. cbn [ltb Ieee.float64 Ieee.lt].
    destruct (Rlt_dec t 1); [| reflexivity].
    fin. rewrite sqrt_fin by nra. fin. reflexivity.
  - intros x y Hx Hxy Hy. cbv beta.
    destruct (Rlt_dec x 1), (Rlt_dec y 1); try lra.
    + assert (H : sqrt (1 - y * y) <= sqrt (1 - x * x))
        by (apply sqrt_le_1_alt; nra).
      lra.
    + pose proof (sqrt_pos (1 - x * x)). lra.
Qed.

Lemma increasing_Circle2 : increasing_unit (NLCircle2.iface NLCircle2.mk).
Proof.
  exists (fun t => sqrt (t * (2 - t))). split.
  - intros t Ht. open_curve. fin.
    replace (Q2R 2) with 2 by (unfold Q2R; simpl; lra).
    rewrite sqrt_fin by nra. reflexivity.
  - intros x y Hx Hxy Hy. cbv beta. apply sqrt_le_1_alt.
    assert (H : 0 <= (y - x) * (2 - x - y)) by (apply Rmult_le_pos; lra).
    lra.
Qed.

Lemma rpow_nonneg (a b : R) : 0 <= rpow a b.
Proof.
  unfold rpow. destruct (Req_dec_T a 0); [lra |].
  left. apply Rpower_pos.
Qed.

Lemma rpow_le (a b c : R) : 0 <= a -> a <= b -> 0 < c -> rpow a c <= rpow b c.
Proof.
  intros Ha Hab Hc. unfold rpow.
  destruct (Req_dec_T a 0) as [-> | Hna].
  - destruct (Req_dec_T b 0); [lra |]. left. apply Rpower_pos.
  - destruct (Req_dec_T b 0); [lra |].
    apply Rle_Rpower_l; lra.
Qed.

Lemma rpow_1_l (b : R) : rpow 1 b = 1.
Proof.
  unfold rpow. destruct (Req_dec_T 1 0); [lra |]. apply Rpower_1_l.
Qed.

Lemma increasing_Lame (n m : R) :
  0 < n -> 0 < m ->
  increasing_unit (NLLame.iface (NLLame.New (Fin n) (Fin m))).
Proof.
  intros Hn Hm.
  assert (Him : 0 < 1 / m) by (apply Rdiv_lt_0_compat; lra).
  assert (Hr : forall t, 0 <= t <= 1 -> 0 <= rpow t n <= 1).
  { intros t Ht. split; [apply rpow_nonneg |].
    rewrite <- (rpow_1_l n). apply rpow_le; lra. }
  exists (fun t => if Rlt_dec t 1 then 1 - rpow (1 - rpow t n) (1 / m) else 1).
  split.
  - intros t Ht. open_curve. cbn [NLLame.New NLLame.N NLLame.Odm].
    rewrite lit_1. cbn [ltb Ieee.float64 Ieee.lt].
    destruct (Rlt_dec t 1); [| reflexivity].
    cbv zeta. rewrite div_fin by lra.
    rewrite pow_rpow by lra. rewrite sub_fin.
    pose proof (Hr t Ht).
    rewrite pow_rpow by lra. rewrite sub_fin. reflexivity.
  - intros x y Hx Hxy Hy. cbv beta.
    destruct (Rlt_dec x 1), (Rlt_dec y 1); try lra.
    + assert (H1 : rpow x n <= rpow y n) by (apply rpow_le; lra).
      pose proof (Hr y ltac:(lra)).
      assert (H2 : rpow (1 - rpow y n) (1 / m) <= rpow (1 - rpow x n) (1 / m))
        by (apply rpow_le; lra).
      lra.
    + pose proof (rpow_nonneg (1 - rpow x n) (1 / m)). lra.
Qed.

Lemma cosh_le (x y : R) : 0 <= x -> x <= y -> cosh x <= cosh y.
Proof.
  intros Hx Hxy. unfold cosh. rewrite !exp_Ropp.
  assert (Ha : 1 <= exp x) by (rewrite <- exp_0; apply exp_le; lra).
  assert (Hab : exp x <= exp y) by (apply exp_le; lra).
  set (a := exp x) in *. set (b := exp y) in *.
  assert (Hia : a * / a = 1) by (apply Rinv_r; lra).
  assert (Hib : b * / b = 1) by (apply Rinv_r; lra).
  assert (Hpa : 0 < / a) by (apply Rinv_0_lt_compat; lra).
  assert (Hpb : 0 < / b) by (apply Rinv_0_lt_compat; lra).
  (* (b + 1/b) - (a + 1/a) = (b - a) (a b - 1) / (a b) *)
  assert (Hd : b + / b - (a + / a) = (b - a) * (a * b - 1) * (/ a * / b)).
  { field. lra. }
  assert (Hp : 0 <= (b - a) * (a * b - 1) * (/ a * / b)).
  { apply Rmult_le_pos; [apply Rmult_le_pos; nra | nra]. }
  lra.
Qed.

Lemma increasing_Catenary : increasing_unit (NLCatenary.iface NLCatenary.mk).
Proof.
  pose proof cosh_1_gt_1 as Hc.
  exists (fun t => (cosh t - 1) / (cosh 1 - 1)). split.
  - intros t _. open_curve. fin1. rewrite div_fin by lra. reflexivity.
  - intros x y Hx Hxy Hy. cbv beta.
    pose proof (cosh_le Hx Hxy).
    apply Rmult_le_compat_r; [| lra].
    left. apply Rinv_0_lt_compat. lra.
Qed.

Lemma increasing_Gauss (k : R) :
  k <> 0 -> increasing_unit (NLGauss.iface (NLGauss.New (Fin k))).
Proof.
  intros Hk.
  exists (fun t =>
            match Transform (NLGauss.iface (NLGauss.New (Fin k))) (Fin t) with
            | Val (Fin r) => r
            | _ => 0
            end).
  split.
  - intros t Ht.
    destruct (@Gauss_monotone k t t Hk Ht Ht (Rle_refl t)) as (a & _ & -> & _).
    reflexivity.
  - intros x y Hx Hxy Hy.
    destruct (@Gauss_monotone k x y Hk) as (a & b & -> & -> & Hab); lra.
Qed.

Lemma sigma_le (x y : R) : x <= y -> sigma x <= sigma y.
Proof.
  intros Hxy. unfold sigma.
  pose proof (exp_pos (- x)). pose proof (exp_pos (- y)).
  assert (He : exp (- y) <= exp (- x)) by (apply exp_le; lra).
  unfold Rdiv. rewrite !Rmult_1_l. apply Rinv_le_contravar; lra.
Qed.

Lemma sigma_lt (x y : R) : x < y -> sigma x < sigma y.
Proof.
  intros Hxy. destruct (sigma_le (Rlt_le _ _ Hxy)) as [H | H]; [assumption |].
  apply sigma_inj in H. lra.
Qed.

Lemma increasing_Logistic (k mp : R) :
  0 < k -> 0 < mp < 1 ->
  increasing_unit (NLLogistic.iface (NLLogistic.New (Fin k) (Fin mp))).
Proof.
  intros Hk Hmp.
  assert (Hd : 0 < sigma ((1 - mp) * k) - sigma (- mp * k)).
  { assert (H : sigma (- mp * k) < sigma ((1 - mp) * k))
      by (apply sigma_lt; nra).
    lra. }
  exists (fun t => (sigma ((t - mp) * k) - sigma (- mp * k))
                   * (1 / (sigma ((1 - mp) * k) - sigma (- mp * k)))).
  split.
  - intros t _. open_curve.
    cbn [NLLogistic.New NLLogistic.K NLLogistic.Mp NLLogistic.Offs
         NLLogistic.Scale]; cbv zeta. fin1.
    rewrite !logisticTransform_fin. fin. rewrite div_fin by lra. fin.
    reflexivity.
  - intros x y Hx Hxy Hy. cbv beta.
    assert (H : sigma ((x - mp) * k) <= sigma ((y - mp) * k))
      by (apply sigma_le; nra).
    apply Rmult_le_compat_r; [| lra].
    left. apply Rdiv_lt_0_compat; lra.
Qed.

(** The values of a curve with both properties stay in [0,1]. *)
Lemma increasing_range (c : NonLinear ieee) (g : R -> R) :
  endpoints c ->
  (forall t, 0 <= t <= 1 -> Transform c (Fin t) = Val (Fin (g t))) ->
  (forall x y, 0 <= x -> x <= y -> y <= 1 -> g x <= g y) ->
  forall t, 0 <= t <= 1 -> 0 <= g t <= 1.
Proof.
  intros [H0 H1] Hg Hm t Ht.
  rewrite Hg in H0 by lra. rewrite Hg in H1 by lra.
  injection H0 as E0. injection H1 as E1.
  pose proof (Hm 0 t). pose proof (Hm t 1). lra.
Qed.

Lemma increasing_Compound_cons (f : NonLinear ieee) (fs : list (NonLinear ieee)) :
  endpoints f -> increasing_unit f ->
  increasing_unit (NLCompound.iface (NLCompound.New fs)) ->
  increasing_unit (NLCompound.iface (NLCompound.New (f :: fs))).
Proof.
  intros He (g & Hg & Hm) (gs & Hgs & Hms).
  pose proof (@increasing_range f g He Hg Hm) as Hr.
  exists (fun t => gs (g t)). split.
  - intros t Ht. open_curve. cbn [NLCompound.New NLCompound.Fs NLCompound.range].
    rewrite Hg by assumption. cbn [bind].
    apply (Hgs (g t)). apply Hr. assumption.
  - intros x y Hx Hxy Hy. cbv beta.
    apply Hms; [apply Hr; lra | apply Hm; lra | apply Hr; lra].
Qed.

Lemma increasing_Omt (f : NonLinear ieee) :
  endpoints f -> increasing_unit f ->
  increasing_unit (NLOmt.iface (NLOmt.New f)).
Proof.
  intros He (g & Hg & Hm).
  pose proof (@increasing_range f g He Hg Hm) as Hr.
  exists (fun t => if Rlt_dec 0 (1 - t) then 1 - g (1 - t) else 1). split.
  - intros t Ht. open_curve. cbn [NLOmt.New NLOmt.F]. cbv zeta.
    rewrite lit_1, lit_0, sub_fin. cbn [ltb Ieee.float64 Ieee.lt].
    destruct (Rlt_dec 0 (1 - t)); [| reflexivity].
    rewrite Hg by lra. cbn [bind]. fin. reflexivity.
  - intros x y Hx Hxy Hy. cbv beta.
    destruct (Rlt_dec 0 (1 - x)), (Rlt_dec 0 (1 - y)); try lra.
    + pose proof (Hm (1 - y) (1 - x)). lra.
    + pose proof (Hr (1 - x)). lra.
Qed.

(** Every curve of the package built without a stopped curve goes from
    (0,0) to (1,1) and does not decrease in between. *)
Lemma unstopped_curve_increasing (c : NonLinear ieee) :
  unstopped_curve c -> endpoints c /\ increasing_unit c.
Proof.
  intros H. induction H.
  - split; [apply endpoints_Linear | apply increasing_Linear].
  - split; [apply endpoints_Square | apply increasing_Square].
  - split; [apply endpoints_Cube | apply increasing_Cube].
  - split; [apply endpoints_Exponential | apply increasing_Exponential];
      assumption.
  - split; [apply endpoints_Logarithmic | apply increasing_Logarithmic];
      assumption.
  - split; [apply endpoints_Sin | apply increasing_Sin].
  - split; [apply endpoints_Sin1 | apply increasing_Sin1].
  - split; [apply endpoints_Sin2 | apply increasing_Sin2].
  - split; [apply endpoints_Circle1 | apply increasing_Circle1].
  - split; [apply endpoints_Circle2 | apply increasing_Circle2].
  - split; [apply endpoints_Lame | apply increasing_Lame]; assumption.
  - split; [apply endpoints_Catenary | apply increasing_Catenary].
  - split; [apply endpoints_Gauss | apply increasing_Gauss]; assumption.
  - split; [apply endpoints_Logistic | apply increasing_Logistic]; assumption.
  - split; [apply endpoints_P3 | apply increasing_P3].
  - split; [apply endpoints_P5 | apply increasing_P5].
  - split; [apply endpoints_Compound_nil |].
    exists (fun t => t). split; [reflexivity | intros; lra].
  - destruct IHpackage_curve1 as [He1 Hi1].
    destruct IHpackage_curve2 as [He2 Hi2].
    split; [apply endpoints_Compound_cons | apply increasing_Compound_cons];
      assumption.
  - destruct IHpackage_curve as [He Hi].
    split; [apply endpoints_Omt | apply increasing_Omt]; assumption.
  - contradiction.
Qed.

(** * Further properties of the code *)

(** ** The monad of results *)

Lemma bind_assoc (A B C : Type) (m : res A) (k : A -> res B) (h : B -> res C) :
  bind (bind m k) h = bind m (fun a => bind (k a) h).
Proof. destruct m; reflexivity. Qed.

Lemma bind_Val_r (A : Type) (m : res A) : bind m (fun a => Val a) = m.
Proof. destruct m; reflexivity. Qed.

(** ** The compound curve *)

Lemma range_app (F : Type) (fs gs : list (NonLinear F)) (x : F) :
  NLCompound.range (fs ++ gs) x
  = (y <- NLCompound.range fs x ;; NLCompound.range gs y).
Proof.
  revert x. induction fs as [| f fs IH]; intros x; simpl; [reflexivity |].
  destruct (Transform f x); simpl; [apply IH | reflexivity].
Qed.

Lemma index_app_l (A : Type) (s s' : list A) (i : nat) :
  (i < length s)%nat -> index (s ++ s') (Z.of_nat i) = index s (Z.of_nat i).
Proof.
  intros Hi. destruct (nth_error s i) as [a |] eqn:E.
  - rewrite (@index_nth _ _ i a), (@index_nth _ _ i a); auto.
    rewrite nth_error_app1; assumption.
  - apply nth_error_None in E. lia.
Qed.

Lemma index_app_r (A : Type) (s s' : list A) (i : nat) :
  (i < length s')%nat ->
  index (s ++ s') (Z.of_nat (length s + i)) = index s' (Z.of_nat i).
Proof.
  intros Hi. destruct (nth_error s' i) as [a |] eqn:E.
  - rewrite (@index_nth _ _ (length s + i) a), (@index_nth _ _ i a); auto.
    rewrite nth_error_app2 by lia.
    replace (length s + i - length s)%nat with i by lia. assumption.
  - apply nth_error_None in E. lia.
Qed.

Lemma down_app_l (F : Type) (fs gs : list (NonLinear F)) (n : nat) (v : F) :
  (n <= length fs)%nat ->
  NLCompound.down (fs ++ gs) n v = NLCompound.down fs n v.
Proof.
  revert v. induction n as [| n IH]; intros v Hn; simpl; [reflexivity |].
  rewrite index_app_l by lia.
  destruct (index fs (Z.of_nat n)) as [f |]; simpl; [| reflexivity].
  destruct (InvTransform f v); simpl; [apply IH; lia | reflexivity].
Qed.

Lemma down_app_r (F : Type) (fs gs : list (NonLinear F)) (n : nat) (v : F) :
  (n <= length gs)%nat ->
  NLCompound.down (fs ++ gs) (length fs + n) v
  = (v' <- NLCompound.down gs n v ;; NLCompound.down fs (length fs) v').
Proof.
  revert v. induction n as [| n IH]; intros v Hn.
  - rewrite Nat.add_0_r. simpl. apply down_app_l. lia.
  - rewrite Nat.add_succ_r. simpl. rewrite index_app_r by lia.
    destruct (index gs (Z.of_nat n)) as [g |]; simpl; [| reflexivity].
    destruct (InvTransform g v); simpl; [apply IH; lia | reflexivity].
Qed.

Lemma down_app (F : Type) (fs gs : list (NonLinear F)) (v : F) :
  NLCompound.down (fs ++ gs) (length (fs ++ gs)) v
  = (v' <- NLCompound.down gs (length gs) v ;;
     NLCompound.down fs (length fs) v').
Proof. rewrite length_app. apply down_app_r. lia. Qed.

(** X6: a compound curve composes its curves: Transform applies them in
    the order of the slice and InvTransform applies their inverses in the
    reverse order, so the compound of a concatenation is the compound of
    the first part followed by the compound of the second; the compound of
    one curve is that curve, the compound of none is the identity.  No index
    of either loop is out of range. *)
Theorem Compound_composes (F : Type) (fs gs : list (NonLinear F))
  (f : NonLinear F) (x : F) :
  let C := fun l => NLCompound.iface (NLCompound.New l) in
  Transform (C (fs ++ gs)) x = (y <- Transform (C fs) x ;; Transform (C gs) y)
  /\ InvTransform (C (fs ++ gs)) x
     = (y <- InvTransform (C gs) x ;; InvTransform (C fs) y)
  /\ Transform (C [f]) x = Transform f x
  /\ InvTransform (C [f]) x = InvTransform f x
  /\ Transform (C []) x = Val x
  /\ InvTransform (C []) x = Val x.
Proof.
  cbv zeta.
  cbn [Transform InvTransform NLCompound.iface].
  unfold NLCompound.Transform, NLCompound.InvTransform.
  cbn [NLCompound.New NLCompound.Fs].
  split; [apply range_app |].
  split; [apply down_app |].
  split; [simpl; apply bind_Val_r |].
  split; [| split; reflexivity].
  simpl. unfold index. simpl. apply bind_Val_r.
Qed.

(** ** The stopped curve never panics on a list of pairs *)

Lemma index_in_range (A : Type) (s : list A) (i : Z) :
  (0 <= i < Z.of_nat (length s))%Z -> exists a, index s i = Val a.
Proof.
  intros Hi. unfold index.
  destruct (Z.ltb_spec i 0) as [Hneg |]; [lia |].
  destruct (nth_error s (Z.to_nat i)) as [a |] eqn:E; [eauto |].
  apply nth_error_None in E. lia.
Qed.

Lemma index2_pairs (F : Type) (stops : list (list F)) (i j : Z) :
  stops_are_pairs stops ->
  (0 <= i < Z.of_nat (length stops))%Z -> (0 <= j < 2)%Z ->
  exists a, index2 stops i j = Val a.
Proof.
  intros Hp Hi Hj. unfold index2, index at 1.
  destruct (Z.ltb_spec i 0) as [Hneg |]; [lia |].
  destruct (nth_error stops (Z.to_nat i)) as [row |] eqn:E.
  - cbn [bind]. apply index_in_range.
    apply nth_error_In in E.
    unfold stops_are_pairs in Hp. rewrite Forall_forall in Hp.
    specialize (Hp row E). lia.
  - apply nth_error_None in E. lia.
Qed.

Lemma scan_total (F : Type) (FO : Float64 F) (stops : list (list F)) (x : F)
  (fuel : nat) (i : Z) :
  stops_are_pairs stops ->
  (0 <= i)%Z -> (i + Z.of_nat fuel = Z.of_nat (length stops))%Z ->
  exists i' t0 v0,
    NLStopped.scan stops x fuel i = Val (i', t0, v0)
    /\ (0 <= i' <= Z.of_nat (length stops))%Z.
Proof.
  intros Hp. revert i. induction fuel as [| fuel IH]; intros i Hi Hn.
  - simpl. exists i, (lit 0), (lit 0). split; [reflexivity | lia].
  - rewrite scan_S.
    destruct (@index2_pairs F stops i 0 Hp) as [si ->]; [lia | lia |].
    cbn [bind]. destruct (ltb x si).
    + destruct (Z.gtb_spec i 1) as [Hgt | Hle].
      * destruct (@index2_pairs F stops (i - 1) 0 Hp) as [t0 ->]; [lia | lia |].
        destruct (@index2_pairs F stops (i - 1) 1 Hp) as [v0 ->]; [lia | lia |].
        cbn [bind]. exists i, t0, v0. split; [reflexivity | lia].
      * exists i, (lit 0), (lit 0). split; [reflexivity | lia].
    + apply IH; lia.
Qed.

(** X5: on a stop list that is not empty and whose stops all have their two
    entries, Transform and InvTransform of the stopped curve return a value
    for every argument: no index is out of range, whatever the values of
    the stops and of the argument (ordered or not, NaN included). *)
Theorem stopped_never_panics (F : Type) (FO : Float64 F)
  (stops : list (list F)) (x : F) :
  stops <> [] -> stops_are_pairs stops ->
  (exists r, Transform (NLStopped.iface (NLStopped.New stops)) x = Val r) /\
  (exists r, InvTransform (NLStopped.iface (NLStopped.New stops)) x = Val r).
Proof.
  intros Hne Hp.
  assert (Hlen : (0 < Z.of_nat (length stops))%Z).
  { destruct stops; [contradiction | simpl; lia]. }
  assert (HT : forall y, exists r,
             NLStopped.Transform (NLStopped.New stops) y = Val r).
  { intros y. unfold NLStopped.Transform. cbn [NLStopped.New NLStopped.Stops].
    cbv zeta.
    destruct (@scan_total F FO stops y (length stops) 0 Hp)
      as (i & t0 & v0 & -> & Hi); [lia | lia |].
    cbn [bind].
    destruct (Z.eqb_spec i (Z.of_nat (length stops))) as [-> | Hneq].
    - destruct (@index2_pairs F stops (Z.of_nat (length stops) - 1) 0 Hp)
        as [t0' ->]; [lia | lia |].
      destruct (@index2_pairs F stops (Z.of_nat (length stops) - 1) 1 Hp)
        as [v0' ->]; [lia | lia |].
      cbn [bind]. rewrite Z.ltb_irrefl. cbn [bind]. eauto.
    - cbn [bind].
      destruct (Z.ltb_spec i (Z.of_nat (length stops))) as [Hlt | Hge]; [| lia].
      destruct (@index2_pairs F stops i 0 Hp) as [t1 ->]; [lia | lia |].
      destruct (@index2_pairs F stops i 1 Hp) as [v1 ->]; [lia | lia |].
      cbn [bind]. eauto. }
  split.
  - apply HT.
  - cbn [InvTransform NLStopped.iface]. unfold NLStopped.InvTransform, bsInv.
    apply bsLoop_total. exact HT.
Qed.

Lemma stopped_never_panics_witness :
  (exists r, Transform (NLStopped.iface (NLStopped.New two_stops_b64))
               (lit 0.3 : float) = Val r) /\
  (exists r, InvTransform (NLStopped.iface (NLStopped.New two_stops_b64))
               (lit 0.3 : float) = Val r).
Proof.
  apply (@stopped_never_panics float B64.float64 two_stops_b64 (lit 0.3)).
  - discriminate.
  - repeat constructor.
Defined.

(** ** The closed-form curves and their inverses *)

Lemma closed_form_unstopped (c : NonLinear ieee) :
  closed_form c -> unstopped_curve c.
Proof.
  intros Hc. destruct Hc; constructor; try assumption; lra.
Qed.

(** On [0,1] a curve without stops takes its values in [0,1]. *)
Lemma unstopped_unit (c : NonLinear ieee) (t : R) :
  unstopped_curve c -> 0 <= t <= 1 ->
  exists v, Transform c (Fin t) = Val (Fin v) /\ 0 <= v <= 1.
Proof.
  intros Hc Ht.
  destruct (unstopped_curve_increasing Hc) as (He & g & Hg & Hm).
  exists (g t). split; [apply Hg; assumption |].
  apply (@increasing_range c g He Hg Hm). assumption.
Qed.

Lemma closed_form_inverse_at (c : NonLinear ieee) (t v : R) :
  closed_form c -> 0 <= t <= 1 ->
  Transform c (Fin t) = Val (Fin v) ->
  InvTransform c (Fin v) = Val (Fin t).
Proof.
  intros Hc Ht Hv. pose proof (closed_form_round_trip Hc Ht) as Hr.
  unfold round_trip in Hr. rewrite Hv in Hr. exact Hr.
Qed.

(** X1: every curve whose inverse is written in closed form (Linear,
    Square, Cube, Exponential, Logarithmic, the three Sin curves, the two
    Circle curves, Lame, Catenary, Gauss with k > 0, Logistic) maps t in
    [0,1] to a value v in [0,1], and its InvTransform takes v back to t,
    exactly over the reals. *)
Theorem closed_form_inverse (c : NonLinear ieee) (t : R) :
  closed_form c -> 0 <= t <= 1 ->
  exists v, Transform c (Fin t) = Val (Fin v) /\ 0 <= v <= 1 /\
            InvTransform c (Fin v) = Val (Fin t).
Proof.
  intros Hc Ht.
  destruct (@unstopped_unit c t (closed_form_unstopped Hc) Ht) as (v & Hv & Hr).
  exists v. split; [exact Hv |]. split; [exact Hr |].
  apply closed_form_inverse_at; assumption.
Qed.

Lemma closed_form_inverse_witness :
  exists v, Transform (NLCatenary.iface NLCatenary.mk) (Fin (1 / 3))
            = Val (Fin v) /\ 0 <= v <= 1 /\
            InvTransform (NLCatenary.iface NLCatenary.mk) (Fin v)
            = Val (Fin (1 / 3)).
Proof.
  apply (@closed_form_inverse (NLCatenary.iface NLCatenary.mk) (1 / 3)).
  - apply cf_Catenary.
  - lra.
Defined.

(** X7: a compound of closed-form curves is inverted exactly by its
    InvTransform on [0,1]: the inverses are applied last curve first. *)
Theorem Compound_round_trip (fs : list (NonLinear ieee)) (t : R) :
  Forall closed_form fs -> 0 <= t <= 1 ->
  round_trip (NLCompound.iface (NLCompound.New fs)) t.
Proof.
  intros Hfs. revert t. unfold round_trip.
  cbn [Transform InvTransform NLCompound.iface].
  unfold NLCompound.Transform, NLCompound.InvTransform.
  cbn [NLCompound.New NLCompound.Fs].
  induction Hfs as [| f fs Hf Hfs IH]; intros t Ht; [reflexivity |].
  destruct (@unstopped_unit f t (closed_form_unstopped Hf) Ht) as (v & Hv & Hr).
  cbn [NLCompound.range]. rewrite Hv. cbn [bind].
  specialize (IH v Hr).
  destruct (NLCompound.range fs (Fin v)) as [w | p]; [| discriminate].
  cbn [bind] in *.
  change (f :: fs) with ([f] ++ fs). rewrite down_app, IH. cbn [bind].
  simpl. unfold index. simpl.
  rewrite (closed_form_inverse_at Hf Ht Hv). reflexivity.
Qed.

Lemma Compound_round_trip_witness :
  round_trip
    (NLCompound.iface
       (NLCompound.New [NLSquare.iface NLSquare.mk; NLSin.iface NLSin.mk;
                        NLExponential.iface (NLExponential.New (Fin 10))]))
    (1 / 2).
Proof.
  apply (@Compound_round_trip
           [NLSquare.iface NLSquare.mk; NLSin.iface NLSin.mk;
            NLExponential.iface (NLExponential.New (Fin 10))] (1 / 2)).
  - repeat constructor. lra.
  - lra.
Defined.

(** ** Monotonicity *)

(** X3: over the reals (in exact arithmetic), every curve of the package
    built without a stopped curve (the parameters valid) maps [0,1] into
    [0,1] and does not decrease there: for 0 <= x <= y <= 1,
    0 <= Transform(x) <= Transform(y) <= 1. *)
Theorem unstopped_curve_monotone (c : NonLinear ieee) (x y : R) :
  unstopped_curve c -> 0 <= x -> x <= y -> y <= 1 ->
  exists a b, Transform c (Fin x) = Val (Fin a) /\
              Transform c (Fin y) = Val (Fin b) /\
              0 <= a /\ a <= b /\ b <= 1.
Proof.
  intros Hc Hx Hxy Hy.
  destruct (unstopped_curve_increasing Hc) as (He & g & Hg & Hm).
  pose proof (@increasing_range c g He Hg Hm) as Hr.
  exists (g x), (g y).
  split; [apply Hg; lra |]. split; [apply Hg; lra |].
  pose proof (Hr x). pose proof (Hr y). pose proof (Hm x y).
  repeat split; lra.
Qed.

Lemma unstopped_curve_monotone_witness :
  exists a b,
    Transform (NLOmt.iface (NLOmt.New (NLP5.iface NLP5.mk))) (Fin (1 / 4))
    = Val (Fin a) /\
    Transform (NLOmt.iface (NLOmt.New (NLP5.iface NLP5.mk))) (Fin (3 / 4))
    = Val (Fin b) /\
    0 <= a /\ a <= b /\ b <= 1.
Proof.
  apply (@unstopped_curve_monotone
           (NLOmt.iface (NLOmt.New (NLP5.iface NLP5.mk))) (1 / 4) (3 / 4)).
  - apply pc_Omt, pc_P5.
  - lra.
  - lra.
  - lra.
Defined.

(** ** Reflections *)

Lemma one_minus_one_minus (r : ieee) : (lit 1 - (lit 1 - r))%f64 = r.
Proof.
  rewrite lit_1. destruct r as [y | | |]; try reflexivity.
  fin. f_equal. lra.
Qed.

(** X8: reflecting a curve twice gives the curve back strictly inside the
    unit interval, whatever the curve returns there (a panic included);
    at 0 and at 1 the double reflection returns 0 and 1 without calling
    the curve. *)
Theorem reflected_twice (f : NonLinear ieee) (t : R) :
  (0 < t < 1 ->
   Transform (NLOmt.iface (NLOmt.New (NLOmt.iface (NLOmt.New f)))) (Fin t)
   = Transform f (Fin t)) /\
  Transform (NLOmt.iface (NLOmt.New (NLOmt.iface (NLOmt.New f))))
    (Fin 0) = Val (Fin 0) /\
  Transform (NLOmt.iface (NLOmt.New (NLOmt.iface (NLOmt.New f))))
    (Fin 1) = Val (Fin 1).
Proof.
  split; [| split].
  - intros Ht. open_curve. cbn [NLOmt.New NLOmt.F]. cbv zeta.
    open_curve. cbn [NLOmt.New NLOmt.F]. cbv zeta.
    rewrite lit_1, lit_0, !sub_fin. cbn [ltb Ieee.float64].
    rewrite !lt_fin_true by lra.
    replace (1 - (1 - t)) with t by lra.
    destruct (Transform f (Fin t)) as [r | p]; [| reflexivity].
    cbn [bind]. rewrite <- lit_1, one_minus_one_minus. reflexivity.
  - open_curve. cbn [NLOmt.New NLOmt.F]. cbv zeta.
    open_curve. cbn [NLOmt.New NLOmt.F]. cbv zeta.
    rewrite lit_1, lit_0, !sub_fin. cbn [ltb Ieee.float64].
    rewrite lt_fin_true by lra. rewrite lt_fin_false by lra.
    cbn [bind]. fin. fin_eq lra.
  - open_curve. cbn [NLOmt.New NLOmt.F]. cbv zeta.
    rewrite lit_1, lit_0, !sub_fin. cbn [ltb Ieee.float64].
    rewrite lt_fin_false by lra. reflexivity.
Qed.

Lemma reflected_twice_witness :
  Transform (NLOmt.iface (NLOmt.New (NLOmt.iface (NLOmt.New
     (NLSquare.iface NLSquare.mk))))) (Fin (1 / 3))
  = Transform (NLSquare.iface NLSquare.mk) (Fin (1 / 3)).
Proof.
  apply (@reflected_twice (NLSquare.iface NLSquare.mk) (1 / 3)). lra.
Defined.

(** X9: on [0,1] the curve Circle2 is the reflection of Circle1 and Sin2
    is the reflection of Sin1, exactly over the reals. *)
Theorem reflected_pairs (t : R) :
  0 <= t <= 1 ->
  Transform (NLOmt.iface (NLOmt.New (NLCircle1.iface NLCircle1.mk))) (Fin t)
  = Transform (NLCircle2.iface NLCircle2.mk) (Fin t) /\
  Transform (NLOmt.iface (NLOmt.New (NLSin1.iface NLSin1.mk))) (Fin t)
  = Transform (NLSin2.iface NLSin2.mk) (Fin t).
Proof.
  intros Ht. split.
  - open_curve. cbn [NLOmt.New NLOmt.F]. cbv zeta. open_curve.
    fin1. cbn [ltb Ieee.float64].
    destruct (Rlt_dec 0 (1 - t)) as [Hlt | Hge].
    + rewrite lt_fin_true by assumption.
      destruct (Rlt_dec (1 - t) 1) as [Hl1 | Hg1].
      * rewrite lt_fin_true by assumption. cbn [bind].
        assert (Hs : 0 <= 1 - (1 - t) * (1 - t)) by nra.
        rewrite sqrt_fin by assumption. fin.
        rewrite sqrt_fin by (unfold Q2R; simpl; nra).
        f_equal. f_equal.
        replace (t * (Q2R 2 - t)) with (1 - (1 - t) * (1 - t))
          by (unfold Q2R; simpl; lra).
        lra.
      * rewrite lt_fin_false by lra. cbn [bind]. fin1.
        assert (E : t = 0) by lra. subst t.
        replace (0 * (Q2R 2 - 0)) with 0 by lra.
        rewrite sqrt_fin by lra. rewrite sqrt_0. f_equal. f_equal. lra.
    + rewrite lt_fin_false by lra.
      assert (E : t = 1) by lra. subst t.
      replace (1 * (Q2R 2 - 1)) with 1 by (unfold Q2R; simpl; lra).
      rewrite sqrt_fin by lra. rewrite sqrt_1. reflexivity.
  - open_curve. cbn [NLOmt.New NLOmt.F]. cbv zeta. open_curve.
    fin1. cbn [ltb Ieee.float64].
    assert (H2 : Q2R 2 <> 0) by (unfold Q2R; simpl; lra).
    destruct (Rlt_dec 0 (1 - t)) as [Hlt | Hge].
    + rewrite lt_fin_true by assumption.
      rewrite !div_fin by assumption. fin. cbn [bind]. fin1.
      f_equal. f_equal.
      replace ((t - 1) * PI / Q2R 2) with (- ((1 - t) * PI / Q2R 2))
        by (field; assumption).
      rewrite sin_neg. lra.
    + rewrite lt_fin_false by lra.
      assert (E : t = 1) by lra. subst t.
      rewrite div_fin by assumption. fin.
      replace ((1 - 1) * PI / Q2R 2) with 0 by (field; assumption).
      rewrite sin_0. f_equal. f_equal. lra.
Qed.

Lemma reflected_pairs_witness :
  Transform (NLOmt.iface (NLOmt.New (NLCircle1.iface NLCircle1.mk)))
    (Fin (1 / 2))
  = Transform (NLCircle2.iface NLCircle2.mk) (Fin (1 / 2)) /\
  Transform (NLOmt.iface (NLOmt.New (NLSin1.iface NLSin1.mk))) (Fin (1 / 2))
  = Transform (NLSin2.iface NLSin2.mk) (Fin (1 / 2)).
Proof.
  apply (@reflected_pairs (1 / 2)). lra.
Defined.

(** X10: the two Circle curves are inverse to each other on [0,1]: the
    InvTransform of each is the Transform of the other. *)
Theorem Circle_curves_inverse (v : R) :
  0 <= v <= 1 ->
  InvTransform (NLCircle1.iface NLCircle1.mk) (Fin v)
  = Transform (NLCircle2.iface NLCircle2.mk) (Fin v) /\
  InvTransform (NLCircle2.iface NLCircle2.mk) (Fin v)
  = Transform (NLCircle1.iface NLCircle1.mk) (Fin v).
Proof.
  intros Hv. split; open_curve; fin1; cbn [ltb Ieee.float64].
  - destruct (Rlt_dec v 1) as [Hlt | Hge].
    + rewrite lt_fin_true by assumption.
      do 3 f_equal. unfold Q2R; simpl. lra.
    + rewrite lt_fin_false by lra.
      assert (E : v = 1) by lra. subst v.
      replace (1 * (Q2R 2 - 1)) with 1 by (unfold Q2R; simpl; lra).
      rewrite sqrt_fin by lra. rewrite sqrt_1. reflexivity.
  - destruct (Rlt_dec v 1) as [Hlt | Hge].
    + rewrite lt_fin_true by assumption. reflexivity.
    + rewrite lt_fin_false by lra.
      assert (E : v = 1) by lra. subst v.
      replace (1 - 1 * 1) with 0 by lra.
      rewrite sqrt_fin by lra. rewrite sqrt_0. fin. f_equal. f_equal. lra.
Qed.

Lemma Circle_curves_inverse_witness :
  InvTransform (NLCircle1.iface NLCircle1.mk) (Fin (1 / 2))
  = Transform (NLCircle2.iface NLCircle2.mk) (Fin (1 / 2)) /\
  InvTransform (NLCircle2.iface NLCircle2.mk) (Fin (1 / 2))
  = Transform (NLCircle1.iface NLCircle1.mk) (Fin (1 / 2)).
Proof.
  apply (@Circle_curves_inverse (1 / 2)). lra.
Defined.

(** ** Exponential and Logarithmic *)

(** X11: the Logarithmic curve built with rate exp(k) - 1 is the inverse
    curve of the Exponential curve built with rate k: on [0,1] the
    InvTransform of each is the Transform of the other. *)
Theorem Logarithmic_inverts_Exponential (k v : R) :
  k <> 0 -> 0 <= v <= 1 ->
  InvTransform (NLExponential.iface (NLExponential.New (Fin k))) (Fin v)
  = Transform
      (NLLogarithmic.iface
         (NLLogarithmic.New (Exp (Fin k) - lit 1)%f64)) (Fin v) /\
  InvTransform
    (NLLogarithmic.iface (NLLogarithmic.New (Exp (Fin k) - lit 1)%f64))
    (Fin v)
  = Transform (NLExponential.iface (NLExponential.New (Fin k))) (Fin v).
Proof.
  intros Hk Hv.
  pose proof (exp_neq_1 Hk) as He. pose proof (exp_pos k) as Hp.
  assert (H1 : Q2R 1 = 1) by (unfold Q2R; simpl; lra).
  assert (Hd : exp k - 1 <> 0) by lra.
  assert (Hs : 1 / (exp k - 1) <> 0).
  { unfold Rdiv. rewrite Rmult_1_l. apply Rinv_neq_0_compat. assumption. }
  assert (Hl : -1 < exp k - 1) by lra.
  assert (Hlk : ln (1 + (exp k - 1)) = k).
  { replace (1 + (exp k - 1)) with (exp k) by lra. apply ln_exp. }
  assert (Hk1 : 1 / k <> 0).
  { unfold Rdiv. rewrite Rmult_1_l. apply Rinv_neq_0_compat. assumption. }
  assert (Hm : -1 < v * (exp k - 1)).
  { destruct (Rle_dec 1 (exp k)); nra. }
  split; open_curve;
    cbn [NLExponential.New NLExponential.K NLExponential.Scale
         NLLogarithmic.New NLLogarithmic.K NLLogarithmic.Scale]; fin;
    rewrite !H1; rewrite (log1p_fin Hl), Hlk; rewrite !(div_fin _ Hd); fin.
  - rewrite (div_fin _ Hs), (div_fin _ Hk).
    replace (v / (1 / (exp k - 1))) with (v * (exp k - 1))
      by (field; lra).
    rewrite (log1p_fin Hm), (div_fin _ Hk). fin.
    f_equal. f_equal. field. assumption.
  - rewrite (div_fin _ Hk), (div_fin _ Hk1). fin. rewrite (div_fin _ Hd).
    f_equal. f_equal.
    replace (v / (1 / k)) with (v * k) by (field; lra).
    field. assumption.
Qed.

Lemma Logarithmic_inverts_Exponential_witness :
  InvTransform (NLExponential.iface (NLExponential.New (Fin 10)))
    (Fin (1 / 2))
  = Transform
      (NLLogarithmic.iface
         (NLLogarithmic.New (Exp (Fin 10) - lit 1)%f64)) (Fin (1 / 2)) /\
  InvTransform
    (NLLogarithmic.iface (NLLogarithmic.New (Exp (Fin 10) - lit 1)%f64))
    (Fin (1 / 2))
  = Transform (NLExponential.iface (NLExponential.New (Fin 10)))
      (Fin (1 / 2)).
Proof.
  apply (@Logarithmic_inverts_Exponential 10 (1 / 2)); lra.
Defined.

(** ** The Gauss curve with a negative rate *)

(** X12: over the reals (in exact arithmetic), the Gauss curve depends on
    the square of its rate only, but its inverse divides by the rate
    itself: for k < 0 and t in [0,1] the Transform is that of the rate -k,
    and InvTransform(Transform(t)) is 2 - t instead of t. *)
Theorem Gauss_negative_rate (k t : R) :
  k < 0 -> 0 <= t <= 1 ->
  Transform (NLGauss.iface (NLGauss.New (Fin k))) (Fin t)
  = Transform (NLGauss.iface (NLGauss.New (Fin (- k)))) (Fin t) /\
  (v <- Transform (NLGauss.iface (NLGauss.New (Fin k))) (Fin t) ;;
   InvTransform (NLGauss.iface (NLGauss.New (Fin k))) v)
  = Val (Fin (2 - t)).
Proof.
  intros Hk Ht.
  assert (Hkk : 0 < k * k) by nra.
  assert (Ho : exp (- k * k * Q2R 0.5) <> 1).
  { apply exp_neq_1. unfold Q2R; simpl. lra. }
  assert (Eo : exp (- - k * - k * Q2R 0.5) = exp (- k * k * Q2R 0.5))
    by (f_equal; lra).
  split.
  - open_curve.
    cbn [NLGauss.New NLGauss.K NLGauss.Offs NLGauss.Scale]; cbv zeta; fin.
    rewrite Eo.
    set (o := exp (- k * k * Q2R 0.5)) in *.
    assert (Hq : Q2R 1 - o <> 0) by (unfold Q2R; simpl; lra).
    rewrite div_fin by assumption. fin.
    do 5 f_equal. ring.
  - set (o := exp (- k * k * Q2R 0.5)) in *.
    assert (Hq : Q2R 1 - o <> 0) by (unfold Q2R; simpl; lra).
    pose proof (Rinv_scale_neq_0 Hq) as Hs.
    open_curve.
    cbn [NLGauss.New NLGauss.K NLGauss.Offs NLGauss.Scale]; cbv zeta; fin.
    fold o. rewrite div_fin by assumption. fin. cbn [bind]. cbv zeta.
    rewrite div_fin by assumption. fin.
    set (E := k * (t - Q2R 1) * (Q2R (-0.5) * (k * (t - Q2R 1)))).
    replace ((exp E - o) * (Q2R 1 / (Q2R 1 - o)) / (Q2R 1 / (Q2R 1 - o)) + o)
      with (exp E) by (field; split; [| unfold Q2R; simpl]; lra).
    rewrite log_fin by apply exp_pos. rewrite ln_exp. fin.
    replace (E * Q2R (-2)) with (- k * (1 - t) * (- k * (1 - t)))
      by (unfold E, Q2R; simpl; lra).
    assert (Hn : 0 <= - k * (1 - t)) by nra.
    rewrite sqrt_fin by nra. rewrite sqrt_square by assumption.
    rewrite div_fin by lra. fin. fin_eq ltac:(field; lra).
Qed.

Lemma Gauss_negative_rate_witness :
  Transform (NLGauss.iface (NLGauss.New (Fin (-3)))) (Fin (1 / 4))
  = Transform (NLGauss.iface (NLGauss.New (Fin (- -3)))) (Fin (1 / 4)) /\
  (v <- Transform (NLGauss.iface (NLGauss.New (Fin (-3)))) (Fin (1 / 4)) ;;
   InvTransform (NLGauss.iface (NLGauss.New (Fin (-3)))) v)
  = Val (Fin (2 - 1 / 4)).
Proof.
  apply (@Gauss_negative_rate (-3) (1 / 4)); lra.
Defined.

(** ** The logistic function and its inverse *)

(** X13: over the reals (in exact arithmetic), logisticInvTransform undoes
    logisticTransform at every x, and logisticTransform undoes
    logisticInvTransform at every v strictly between 0 and 1. *)
Theorem logistic_inverse (x v : R) :
  0 < v < 1 ->
  logisticInvTransform (logisticTransform (Fin x)) = Fin x /\
  logisticTransform (logisticInvTransform (Fin v)) = Fin v.
Proof.
  intros Hv. split.
  - rewrite logisticTransform_fin. apply logisticInvTransform_sigma.
  - assert (Hq : 0 < 1 / v - 1).
    { assert (1 < / v) by (rewrite <- Rinv_1; apply Rinv_lt_contravar; lra).
      lra. }
    unfold logisticInvTransform. fin1. rewrite div_fin by lra. fin.
    rewrite log_fin by assumption. fin.
    rewrite logisticTransform_fin. f_equal. unfold sigma.
    rewrite Ropp_involutive, exp_ln by assumption. field. lra.
Qed.

Lemma logistic_inverse_witness :
  logisticInvTransform (logisticTransform (Fin 5)) = Fin 5 /\
  logisticTransform (logisticInvTransform (Fin (1 / 4))) = Fin (1 / 4).
Proof.
  apply (@logistic_inverse 5 (1 / 4)). lra.
Defined.

(** ** Rates and arguments outside the valid ones *)

(** X14: with the rate k = 0 the constructors of Exponential, Logarithmic,
    Gauss and Logistic compute an infinite scale (1/0), and Transform then
    returns NaN (0 * Inf) at every finite t. *)
Theorem zero_rate_is_NaN (t mp : R) :
  (NLExponential.Scale (NLExponential.New (Fin 0)) = PInf /\
   NLLogarithmic.Scale (NLLogarithmic.New (Fin 0)) = PInf /\
   NLGauss.Scale (NLGauss.New (Fin 0)) = PInf /\
   NLLogistic.Scale (NLLogistic.New (Fin 0) (Fin mp)) = PInf) /\
  Transform (NLExponential.iface (NLExponential.New (Fin 0))) (Fin t)
  = Val NaN /\
  Transform (NLLogarithmic.iface (NLLogarithmic.New (Fin 0))) (Fin t)
  = Val NaN /\
  Transform (NLGauss.iface (NLGauss.New (Fin 0))) (Fin t) = Val NaN /\
  Transform (NLLogistic.iface (NLLogistic.New (Fin 0) (Fin mp))) (Fin t)
  = Val NaN.
Proof.
  assert (E0 : forall a, exp (a * 0) - Q2R 1 = 0).
  { intros a. rewrite Rmult_0_r, exp_0. unfold Q2R; simpl; lra. }
  assert (Einf : (Fin (Q2R 1) / Fin 0)%f64 = PInf).
  { cbn. unfold Ieee.inf_sgn, Q2R; simpl. split_R. reflexivity. }
  assert (En : (Fin 0 * PInf)%f64 = NaN).
  { cbn. unfold Ieee.times_inf. split_R. reflexivity. }
  assert (Se : NLExponential.Scale (NLExponential.New (Fin 0)) = PInf).
  { cbn [NLExponential.New NLExponential.Scale]. fin.
    replace (exp 0 - Q2R 1) with 0 by (rewrite exp_0; unfold Q2R; simpl; lra).
    exact Einf. }
  assert (Sl : NLLogarithmic.Scale (NLLogarithmic.New (Fin 0)) = PInf).
  { cbn [NLLogarithmic.New NLLogarithmic.Scale]. fin.
    rewrite log1p_fin by lra. replace (1 + 0) with 1 by lra.
    rewrite ln_1. exact Einf. }
  assert (Sg : NLGauss.Scale (NLGauss.New (Fin 0)) = PInf).
  { cbn [NLGauss.New NLGauss.Scale]; cbv zeta; fin.
    replace (- 0 * 0 * Q2R 0.5) with 0 by lra. rewrite exp_0.
    replace (Q2R 1 - 1) with 0 by (unfold Q2R; simpl; lra).
    exact Einf. }
  assert (So : NLLogistic.Scale (NLLogistic.New (Fin 0) (Fin mp)) = PInf).
  { cbn [NLLogistic.New NLLogistic.Scale]; cbv zeta; fin.
    rewrite !logisticTransform_fin. fin.
    replace (- mp * 0) with 0 by lra.
    replace ((Q2R 1 - mp) * 0) with 0 by lra.
    replace (sigma 0 - sigma 0) with 0 by lra.
    exact Einf. }
  split; [repeat split; assumption |].
  split; [| split; [| split]]; open_curve.
  - rewrite Se. cbn [NLExponential.New NLExponential.K]. fin.
    rewrite E0, En. reflexivity.
  - rewrite Sl. cbn [NLLogarithmic.New NLLogarithmic.K]. fin.
    rewrite log1p_fin by lra. replace (1 + t * 0) with 1 by lra.
    rewrite ln_1, En. reflexivity.
  - cbv zeta. rewrite Sg. cbn [NLGauss.New NLGauss.K NLGauss.Offs]. fin.
    replace (- 0 * 0 * Q2R 0.5) with 0 by lra.
    replace (0 * (t - Q2R 1) * (Q2R (-0.5) * (0 * (t - Q2R 1)))) with 0 by lra.
    rewrite exp_0. replace (1 - 1) with 0 by lra.
    rewrite En. reflexivity.
  - cbv zeta. rewrite So.
    cbn [NLLogistic.New NLLogistic.K NLLogistic.Mp NLLogistic.Offs]. fin.
    rewrite !logisticTransform_fin. fin.
    replace (- mp * 0) with 0 by lra.
    replace ((t - mp) * 0) with 0 by lra.
    replace (sigma 0 - sigma 0) with 0 by lra.
    rewrite En. reflexivity.
Qed.

(** X15: the inverses of Square and Cube return NaN for every negative
    argument (math.Sqrt of a negative number; math.Pow of a negative base
    with the exponent 1/3, which is not an integer), although the cube of a
    negative number is negative. *)
Theorem negative_inverse_is_NaN (v : R) :
  v < 0 ->
  InvTransform (NLSquare.iface NLSquare.mk) (Fin v) = Val NaN /\
  InvTransform (NLCube.iface NLCube.mk) (Fin v) = Val NaN /\
  Transform (NLCube.iface NLCube.mk) (Fin v) = Val (Fin (v * v * v)).
Proof.
  intros Hv. split; [| split]; open_curve.
  - cbn. split_R. reflexivity.
  - fin. f_equal.
    assert (H3 : Q2R (1 # 3) = 1 / 3) by (unfold Q2R; simpl; lra).
    rewrite H3.
    cbn [Pow Ieee.math Ieee.pow]. split_R.
    unfold Ieee.pow_fin. split_R.
    unfold Ieee.is_int.
    destruct (Req_dec_T (1 / 3) (IZR (Int_part (1 / 3)))) as [E | _];
      [| reflexivity].
    exfalso.
    assert (Hi : Int_part (1 / 3) = 0%Z).
    { symmetry. apply Int_part_spec. simpl. lra. }
    rewrite Hi in E. simpl in E. lra.
  - fin. reflexivity.
Qed.

Lemma negative_inverse_is_NaN_witness :
  InvTransform (NLSquare.iface NLSquare.mk) (Fin (-8)) = Val NaN /\
  InvTransform (NLCube.iface NLCube.mk) (Fin (-8)) = Val NaN /\
  Transform (NLCube.iface NLCube.mk) (Fin (-8)) = Val (Fin (-8 * -8 * -8)).
Proof.
  apply (@negative_inverse_is_NaN (-8)). lra.
Defined.

(** ** NLerp, InvNLerp and RemapNL on the curves of the package *)

Lemma library_endpoints (c : NonLinear ieee) : library_curve c -> endpoints c.
Proof.
  intros H. induction H;
    auto using endpoints_Linear, endpoints_Square, endpoints_Cube,
      endpoints_Exponential, endpoints_Logarithmic, endpoints_Sin,
      endpoints_Sin1, endpoints_Sin2, endpoints_Circle1, endpoints_Circle2,
      endpoints_Lame, endpoints_Catenary, endpoints_Gauss,
      endpoints_Logistic, endpoints_P3, endpoints_P5, endpoints_Compound_nil,
      endpoints_Compound_cons, endpoints_Omt, endpoints_Stopped.
Qed.

Lemma NLerp_below (c : NonLinear ieee) (t a b : R) :
  t < 0 -> NLerp (Fin t) (Fin a) (Fin b) c = Val (Fin a).
Proof.
  intros Ht. unfold NLerp. rewrite lit_0. cbn [ltb Ieee.float64].
  rewrite lt_fin_true by assumption. reflexivity.
Qed.

Lemma NLerp_above (c : NonLinear ieee) (t a b : R) :
  1 < t -> NLerp (Fin t) (Fin a) (Fin b) c = Val (Fin b).
Proof.
  intros Ht. unfold NLerp. rewrite lit_0, lit_1. cbn [ltb Ieee.float64].
  rewrite lt_fin_false by lra. rewrite lt_fin_true by assumption.
  reflexivity.
Qed.

Lemma NLerp_unit (c : NonLinear ieee) (t a b w : R) :
  0 <= t <= 1 -> Transform c (Fin t) = Val (Fin w) ->
  NLerp (Fin t) (Fin a) (Fin b) c = Val (Fin ((1 - w) * a + w * b)).
Proof.
  intros Ht Hw. unfold NLerp. rewrite lit_0, lit_1. cbn [ltb Ieee.float64].
  rewrite !lt_fin_false by lra. rewrite Hw. cbn [bind]. fin. reflexivity.
Qed.

Lemma InvNLerp_unit (c : NonLinear ieee) (v s e : R) :
  s <> e -> 0 <= (v - s) / (e - s) <= 1 ->
  InvNLerp (Fin v) (Fin s) (Fin e) c = InvTransform c (Fin ((v - s) / (e - s))).
Proof.
  intros Hse Hu. unfold InvNLerp. cbv zeta. fin1.
  rewrite div_fin by lra. cbn [ltb Ieee.float64].
  rewrite !lt_fin_false by lra. reflexivity.
Qed.

Lemma InvNLerp_below (c : NonLinear ieee) (v s e : R) :
  s <> e -> (v - s) / (e - s) < 0 ->
  InvNLerp (Fin v) (Fin s) (Fin e) c = Val (Fin 0).
Proof.
  intros Hse Hu. unfold InvNLerp. cbv zeta. fin1.
  rewrite div_fin by lra. cbn [ltb Ieee.float64].
  rewrite lt_fin_true by lra. reflexivity.
Qed.

Lemma InvNLerp_above (c : NonLinear ieee) (v s e : R) :
  s <> e -> 1 < (v - s) / (e - s) ->
  InvNLerp (Fin v) (Fin s) (Fin e) c = Val (Fin 1).
Proof.
  intros Hse Hu. unfold InvNLerp. cbv zeta. fin1.
  rewrite div_fin by lra. cbn [ltb Ieee.float64].
  rewrite lt_fin_false by lra. rewrite lt_fin_true by lra. reflexivity.
Qed.

(** The sign of a quotient, and its place with respect to 1. *)
Lemma quotient_sign (n d : R) :
  d <> 0 ->
  (0 < n * d -> 0 < n / d) /\ (n * d < 0 -> n / d < 0) /\
  (n = 0 -> n / d = 0).
Proof.
  intros Hd.
  assert (Hi : 0 < / d * / d).
  { pose proof (Rinv_neq_0_compat d Hd).
    destruct (Rtotal_order (/ d) 0) as [? | [? | ?]]; nra. }
  assert (E : n / d = n * d * (/ d * / d)) by (field; assumption).
  rewrite E. repeat split; intros; subst; nra.
Qed.

Lemma quotient_bounds (v s e : R) :
  s <> e ->
  ((v - s) * (e - s) < 0 -> (v - s) / (e - s) < 0) /\
  ((v - e) * (e - s) > 0 -> 1 < (v - s) / (e - s)) /\
  (0 <= (v - s) * (e - s) -> (v - e) * (e - s) <= 0 ->
   0 <= (v - s) / (e - s) <= 1).
Proof.
  intros Hse.
  assert (Hd : e - s <> 0) by lra.
  assert (E1 : (v - s) / (e - s) - 1 = (v - e) / (e - s)) by (field; lra).
  destruct (@quotient_sign (v - s) (e - s) Hd) as (Hp & Hn & Hz).
  destruct (@quotient_sign (v - e) (e - s) Hd) as (Hp' & Hn' & Hz').
  split; [exact Hn |]. split.
  - intros H. apply Hp' in H. lra.
  - intros H0 H1. split.
    + destruct H0 as [H0 | H0]; [apply Hp in H0; lra |].
      symmetry in H0. apply Rmult_integral in H0. destruct H0 as [H0 | H0];
        [rewrite (Hz H0); lra | lra].
    + destruct H1 as [H1 | H1]; [apply Hn' in H1; lra |].
      apply Rmult_integral in H1. destruct H1 as [H1 | H1];
        [rewrite (Hz' H1) in E1; lra | lra].
Qed.

(** X16: for every curve of the package (valid parameters, well-formed
    stops) NLerp returns start at t = 0 and end at t = 1, exactly over the
    reals. *)
Theorem NLerp_endpoints (c : NonLinear ieee) (a b : R) :
  library_curve c ->
  NLerp (Fin 0) (Fin a) (Fin b) c = Val (Fin a) /\
  NLerp (Fin 1) (Fin a) (Fin b) c = Val (Fin b).
Proof.
  intros Hc. destruct (library_endpoints Hc) as [H0 H1]. split.
  - rewrite (@NLerp_unit c 0 a b 0) by (lra || assumption).
    f_equal. f_equal. lra.
  - rewrite (@NLerp_unit c 1 a b 1) by (lra || assumption).
    f_equal. f_equal. lra.
Qed.

Lemma NLerp_endpoints_witness :
  NLerp (Fin 0) (Fin 2) (Fin 7)
    (NLStopped.iface (NLStopped.New (stops_of two_stops))) = Val (Fin 2) /\
  NLerp (Fin 1) (Fin 2) (Fin 7)
    (NLStopped.iface (NLStopped.New (stops_of two_stops))) = Val (Fin 7).
Proof.
  apply (@NLerp_endpoints
           (NLStopped.iface (NLStopped.New (stops_of two_stops))) 2 7).
  apply pc_Stopped, well_formed_inner. exact two_stops_well_formed.
Defined.

(** X17: over the reals (in exact arithmetic), for a curve of the package
    built without a stopped curve and start <= end, NLerp stays between
    start and end and does not decrease in t, for every t (below 0 and
    above 1 included). *)
Theorem NLerp_monotone (c : NonLinear ieee) (a b t1 t2 : R) :
  unstopped_curve c -> a <= b -> t1 <= t2 ->
  exists r1 r2,
    NLerp (Fin t1) (Fin a) (Fin b) c = Val (Fin r1) /\
    NLerp (Fin t2) (Fin a) (Fin b) c = Val (Fin r2) /\
    a <= r1 /\ r1 <= r2 /\ r2 <= b.
Proof.
  intros Hc Hab Ht.
  destruct (unstopped_curve_increasing Hc) as (He & g & Hg & Hm).
  pose proof (@increasing_range c g He Hg Hm) as Hr.
  set (nl := fun t => if Rlt_dec t 0 then a
                      else if Rlt_dec 1 t then b
                      else (1 - g t) * a + g t * b).
  assert (Hnl : forall t, NLerp (Fin t) (Fin a) (Fin b) c = Val (Fin (nl t))).
  { intros t. unfold nl.
    destruct (Rlt_dec t 0); [apply NLerp_below; assumption |].
    destruct (Rlt_dec 1 t); [apply NLerp_above; assumption |].
    apply NLerp_unit; [lra | apply Hg; lra]. }
  assert (Hin : forall t, a <= nl t <= b).
  { intros t. unfold nl.
    destruct (Rlt_dec t 0); [lra |]. destruct (Rlt_dec 1 t); [lra |].
    pose proof (Hr t). nra. }
  exists (nl t1), (nl t2).
  split; [apply Hnl |]. split; [apply Hnl |].
  split; [apply Hin |]. split; [| apply Hin].
  pose proof (Hin t1) as H1. pose proof (Hin t2) as H2. unfold nl in *.
  destruct (Rlt_dec t1 0); [lra |].
  destruct (Rlt_dec t2 0); [lra |].
  destruct (Rlt_dec 1 t2); [lra |].
  destruct (Rlt_dec 1 t1); [lra |].
  pose proof (Hm t1 t2). nra.
Qed.

Lemma NLerp_monotone_witness :
  exists r1 r2,
    NLerp (Fin (1 / 4)) (Fin 2) (Fin 7) (NLSin.iface NLSin.mk) = Val (Fin r1) /\
    NLerp (Fin 3) (Fin 2) (Fin 7) (NLSin.iface NLSin.mk) = Val (Fin r2) /\
    2 <= r1 /\ r1 <= r2 /\ r2 <= 7.
Proof.
  apply (@NLerp_monotone (NLSin.iface NLSin.mk) 2 7 (1 / 4) 3).
  - apply pc_Sin.
  - lra.
  - lra.
Defined.

(** X18: over the reals (in exact arithmetic), with start < end, InvNLerp
    returns 0 for v < start and 1 for v > end without calling the curve,
    and applies the curve's InvTransform to (v - start) / (end - start) for
    v in between; with start > end the range is read downwards: 0 for
    v > start, 1 for v < end. *)
Theorem InvNLerp_bounds (c : NonLinear ieee) (v s e : R) :
  (s < e ->
   (v < s -> InvNLerp (Fin v) (Fin s) (Fin e) c = Val (Fin 0)) /\
   (e < v -> InvNLerp (Fin v) (Fin s) (Fin e) c = Val (Fin 1)) /\
   (s <= v <= e ->
    InvNLerp (Fin v) (Fin s) (Fin e) c
    = InvTransform c (Fin ((v - s) / (e - s))))) /\
  (e < s ->
   (s < v -> InvNLerp (Fin v) (Fin s) (Fin e) c = Val (Fin 0)) /\
   (v < e -> InvNLerp (Fin v) (Fin s) (Fin e) c = Val (Fin 1)) /\
   (e <= v <= s ->
    InvNLerp (Fin v) (Fin s) (Fin e) c
    = InvTransform c (Fin ((v - s) / (e - s))))).
Proof.
  split; intros Hse;
    (assert (Hne : s <> e) by lra);
    destruct (@quotient_bounds v s e Hne) as (Hlo & Hhi & Hmid);
    (split; [| split]); intros Hv.
  - apply InvNLerp_below; [assumption | apply Hlo; nra].
  - apply InvNLerp_above; [assumption | apply Hhi; nra].
  - apply InvNLerp_unit; [assumption | apply Hmid; nra].
  - apply InvNLerp_below; [assumption | apply Hlo; nra].
  - apply InvNLerp_above; [assumption | apply Hhi; nra].
  - apply InvNLerp_unit; [assumption | apply Hmid; nra].
Qed.

Lemma InvNLerp_bounds_witness :
  InvNLerp (Fin 1) (Fin 2) (Fin 7) panicking = Val (Fin 0) /\
  InvNLerp (Fin 9) (Fin 2) (Fin 7) panicking = Val (Fin 1) /\
  InvNLerp (Fin 3) (Fin 2) (Fin 7) (NLSquare.iface NLSquare.mk)
  = InvTransform (NLSquare.iface NLSquare.mk) (Fin ((3 - 2) / (7 - 2))) /\
  InvNLerp (Fin 9) (Fin 7) (Fin 2) panicking = Val (Fin 0).
Proof.
  pose proof (@InvNLerp_bounds panicking 1 2 7) as [Ha _].
  pose proof (@InvNLerp_bounds panicking 9 2 7) as [Hb _].
  pose proof (@InvNLerp_bounds (NLSquare.iface NLSquare.mk) 3 2 7) as [Hc _].
  pose proof (@InvNLerp_bounds panicking 9 7 2) as [_ Hd].
  split; [| split; [| split]].
  - apply Ha; lra.
  - apply Hb; lra.
  - apply Hc; lra.
  - apply Hd; lra.
Defined.

Lemma closed_form_endpoints (c : NonLinear ieee) :
  closed_form c -> endpoints c.
Proof.
  intros Hc. apply unstopped_curve_increasing, closed_form_unstopped, Hc.
Qed.

Lemma closed_form_inverse_ends (c : NonLinear ieee) :
  closed_form c ->
  InvTransform c (Fin 0) = Val (Fin 0) /\ InvTransform c (Fin 1) = Val (Fin 1).
Proof.
  intros Hc. destruct (closed_form_endpoints Hc) as [H0 H1].
  split; apply closed_form_inverse_at; (assumption || lra).
Qed.

(** InvNLerp after NLerp, over the same range and curve. *)
Lemma InvNLerp_after_NLerp (c : NonLinear ieee) (t a b : R) :
  closed_form c -> a <> b ->
  (v <- NLerp (Fin t) (Fin a) (Fin b) c ;; InvNLerp v (Fin a) (Fin b) c)
  = Val (Fin (clamp_unit t)).
Proof.
  intros Hc Hab. unfold clamp_unit.
  destruct (closed_form_inverse_ends Hc) as [I0 I1].
  assert (Hd : b - a <> 0) by lra.
  destruct (Rlt_dec t 0) as [Hlt | Hge].
  - rewrite NLerp_below by assumption. cbn [bind].
    rewrite InvNLerp_unit; replace ((a - a) / (b - a)) with 0
      by (field; assumption); (assumption || lra).
  - destruct (Rlt_dec 1 t) as [Hgt | Hle].
    + rewrite NLerp_above by assumption. cbn [bind].
      rewrite InvNLerp_unit; replace ((b - a) / (b - a)) with 1
        by (field; assumption); (assumption || lra).
    + assert (Ht : 0 <= t <= 1) by lra.
      destruct (@unstopped_unit c t (closed_form_unstopped Hc) Ht)
        as (w & Hw & Hr).
      rewrite (@NLerp_unit c t a b w Ht Hw). cbn [bind].
      assert (E : ((1 - w) * a + w * b - a) / (b - a) = w)
        by (field; assumption).
      rewrite InvNLerp_unit by (rewrite ?E; (assumption || lra)).
      rewrite E.
      apply closed_form_inverse_at; assumption.
Qed.

(** X19: InvNLerp undoes NLerp: for a closed-form curve and a range with
    start <> end (ascending or descending), InvNLerp of NLerp(t) over the
    same range and curve is t brought into [0,1], exactly over the
    reals. *)
Theorem InvNLerp_inverts_NLerp (c : NonLinear ieee) (t a b : R) :
  closed_form c -> a <> b ->
  exists v, NLerp (Fin t) (Fin a) (Fin b) c = Val (Fin v) /\
            InvNLerp (Fin v) (Fin a) (Fin b) c = Val (Fin (clamp_unit t)) /\
            (0 <= t <= 1 -> clamp_unit t = t).
Proof.
  intros Hc Hab.
  pose proof (InvNLerp_after_NLerp t Hc Hab) as H.
  assert (Hv : exists v, NLerp (Fin t) (Fin a) (Fin b) c = Val (Fin v)).
  { destruct (Rlt_dec t 0) as [Hlt | Hge];
      [rewrite NLerp_below by assumption; eauto |].
    destruct (Rlt_dec 1 t) as [Hgt | Hle];
      [rewrite NLerp_above by assumption; eauto |].
    assert (Ht : 0 <= t <= 1) by lra.
    destruct (@unstopped_unit c t (closed_form_unstopped Hc) Ht)
      as (w & Hw & _).
    rewrite (@NLerp_unit c t a b w Ht Hw). eauto. }
  destruct Hv as [v Hv]. exists v. rewrite Hv in H. cbn [bind] in H.
  split; [exact Hv |]. split; [exact H |].
  intros Ht. unfold clamp_unit.
  destruct (Rlt_dec t 0); [lra |]. destruct (Rlt_dec 1 t); [lra | reflexivity].
Qed.

Lemma InvNLerp_inverts_NLerp_witness :
  exists v,
    NLerp (Fin (1 / 3)) (Fin 7) (Fin 2)
      (NLLame.iface (NLLame.New (Fin 2) (Fin 3))) = Val (Fin v) /\
    InvNLerp (Fin v) (Fin 7) (Fin 2)
      (NLLame.iface (NLLame.New (Fin 2) (Fin 3)))
    = Val (Fin (clamp_unit (1 / 3))) /\
    (0 <= 1 / 3 <= 1 -> clamp_unit (1 / 3) = 1 / 3).
Proof.
  apply (@InvNLerp_inverts_NLerp
           (NLLame.iface (NLLame.New (Fin 2) (Fin 3))) (1 / 3) 7 2).
  - apply cf_Lame; lra.
  - lra.
Defined.

(** X20: over the reals (in exact arithmetic), with istart < iend, RemapNL
    maps every v below istart to ostart and every v above iend to oend, for
    every output curve of the package built with valid parameters; the
    input curve is not called (it may be one that panics). *)
Theorem RemapNL_clamps (fi fo : NonLinear ieee) (v a b c d : R) :
  library_curve fo -> a < b ->
  (v < a -> RemapNL (Fin v) (Fin a) (Fin b) (Fin c) (Fin d) fi fo
            = Val (Fin c)) /\
  (b < v -> RemapNL (Fin v) (Fin a) (Fin b) (Fin c) (Fin d) fi fo
            = Val (Fin d)).
Proof.
  intros Hfo Hab.
  destruct (library_endpoints Hfo) as [H0 H1].
  assert (Hne : a <> b) by lra.
  destruct (@quotient_bounds v a b Hne) as (Hlo & Hhi & _).
  unfold RemapNL. split; intros Hv.
  - rewrite InvNLerp_below by (assumption || (apply Hlo; nra)). cbn [bind].
    rewrite (@NLerp_unit fo 0 c d 0) by (lra || assumption).
    f_equal. f_equal. lra.
  - rewrite InvNLerp_above by (assumption || (apply Hhi; nra)). cbn [bind].
    rewrite (@NLerp_unit fo 1 c d 1) by (lra || assumption).
    f_equal. f_equal. lra.
Qed.

Lemma RemapNL_clamps_witness :
  RemapNL (Fin 1) (Fin 2) (Fin 7) (Fin 10) (Fin 20) panicking
    (NLP3.iface NLP3.mk) = Val (Fin 10) /\
  RemapNL (Fin 9) (Fin 2) (Fin 7) (Fin 10) (Fin 20) panicking
    (NLP3.iface NLP3.mk) = Val (Fin 20).
Proof.
  pose proof (@RemapNL_clamps panicking (NLP3.iface NLP3.mk) 1 2 7 10 20)
    as [Ha _]; [apply pc_P3 | lra |].
  pose proof (@RemapNL_clamps panicking (NLP3.iface NLP3.mk) 9 2 7 10 20)
    as [_ Hb]; [apply pc_P3 | lra |].
  split; [apply Ha | apply Hb]; lra.
Defined.

(** X21: over the reals (in exact arithmetic), RemapNL carries the
    interpolation over one range to the interpolation over another: the
    value NLerp gives at t in [0,1] over [istart, iend] (istart <> iend)
    with a closed-form curve fi is remapped to the value NLerp gives at the
    same t over [ostart, oend] with the curve fo, whatever fo is. *)
Theorem RemapNL_of_NLerp (fi fo : NonLinear ieee) (t a b c d : R) :
  closed_form fi -> a <> b -> 0 <= t <= 1 ->
  (v <- NLerp (Fin t) (Fin a) (Fin b) fi ;;
   RemapNL v (Fin a) (Fin b) (Fin c) (Fin d) fi fo)
  = NLerp (Fin t) (Fin c) (Fin d) fo.
Proof.
  intros Hfi Hab Ht. unfold RemapNL.
  rewrite <- bind_assoc.
  rewrite (InvNLerp_after_NLerp t Hfi Hab). cbn [bind].
  unfold clamp_unit.
  destruct (Rlt_dec t 0); [lra |]. destruct (Rlt_dec 1 t); [lra | reflexivity].
Qed.

Lemma RemapNL_of_NLerp_witness :
  (v <- NLerp (Fin (1 / 4)) (Fin 2) (Fin 7) (NLSquare.iface NLSquare.mk) ;;
   RemapNL v (Fin 2) (Fin 7) (Fin 10) (Fin 20) (NLSquare.iface NLSquare.mk)
     (NLP5.iface NLP5.mk))
  = NLerp (Fin (1 / 4)) (Fin 10) (Fin 20) (NLP5.iface NLP5.mk).
Proof.
  apply (@RemapNL_of_NLerp (NLSquare.iface NLSquare.mk) (NLP5.iface NLP5.mk)
           (1 / 4) 2 7 10 20).
  - apply cf_Square.
  - lra.
  - lra.
Defined.

(** ** The S-shaped curves *)

(** X22: the curves Sin, P3 and P5 are symmetric about (1/2, 1/2): on
    [0,1] each is its own reflection. *)
Theorem S_curves_self_reflected (t : R) :
  0 <= t <= 1 ->
  Transform (NLOmt.iface (NLOmt.New (NLSin.iface NLSin.mk))) (Fin t)
  = Transform (NLSin.iface NLSin.mk) (Fin t) /\
  Transform (NLOmt.iface (NLOmt.New (NLP3.iface NLP3.mk))) (Fin t)
  = Transform (NLP3.iface NLP3.mk) (Fin t) /\
  Transform (NLOmt.iface (NLOmt.New (NLP5.iface NLP5.mk))) (Fin t)
  = Transform (NLP5.iface NLP5.mk) (Fin t).
Proof.
  intros Ht.
  assert (Hom : forall f : NonLinear ieee,
             Transform (NLOmt.iface (NLOmt.New f)) (Fin t)
             = if Rlt_dec 0 (1 - t)
               then r <- Transform f (Fin (1 - t)) ;; Val (lit 1 - r)%f64
               else Val (Fin 1)).
  { intros f. cbn [Transform NLOmt.iface]. unfold NLOmt.Transform.
    cbn [NLOmt.New NLOmt.F]. cbv zeta.
    rewrite lit_1, lit_0, sub_fin. cbn [ltb Ieee.float64 Ieee.lt].
    destruct (Rlt_dec 0 (1 - t)); reflexivity. }
  rewrite !Hom.
  cbn [Transform NLP3.iface NLP5.iface NLSin.iface].
  rewrite !NLP3_Transform_fin, !NLP5_Transform_fin.
  assert (H2 : Q2R 2 <> 0) by (unfold Q2R; simpl; lra).
  assert (HS : forall y, NLSin.Transform NLSin.mk (Fin y)
                         = Val (Fin ((sin ((y - 1 / 2) * PI) + 1) / 2))).
  { intros y. unfold NLSin.Transform. fin. rewrite div_fin by assumption.
    do 2 f_equal. unfold Q2R; simpl.
    replace (5 * / 10) with (1 / 2) by lra. lra. }
  rewrite !HS.
  destruct (Rlt_dec 0 (1 - t)) as [Hlt | Hge]; cbn [bind]; fin1.
  - split; [| split]; do 2 f_equal.
    + replace ((1 - t - 1 / 2) * PI) with (- ((t - 1 / 2) * PI)) by lra.
      rewrite sin_neg. lra.
    + unfold p3. ring.
    + unfold p5. ring.
  - assert (E : t = 1) by lra. subst t.
    split; [| split]; do 2 f_equal.
    + replace ((1 - 1 / 2) * PI) with (PI / 2) by lra.
      rewrite sin_PI2. lra.
    + unfold p3. ring.
    + unfold p5. ring.
Qed.

Lemma S_curves_self_reflected_witness :
  Transform (NLOmt.iface (NLOmt.New (NLSin.iface NLSin.mk))) (Fin (1 / 3))
  = Transform (NLSin.iface NLSin.mk) (Fin (1 / 3)) /\
  Transform (NLOmt.iface (NLOmt.New (NLP3.iface NLP3.mk))) (Fin (1 / 3))
  = Transform (NLP3.iface NLP3.mk) (Fin (1 / 3)) /\
  Transform (NLOmt.iface (NLOmt.New (NLP5.iface NLP5.mk))) (Fin (1 / 3))
  = Transform (NLP5.iface NLP5.mk) (Fin (1 / 3)).
Proof.
  apply (@S_curves_self_reflected (1 / 3)). lra.
Defined.

(** ** Instances of the round trip and of the stopped curve *)

Lemma bisection_round_trip_witness :
  (exists r, (v <- Transform (NLP3.iface NLP3.mk) (Fin (1 / 3)) ;;
              InvTransform (NLP3.iface NLP3.mk) v) = Val (Fin r)
             /\ Rabs (r - 1 / 3) < / 2 ^ 16) /\
  (exists r, (v <- Transform (NLP5.iface NLP5.mk) (Fin (1 / 3)) ;;
              InvTransform (NLP5.iface NLP5.mk) v) = Val (Fin r)
             /\ Rabs (r - 1 / 3) < / 2 ^ 16).
Proof.
  apply (@bisection_round_trip (1 / 3)). lra.
Defined.

Lemma stopped_transform_elsewhere_witness :
  Transform (NLStopped.iface (NLStopped.New (stops_of two_stops)))
    (Fin (3 / 4))
  = Val (Fin (piecewise_linear two_stops (3 / 4))).
Proof.
  apply (@stopped_transform_elsewhere two_stops (3 / 4)).
  - exact two_stops_well_formed.
  - lra.
  - intros p q rest E. injection E as <- <- _. right. simpl. lra.
Defined.

(** ** Every value in [0,1] is reached by a closed-form curve *)

(** A quotient in [0,1]. *)
Lemma div_unit (n d : R) : 0 < d -> 0 <= n <= d -> 0 <= n / d <= 1.
Proof.
  intros Hd Hn. pose proof (Rinv_0_lt_compat d Hd) as Hi.
  assert (E : d * / d = 1) by (apply Rinv_r; lra).
  unfold Rdiv. split; nra.
Qed.

Lemma div_unit_neg (n d : R) : d < 0 -> d <= n <= 0 -> 0 <= n / d <= 1.
Proof.
  intros Hd Hn. replace (n / d) with (- n / - d) by (field; lra).
  apply div_unit; lra.
Qed.

Lemma sqrt_unit (x : R) : 0 <= x <= 1 -> 0 <= sqrt x <= 1.
Proof.
  intros Hx. split; [apply sqrt_pos |].
  apply Rle_trans with (sqrt 1); [apply sqrt_le_1; lra | rewrite sqrt_1; lra].
Qed.

Lemma sqrt_lt_one (x : R) : 0 <= x < 1 -> sqrt x < 1.
Proof.
  intros Hx.
  apply Rlt_le_trans with (sqrt 1); [apply sqrt_lt_1; lra | rewrite sqrt_1; lra].
Qed.

Lemma reaches_Linear (v : R) :
  0 <= v <= 1 -> reaches (NLLinear.iface NLLinear.mk) v.
Proof. intros Hv. exists v. split; [assumption | reflexivity]. Qed.

Lemma reaches_Square (v : R) :
  0 <= v <= 1 -> reaches (NLSquare.iface NLSquare.mk) v.
Proof.
  intros Hv. exists (sqrt v). split.
  - apply sqrt_unit. assumption.
  - open_curve. fin. rewrite sqrt_sqrt by lra. reflexivity.
Qed.

Lemma reaches_Cube (v : R) :
  0 <= v <= 1 -> reaches (NLCube.iface NLCube.mk) v.
Proof.
  intros Hv. destruct (Req_dec_T v 0) as [-> | Hne].
  - exists 0. split; [lra |]. open_curve. fin. fin_eq lra.
  - exists (Rpower v (1 / 3)). split.
    + split; [left; apply Rpower_pos |].
      destruct (Req_dec_T v 1) as [-> |]; [rewrite Rpower_1_l; lra |].
      left. apply Rpower_lt_1; lra.
    + open_curve. fin. rewrite <- Rpower_3 by apply Rpower_pos.
      rewrite Rpower_exp_inv by lra. reflexivity.
Qed.

Lemma reaches_Exponential (k v : R) :
  k <> 0 -> 0 <= v <= 1 ->
  reaches (NLExponential.iface (NLExponential.New (Fin k))) v.
Proof.
  intros Hk Hv.
  pose proof (exp_neq_1 Hk) as He. pose proof (exp_pos k) as Hp.
  assert (H1 : Q2R 1 = 1) by (unfold Q2R; simpl; lra).
  assert (Hd : exp k - 1 <> 0) by lra.
  set (a := 1 + v * (exp k - 1)).
  assert (Ha : 0 < a) by (unfold a; destruct (Rle_dec 1 (exp k)); nra).
  exists (ln a / k). split.
  - (* ln a lies between 0 and k *)
    assert (Hk0 : ln (exp k) = k) by apply ln_exp.
    destruct (Rlt_dec 0 k) as [Hpos | Hneg].
    + assert (1 < exp k) by (rewrite <- exp_0; apply exp_increasing; lra).
      assert (H0 : 0 <= ln a) by (rewrite <- ln_1; apply ln_le; unfold a; nra).
      assert (H2 : ln a <= k) by (rewrite <- Hk0; apply ln_le; unfold a; nra).
      apply div_unit; lra.
    + assert (Hk' : k < 0) by lra.
      assert (exp k < 1) by (rewrite <- exp_0; apply exp_increasing; lra).
      assert (H0 : ln a <= 0) by (rewrite <- ln_1; apply ln_le; unfold a; nra).
      assert (H2 : k <= ln a) by (rewrite <- Hk0; apply ln_le; unfold a; nra).
      apply div_unit_neg; lra.
  - open_curve.
    cbn [NLExponential.New NLExponential.K NLExponential.Scale]. fin.
    rewrite !H1. rewrite div_fin by assumption. fin.
    replace (ln a / k * k) with (ln a) by (field; assumption).
    rewrite exp_ln by assumption. do 2 f_equal. unfold a. field. assumption.
Qed.

Lemma reaches_Logarithmic (k v : R) :
  k <> 0 -> -1 < k -> 0 <= v <= 1 ->
  reaches (NLLogarithmic.iface (NLLogarithmic.New (Fin k))) v.
Proof.
  intros Hk Hk1 Hv.
  assert (H1 : Q2R 1 = 1) by (unfold Q2R; simpl; lra).
  assert (Hl : ln (1 + k) <> 0) by (apply ln_neq_0; lra).
  set (L := ln (1 + k)) in *.
  assert (HeL : exp L = 1 + k) by (apply exp_ln; lra).
  pose proof (exp_pos (v * L)) as Hp.
  exists ((exp (v * L) - 1) / k). split.
  - destruct (Rlt_dec 0 k) as [Hpos | Hneg].
    + assert (HL : 0 < L).
      { unfold L. rewrite <- ln_1. apply ln_increasing; lra. }
      assert (1 <= exp (v * L)) by (rewrite <- exp_0; apply exp_le; nra).
      assert (exp (v * L) <= exp L) by (apply exp_le; nra).
      apply div_unit; lra.
    + assert (HL : L < 0).
      { unfold L. rewrite <- ln_1. apply ln_increasing; lra. }
      assert (exp (v * L) <= 1) by (rewrite <- exp_0; apply exp_le; nra).
      assert (exp L <= exp (v * L)) by (apply exp_le; nra).
      apply div_unit_neg; lra.
  - open_curve.
    cbn [NLLogarithmic.New NLLogarithmic.K NLLogarithmic.Scale]. fin.
    rewrite !H1.
    replace ((exp (v * L) - 1) / k * k) with (exp (v * L) - 1)
      by (field; assumption).
    rewrite !log1p_fin by lra. fold L.
    replace (1 + (exp (v * L) - 1)) with (exp (v * L)) by lra.
    rewrite ln_exp, div_fin by assumption. fin.
    do 2 f_equal. field. assumption.
Qed.

Lemma asin_nonneg (x : R) : 0 <= x <= 1 -> 0 <= asin x <= PI / 2.
Proof.
  intros Hx. pose proof (asin_bound x) as Hb. split; [| lra].
  destruct (Rle_dec 0 (asin x)) as [| Hn]; [assumption | exfalso].
  pose proof PI_RGT_0.
  assert (Hs : sin (asin x) < 0) by (apply sin_lt_0_var; lra).
  rewrite sin_asin in Hs by lra. lra.
Qed.

Lemma asin_nonpos (x : R) : -1 <= x <= 0 -> - (PI / 2) <= asin x <= 0.
Proof.
  intros Hx. destruct (@asin_nonneg (- x)) as [H0 H1]; [lra |].
  rewrite asin_opp in H0, H1. lra.
Qed.

Lemma reaches_Sin (v : R) : 0 <= v <= 1 -> reaches (NLSin.iface NLSin.mk) v.
Proof.
  intros Hv. pose proof PI_RGT_0 as Hpi.
  pose proof (asin_bound (2 * v - 1)) as Hb.
  exists (asin (2 * v - 1) / PI + 1 / 2). split.
  - assert (E : asin (2 * v - 1) / PI + 1 / 2
                = (asin (2 * v - 1) + PI / 2) / PI) by (field; lra).
    rewrite E. apply div_unit; lra.
  - open_curve. fin. rewrite div_fin by (unfold Q2R; simpl; lra).
    do 2 f_equal.
    replace ((asin (2 * v - 1) / PI + 1 / 2 - Q2R 0.5) * PI)
      with (asin (2 * v - 1)) by (unfold Q2R; simpl; field; lra).
    rewrite sin_asin by lra. unfold Q2R; simpl. lra.
Qed.

Lemma reaches_Sin1 (v : R) : 0 <= v <= 1 -> reaches (NLSin1.iface NLSin1.mk) v.
Proof.
  intros Hv. pose proof PI_RGT_0 as Hpi.
  pose proof (asin_nonneg Hv) as Hb.
  exists (asin v / (PI / 2)). split.
  - apply div_unit; lra.
  - open_curve. fin. rewrite div_fin by (unfold Q2R; simpl; lra). fin.
    do 2 f_equal.
    replace (asin v / (PI / 2) * PI / Q2R 2) with (asin v)
      by (unfold Q2R; simpl; field; lra).
    apply sin_asin. lra.
Qed.

Lemma reaches_Sin2 (v : R) : 0 <= v <= 1 -> reaches (NLSin2.iface NLSin2.mk) v.
Proof.
  intros Hv. pose proof PI_RGT_0 as Hpi.
  assert (Hv1 : -1 <= v - 1 <= 0) by lra.
  pose proof (asin_nonpos Hv1) as Hb.
  exists ((asin (v - 1) + PI / 2) / (PI / 2)). split.
  - apply div_unit; lra.
  - open_curve. fin. rewrite div_fin by (unfold Q2R; simpl; lra). fin.
    do 2 f_equal.
    replace (((asin (v - 1) + PI / 2) / (PI / 2) - Q2R 1) * PI / Q2R 2)
      with (asin (v - 1)) by (unfold Q2R; simpl; field; lra).
    rewrite sin_asin by lra. unfold Q2R; simpl. lra.
Qed.

Lemma reaches_Circle1 (v : R) :
  0 <= v <= 1 -> reaches (NLCircle1.iface NLCircle1.mk) v.
Proof.
  intros Hv. destruct (Req_dec_T v 1) as [-> | Hne].
  - exists 1. split; [lra |]. open_curve. rewrite lit_1.
    cbn [ltb Ieee.float64]. rewrite lt_fin_false by lra. reflexivity.
  - assert (Hq : 0 <= 1 - (v - 1) * (v - 1) < 1) by nra.
    pose proof (sqrt_pos (1 - (v - 1) * (v - 1))) as Hs0.
    assert (Hs1 : sqrt (1 - (v - 1) * (v - 1)) < 1)
      by (apply sqrt_lt_one; lra).
    exists (sqrt (1 - (v - 1) * (v - 1))). split; [lra |].
    open_curve. rewrite lit_1. cbn [ltb Ieee.float64].
    rewrite lt_fin_true by assumption. fin.
    rewrite sqrt_sqrt by lra.
    replace (1 - (1 - (v - 1) * (v - 1))) with ((1 - v) * (1 - v)) by lra.
    rewrite sqrt_fin by nra. rewrite sqrt_square by lra. fin. fin_eq lra.
Qed.

Lemma reaches_Circle2 (v : R) :
  0 <= v <= 1 -> reaches (NLCircle2.iface NLCircle2.mk) v.
Proof.
  intros Hv.
  assert (Hq : 0 <= 1 - v * v <= 1) by nra.
  pose proof (sqrt_pos (1 - v * v)) as Hs0.
  assert (Hs1 : sqrt (1 - v * v) <= 1) by (apply sqrt_unit; lra).
  exists (1 - sqrt (1 - v * v)). split; [lra |].
  open_curve. fin.
  replace ((1 - sqrt (1 - v * v)) * (Q2R 2 - (1 - sqrt (1 - v * v))))
    with (1 - sqrt (1 - v * v) * sqrt (1 - v * v))
    by (unfold Q2R; simpl; lra).
  rewrite sqrt_sqrt by lra.
  replace (1 - (1 - v * v)) with (v * v) by lra.
  rewrite sqrt_fin by nra. rewrite sqrt_square by lra. reflexivity.
Qed.

Lemma rpow_unit (a b : R) : 0 <= a <= 1 -> 0 < b -> 0 <= rpow a b <= 1.
Proof.
  intros Ha Hb. split; [apply rpow_nonneg |].
  rewrite <- (rpow_1_l b). apply rpow_le; lra.
Qed.

Lemma rpow_lt_one (a b : R) : 0 <= a < 1 -> 0 < b -> rpow a b < 1.
Proof.
  intros Ha Hb. unfold rpow. destruct (Req_dec_T a 0); [lra |].
  apply Rpower_lt_1; lra.
Qed.

Lemma rpow_pos (a b : R) : 0 < a -> 0 < rpow a b.
Proof.
  intros Ha. unfold rpow. destruct (Req_dec_T a 0); [lra | apply Rpower_pos].
Qed.

Lemma rpow_exp_inv (a b : R) : 0 <= a -> 0 < b -> rpow (rpow a (1 / b)) b = a.
Proof.
  intros Ha Hb. unfold rpow. destruct (Req_dec_T a 0) as [-> | Hne].
  - destruct (Req_dec_T 0 0); [reflexivity | lra].
  - pose proof (Rpower_pos a (1 / b)).
    destruct (Req_dec_T (Rpower a (1 / b)) 0); [lra |].
    apply Rpower_exp_inv; lra.
Qed.

Lemma rpow_inv_exp (a b : R) : 0 <= a -> 0 < b -> rpow (rpow a b) (1 / b) = a.
Proof.
  intros Ha Hb. unfold rpow. destruct (Req_dec_T a 0) as [-> | Hne].
  - destruct (Req_dec_T 0 0); [reflexivity | lra].
  - pose proof (Rpower_pos a b).
    destruct (Req_dec_T (Rpower a b) 0); [lra |].
    apply Rpower_inv_exp; lra.
Qed.

Lemma reaches_Lame (n m v : R) :
  0 < n -> 0 < m -> 0 <= v <= 1 ->
  reaches (NLLame.iface (NLLame.New (Fin n) (Fin m))) v.
Proof.
  intros Hn Hm Hv.
  assert (Hin : 0 < 1 / n) by (apply Rdiv_lt_0_compat; lra).
  assert (Him : 0 < 1 / m) by (apply Rdiv_lt_0_compat; lra).
  destruct (Req_dec_T v 1) as [-> | Hne].
  - exists 1. split; [lra |]. open_curve. rewrite lit_1.
    cbn [ltb Ieee.float64]. rewrite lt_fin_false by lra. reflexivity.
  - (* w = 1 - v in (0,1]; y = w^m in (0,1]; x = 1 - y in [0,1) *)
    set (w := 1 - v). assert (Hw : 0 < w <= 1) by (unfold w; lra).
    pose proof (@rpow_pos w m (proj1 Hw)) as Hy0.
    destruct (@rpow_unit w m) as [_ Hy1]; [lra | assumption |].
    pose proof (@rpow_inv_exp w m) as Hyinv.
    set (y := rpow w m) in *.
    set (x := 1 - y). assert (Hx : 0 <= x < 1) by (unfold x; lra).
    pose proof (@rpow_lt_one x (1 / n) Hx Hin) as Ht1.
    pose proof (rpow_nonneg x (1 / n)) as Ht0.
    exists (rpow x (1 / n)). split; [lra |].
    open_curve.
    cbn [NLLame.New NLLame.N NLLame.M NLLame.Odn NLLame.Odm]. rewrite lit_1.
    rewrite !div_fin by lra. cbn [ltb Ieee.float64].
    rewrite lt_fin_true by assumption. cbv zeta.
    rewrite pow_rpow by lra. rewrite rpow_exp_inv by lra.
    rewrite sub_fin. replace (1 - x) with y by (unfold x; lra).
    rewrite pow_rpow by lra. rewrite Hyinv by lra.
    rewrite sub_fin. do 2 f_equal. unfold w. lra.
Qed.

Lemma reaches_Catenary (v : R) :
  0 <= v <= 1 -> reaches (NLCatenary.iface NLCatenary.mk) v.
Proof.
  intros Hv. pose proof cosh_1_gt_1 as Hc.
  set (x := v * (cosh 1 - 1) + 1).
  assert (Hx : 1 <= x <= cosh 1) by (unfold x; nra).
  assert (Hq : 0 <= x * x - 1) by nra.
  pose proof (sqrt_pos (x * x - 1)) as Hs0.
  assert (Hss : sqrt (x * x - 1) * sqrt (x * x - 1) = x * x - 1)
    by (apply sqrt_sqrt; assumption).
  set (s := sqrt (x * x - 1)) in *.
  assert (Hy : 1 <= x + s) by lra.
  assert (Hinv : / (x + s) = x - s).
  { apply Rmult_eq_reg_l with (x + s); [| lra].
    rewrite Rinv_r by lra. nra. }
  exists (ln (x + s)). split.
  - split.
    + rewrite <- ln_1. apply ln_le; lra.
    + assert (Hs1 : s <= sinh 1).
      { rewrite <- (sqrt_square (sinh 1)) by (apply sinh_nonneg; lra).
        rewrite <- cosh2_sinh2. apply sqrt_le_1; nra. }
      pose proof (cosh_sinh_exp 1) as He.
      apply Rle_trans with (ln (exp 1)); [apply ln_le; lra |].
      rewrite ln_exp. lra.
  - open_curve. rewrite lit_1. fin. rewrite div_fin by lra.
    do 2 f_equal.
    assert (Ech : cosh (ln (x + s)) = x).
    { unfold cosh. rewrite exp_Ropp, exp_ln by lra. rewrite Hinv. lra. }
    rewrite Ech. unfold x. field. lra.
Qed.

Lemma reaches_Gauss (k v : R) :
  0 < k -> 0 <= v <= 1 ->
  reaches (NLGauss.iface (NLGauss.New (Fin k))) v.
Proof.
  intros Hk Hv.
  assert (H1 : Q2R 1 = 1) by (unfold Q2R; simpl; lra).
  assert (Hh : Q2R 0.5 = 1 / 2) by (unfold Q2R; simpl; lra).
  assert (Hmh : Q2R (-0.5) = - (1 / 2)) by (unfold Q2R; simpl; lra).
  assert (Hkk : 0 < k * k) by nra.
  set (o := exp (- k * k * (1 / 2))).
  assert (Ho : 0 < o < 1).
  { unfold o. split; [apply exp_pos |].
    apply Rlt_le_trans with (exp 0); [apply exp_increasing; lra |].
    rewrite exp_0. lra. }
  assert (Hlo : ln o = - k * k * (1 / 2)) by (unfold o; apply ln_exp).
  set (a := v * (1 - o) + o).
  assert (Ha : o <= a <= 1) by (unfold a; nra).
  assert (Hla : ln o <= ln a <= 0).
  { split; [apply ln_le; lra |]. rewrite <- ln_1. apply ln_le; lra. }
  set (q := -2 * ln a). assert (Hq : 0 <= q <= k * k) by (unfold q; lra).
  assert (Hsq : 0 <= sqrt q <= k).
  { split; [apply sqrt_pos |].
    rewrite <- (sqrt_square k) by lra. apply sqrt_le_1; lra. }
  assert (Hss : sqrt q * sqrt q = q) by (apply sqrt_sqrt; lra).
  exists (1 - sqrt q / k). split.
  - destruct (@div_unit (sqrt q) k Hk Hsq). lra.
  - open_curve.
    cbn [NLGauss.New NLGauss.K NLGauss.Offs NLGauss.Scale]; cbv zeta; fin.
    rewrite !H1, Hh, Hmh. fold o.
    rewrite div_fin by lra. fin. do 2 f_equal.
    replace (k * (1 - sqrt q / k - 1) * (- (1 / 2) * (k * (1 - sqrt q / k - 1))))
      with (- (1 / 2) * (sqrt q * sqrt q)) by (field; lra).
    rewrite Hss. unfold q.
    replace (- (1 / 2) * (-2 * ln a)) with (ln a) by lra.
    rewrite exp_ln by lra. unfold a. field. lra.
Qed.

Lemma sigma_logit (a : R) : 0 < a < 1 -> sigma (- ln (1 / a - 1)) = a.
Proof.
  intros Ha.
  assert (Hq : 0 < 1 / a - 1).
  { assert (1 < / a) by (rewrite <- Rinv_1; apply Rinv_lt_contravar; lra).
    lra. }
  unfold sigma. rewrite Ropp_involutive, exp_ln by assumption. field. lra.
Qed.

Lemma reaches_Logistic (k mp v : R) :
  0 < k -> 0 < mp < 1 -> 0 <= v <= 1 ->
  reaches (NLLogistic.iface (NLLogistic.New (Fin k) (Fin mp))) v.
Proof.
  intros Hk Hmp Hv.
  assert (H1 : Q2R 1 = 1) by (unfold Q2R; simpl; lra).
  set (s0 := sigma (- mp * k)). set (s1 := sigma ((1 - mp) * k)).
  assert (H01 : s0 < s1) by (apply sigma_lt; nra).
  pose proof (sigma_pos (- mp * k)) as Hp0. fold s0 in Hp0.
  pose proof (sigma_pos ((1 - mp) * k)) as Hp1. fold s1 in Hp1.
  set (a := v * (s1 - s0) + s0).
  assert (Ha : s0 <= a <= s1) by (unfold a; nra).
  set (z := - ln (1 / a - 1)).
  assert (Hz : sigma z = a) by (apply sigma_logit; lra).
  assert (Hzr : - mp * k <= z <= (1 - mp) * k).
  { split.
    - destruct (Rle_dec (- mp * k) z) as [| Hn]; [assumption | exfalso].
      assert (sigma z < s0) by (apply sigma_lt; lra). lra.
    - destruct (Rle_dec z ((1 - mp) * k)) as [| Hn]; [assumption | exfalso].
      assert (s1 < sigma z) by (apply sigma_lt; lra). lra. }
  exists (z / k + mp). split.
  - assert (E : z / k + mp = (z + mp * k) / k) by (field; lra).
    rewrite E. apply div_unit; lra.
  - open_curve.
    cbn [NLLogistic.New NLLogistic.K NLLogistic.Mp NLLogistic.Offs
         NLLogistic.Scale]; cbv zeta; fin.
    rewrite !logisticTransform_fin. rewrite !H1. fold s0 s1. fin.
    rewrite div_fin by lra. fin. do 2 f_equal.
    replace ((z / k + mp - mp) * k) with z by (field; lra).
    rewrite Hz. unfold a. field. lra.
Qed.

Lemma closed_form_reaches (c : NonLinear ieee) (v : R) :
  closed_form c -> 0 <= v <= 1 -> reaches c v.
Proof.
  intros Hc Hv. destruct Hc.
  - apply reaches_Linear; assumption.
  - apply reaches_Square; assumption.
  - apply reaches_Cube; assumption.
  - apply reaches_Exponential; assumption.
  - apply reaches_Logarithmic; assumption.
  - apply reaches_Sin; assumption.
  - apply reaches_Sin1; assumption.
  - apply reaches_Sin2; assumption.
  - apply reaches_Circle1; assumption.
  - apply reaches_Circle2; assumption.
  - apply reaches_Lame; assumption.
  - apply reaches_Catenary; assumption.
  - apply reaches_Gauss; assumption.
  - apply reaches_Logistic; assumption.
Qed.

(** ** Transform after InvTransform *)

Lemma closed_form_inverse_unit (c : NonLinear ieee) (v : R) :
  closed_form c -> 0 <= v <= 1 ->
  exists t, InvTransform c (Fin v) = Val (Fin t) /\ 0 <= t <= 1 /\
            Transform c (Fin t) = Val (Fin v).
Proof.
  intros Hc Hv. destruct (closed_form_reaches Hc Hv) as (t & Ht & HT).
  exists t. split; [| split; assumption].
  apply closed_form_inverse_at; assumption.
Qed.

(** X23: for every closed-form curve, InvTransform maps [0,1] into [0,1]
    without decreasing, and Transform takes its result back: for
    0 <= v1 <= v2 <= 1, 0 <= InvTransform(v1) <= InvTransform(v2) <= 1 and
    Transform(InvTransform(v)) = v at both, exactly over the reals. *)
Theorem closed_form_right_inverse (c : NonLinear ieee) (v1 v2 : R) :
  closed_form c -> 0 <= v1 -> v1 <= v2 -> v2 <= 1 ->
  exists t1 t2,
    InvTransform c (Fin v1) = Val (Fin t1) /\
    InvTransform c (Fin v2) = Val (Fin t2) /\
    0 <= t1 /\ t1 <= t2 /\ t2 <= 1 /\
    Transform c (Fin t1) = Val (Fin v1) /\
    Transform c (Fin t2) = Val (Fin v2).
Proof.
  intros Hc H0 H12 H1.
  destruct (@closed_form_inverse_unit c v1 Hc) as (t1 & I1 & R1 & T1); [lra |].
  destruct (@closed_form_inverse_unit c v2 Hc) as (t2 & I2 & R2 & T2); [lra |].
  exists t1, t2. repeat (split; [assumption || lra |]).
  split; [| split; [lra | split; assumption]].
  destruct (Rle_dec t1 t2) as [| Hn]; [assumption | exfalso].
  destruct (unstopped_curve_increasing (closed_form_unstopped Hc))
    as (_ & g & Hg & Hm).
  rewrite Hg in T1, T2 by assumption.
  injection T1 as E1. injection T2 as E2.
  pose proof (Hm t2 t1).
  assert (Ev : v1 = v2) by lra.
  rewrite Ev, I2 in I1. injection I1 as E. lra.
Qed.

Lemma closed_form_right_inverse_witness :
  exists t1 t2,
    InvTransform (NLLogistic.iface (NLLogistic.New (Fin 8) (Fin (1 / 2))))
      (Fin (1 / 4)) = Val (Fin t1) /\
    InvTransform (NLLogistic.iface (NLLogistic.New (Fin 8) (Fin (1 / 2))))
      (Fin (3 / 4)) = Val (Fin t2) /\
    0 <= t1 /\ t1 <= t2 /\ t2 <= 1 /\
    Transform (NLLogistic.iface (NLLogistic.New (Fin 8) (Fin (1 / 2))))
      (Fin t1) = Val (Fin (1 / 4)) /\
    Transform (NLLogistic.iface (NLLogistic.New (Fin 8) (Fin (1 / 2))))
      (Fin t2) = Val (Fin (3 / 4)).
Proof.
  apply (@closed_form_right_inverse
           (NLLogistic.iface (NLLogistic.New (Fin 8) (Fin (1 / 2))))
           (1 / 4) (3 / 4)).
  - apply cf_Logistic; lra.
  - lra.
  - lra.
  - lra.
Defined.

(** ** RemapNL there and back *)

Lemma clamp_unit_id (t : R) : 0 <= t <= 1 -> clamp_unit t = t.
Proof.
  intros Ht. unfold clamp_unit.
  destruct (Rlt_dec t 0); [lra |]. destruct (Rlt_dec 1 t); [lra | reflexivity].
Qed.

Lemma between_quotient (a b v : R) :
  a <> b -> between a b v ->
  0 <= (v - a) / (b - a) <= 1.
Proof.
  intros Hab Hv. destruct (@quotient_bounds v a b Hab) as (_ & _ & H).
  destruct Hv; apply H; nra.
Qed.

(** InvNLerp of a value of the range, then the curve back. *)
Lemma InvNLerp_between (c : NonLinear ieee) (a b v : R) :
  closed_form c -> a <> b -> between a b v ->
  exists t, InvNLerp (Fin v) (Fin a) (Fin b) c = Val (Fin t) /\
            0 <= t <= 1 /\
            NLerp (Fin t) (Fin a) (Fin b) c = Val (Fin v).
Proof.
  intros Hc Hab Hv. pose proof (between_quotient Hab Hv) as Hu.
  destruct (closed_form_inverse_unit Hc Hu) as (t & It & Rt & Tt).
  exists t. split; [| split; [assumption |]].
  - rewrite InvNLerp_unit by assumption. exact It.
  - rewrite (@NLerp_unit c t a b _ Rt Tt). do 2 f_equal. field. lra.
Qed.

(** X24: RemapNL between a range and itself, with the same closed-form
    curve on both sides, is the identity on the range: for start <> end
    and v between them, RemapNL(v, start, end, start, end, c, c) = v,
    exactly over the reals. *)
Theorem RemapNL_same_range (c : NonLinear ieee) (a b v : R) :
  closed_form c -> a <> b -> between a b v ->
  RemapNL (Fin v) (Fin a) (Fin b) (Fin a) (Fin b) c c = Val (Fin v).
Proof.
  intros Hc Hab Hv.
  destruct (InvNLerp_between Hc Hab Hv) as (t & It & _ & Nt).
  unfold RemapNL. rewrite It. cbn [bind]. exact Nt.
Qed.

Lemma RemapNL_same_range_witness :
  RemapNL (Fin 3) (Fin 7) (Fin 2) (Fin 7) (Fin 2)
    (NLExponential.iface (NLExponential.New (Fin 10)))
    (NLExponential.iface (NLExponential.New (Fin 10))) = Val (Fin 3).
Proof.
  apply (@RemapNL_same_range
           (NLExponential.iface (NLExponential.New (Fin 10))) 7 2 3).
  - apply cf_Exponential. lra.
  - lra.
  - right. lra.
Defined.

(** X25: RemapNL from one range to another and back returns the value it
    started from: for closed-form curves fi and fo, istart <> iend,
    ostart <> oend and v between istart and iend, remapping v to the
    output range and the result back to the input range (the curves
    swapped) gives v, exactly over the reals. *)
Theorem RemapNL_round_trip (fi fo : NonLinear ieee) (a b c d v : R) :
  closed_form fi -> closed_form fo -> a <> b -> c <> d -> between a b v ->
  (w <- RemapNL (Fin v) (Fin a) (Fin b) (Fin c) (Fin d) fi fo ;;
   RemapNL w (Fin c) (Fin d) (Fin a) (Fin b) fo fi) = Val (Fin v).
Proof.
  intros Hfi Hfo Hab Hcd Hv.
  destruct (InvNLerp_between Hfi Hab Hv) as (t & It & Rt & Nt).
  unfold RemapNL. rewrite It. cbn [bind].
  rewrite <- bind_assoc.
  rewrite (InvNLerp_after_NLerp t Hfo Hcd). cbn [bind].
  rewrite clamp_unit_id by assumption. exact Nt.
Qed.

Lemma RemapNL_round_trip_witness :
  (w <- RemapNL (Fin 3) (Fin 2) (Fin 7) (Fin 20) (Fin 10)
          (NLSin.iface NLSin.mk) (NLCircle2.iface NLCircle2.mk) ;;
   RemapNL w (Fin 20) (Fin 10) (Fin 2) (Fin 7)
     (NLCircle2.iface NLCircle2.mk) (NLSin.iface NLSin.mk)) = Val (Fin 3).
Proof.
  apply (@RemapNL_round_trip (NLSin.iface NLSin.mk)
           (NLCircle2.iface NLCircle2.mk) 2 7 20 10 3).
  - apply cf_Sin.
  - apply cf_Circle2.
  - lra.
  - lra.
  - left. lra.
Defined.

(** X26: for a compound of closed-form curves and v in [0,1],
    InvTransform(v) is a value t in [0,1] and Transform(t) = v, exactly
    over the reals. *)
Theorem Compound_right_inverse (fs : list (NonLinear ieee)) (v : R) :
  Forall closed_form fs -> 0 <= v <= 1 ->
  exists t,
    InvTransform (NLCompound.iface (NLCompound.New fs)) (Fin v) = Val (Fin t)
    /\ 0 <= t <= 1
    /\ Transform (NLCompound.iface (NLCompound.New fs)) (Fin t) = Val (Fin v).
Proof.
  intros Hfs Hv.
  cbn [Transform InvTransform NLCompound.iface].
  unfold NLCompound.Transform, NLCompound.InvTransform.
  cbn [NLCompound.New NLCompound.Fs].
  induction Hfs as [| f fs Hf Hfs IH].
  - exists v. split; [reflexivity | split; [assumption | reflexivity]].
  - destruct IH as (u & Iu & Ru & Tu).
    destruct (closed_form_inverse_unit Hf Ru) as (t & It & Rt & Tt).
    exists t. split; [| split; [assumption |]].
    + change (f :: fs) with ([f] ++ fs). rewrite down_app, Iu. cbn [bind].
      simpl. unfold index. simpl. rewrite It. reflexivity.
    + cbn [NLCompound.range]. rewrite Tt. cbn [bind]. exact Tu.
Qed.

Lemma Compound_right_inverse_witness :
  exists t,
    InvTransform
      (NLCompound.iface
         (NLCompound.New [NLCube.iface NLCube.mk;
                          NLCatenary.iface NLCatenary.mk])) (Fin (1 / 2))
    = Val (Fin t)
    /\ 0 <= t <= 1
    /\ Transform
         (NLCompound.iface
            (NLCompound.New [NLCube.iface NLCube.mk;
                             NLCatenary.iface NLCatenary.mk])) (Fin t)
       = Val (Fin (1 / 2)).
Proof.
  apply (@Compound_right_inverse
           [NLCube.iface NLCube.mk; NLCatenary.iface NLCatenary.mk] (1 / 2)).
  - repeat constructor.
  - lra.
Defined.
